(** * SerializableModel: a shallow embedding of the marshaling engine

    The development follows [models/SerializableModel] and [enums/Enum.js].
    JavaScript values live in an explicit store (objects, arrays and
    functions have identity; [===] on them is reference equality), every
    operation of the source is a computation in a state-and-exception monad,
    and recursion over nested records is bounded by an explicit fuel.

    A number is [NaN], an infinity or a finite decimal [m * 10^e]; a text
    that is read as a number is rounded to the nearest IEEE 754 double
    (to an infinity or to zero out of range) and kept as the shortest decimal
    that denotes this double, the digits [Number::toString] prints.  The sign
    of zero is not kept.  Strings are byte strings. *)

From Stdlib Require Import ZArith List String Ascii Bool Lia Arith PeanoNat.
From Stdlib Require Import DecimalString.
Import ListNotations.

Set Warnings "-register-all".

Local Open Scope string_scope.
Local Open Scope list_scope.

(* ================================================================= *)
(** ** Numbers and their textual forms *)

Inductive number :=
| NaN
| Infinity (negative : bool)
| Fin (m e : Z).          (* m * 10^e *)

(** Trailing zeros of the mantissa are moved into the exponent, so that a
    finite number has one representation. *)
Fixpoint strip_zeros (fuel : nat) (m e : Z) : Z * Z :=
  match fuel with
  | O => (m, e)
  | S f => if (m =? 0)%Z then (0%Z, 0%Z)
           else if (m mod 10 =? 0)%Z then strip_zeros f (m / 10)%Z (e + 1)%Z
           else (m, e)
  end.

Definition dec (m e : Z) : number :=
  let (m', e') := strip_zeros (S (Z.to_nat (Z.log2 (Z.abs m)))) m e in Fin m' e'.

Definition num_norm (n : number) : number :=
  match n with Fin m e => dec m e | _ => n end.

Definition number_eqb (a b : number) : bool :=
  match num_norm a, num_norm b with
  | NaN, _ | _, NaN => false
  | Infinity x, Infinity y => Bool.eqb x y
  | Fin m e, Fin m' e' => ((m =? m') && (e =? e'))%Z
  | _, _ => false
  end.

Definition num_is_nan (n : number) : bool :=
  match n with NaN => true | _ => false end.

Definition num_truthy (n : number) : bool :=
  match n with NaN => false | Infinity _ => true | Fin m _ => negb (m =? 0)%Z end.

Definition dquote : ascii := ascii_of_nat 34.

Definition chars (s : string) : list ascii := list_ascii_of_string s.
Definition text (cs : list ascii) : string := string_of_list_ascii cs.

Definition digits_of (z : Z) : list ascii :=
  chars (NilZero.string_of_uint (N.to_uint (Z.to_N (Z.abs z)))).

Definition zeros (n : nat) : list ascii := repeat "0"%char n.

(** [Number::toString] for radix 10: plain digits while the decimal point
    falls within 21 places, a leading [0.] down to [1e-7], exponent notation
    beyond. *)
Definition num_to_string (x : number) : string :=
  match num_norm x with
  | NaN => "NaN"
  | Infinity false => "Infinity"
  | Infinity true => "-Infinity"
  | Fin m e =>
      if (m =? 0)%Z then "0" else
      let ds := digits_of m in
      let k := Z.of_nat (List.length ds) in
      let n := (k + e)%Z in
      let sign := if (m <? 0)%Z then ["-"%char] else [] in
      let body :=
        if ((k <=? n) && (n <=? 21))%Z then ds ++ zeros (Z.to_nat (n - k))
        else if ((0 <? n) && (n <=? 21))%Z then
          firstn (Z.to_nat n) ds ++ ["."%char] ++ skipn (Z.to_nat n) ds
        else if ((-6 <? n) && (n <=? 0))%Z then
          chars "0." ++ zeros (Z.to_nat (- n)) ++ ds
        else
          let x := (n - 1)%Z in
          let es := (if (x <? 0)%Z then ["-"%char] else ["+"%char]) ++ digits_of x in
          match ds with
          | [d] => [d] ++ ["e"%char] ++ es
          | d :: r => [d] ++ ["."%char] ++ r ++ ["e"%char] ++ es
          | [] => []
          end
      in text (sign ++ body)
  end.

Definition is_digit (c : ascii) : bool :=
  let n := nat_of_ascii c in (48 <=? n)%nat && (n <=? 57)%nat.

Definition digit_val (c : ascii) : Z := (Z.of_nat (nat_of_ascii c) - 48)%Z.

Fixpoint take_digits (cs : list ascii) : list ascii * list ascii :=
  match cs with
  | c :: r => if is_digit c then let (d, r') := take_digits r in (c :: d, r')
              else ([], cs)
  | [] => ([], [])
  end.

Definition digits_value (ds : list ascii) : Z :=
  fold_left (fun acc c => (acc * 10 + digit_val c)%Z) ds 0%Z.

(* ----------------------------------------------------------------- *)
(** *** Rounding to a double *)

(** The double nearest to the positive rational [n / d], ties to the even
    mantissa, as a mantissa below [2^53] and a binary exponent from [-1074]
    on; [None] when the value rounds beyond the largest double. *)
Definition nearest_double (n d : Z) : option (Z * Z) :=
  let t0 := (Z.log2 n - Z.log2 d)%Z in
  let reaches (t : Z) := if (0 <=? t)%Z then (d * 2 ^ t <=? n)%Z else (d <=? n * 2 ^ (- t))%Z in
  let t := if reaches t0 then t0 else (t0 - 1)%Z in
  let E := Z.max (t - 52) (-1074) in
  let (num, den) := if (0 <=? E)%Z then (n, d * 2 ^ E)%Z else (n * 2 ^ (- E), d)%Z in
  let q := (num / den)%Z in
  let r := (num mod den)%Z in
  let M := if (den <? 2 * r)%Z then (q + 1)%Z
           else if ((den =? 2 * r) && Z.odd q)%Z then (q + 1)%Z else q in
  let (M', E') := if (M =? 2 ^ 53)%Z then (2 ^ 52, E + 1)%Z else (M, E) in
  if (971 <? E')%Z then None else Some (M', E').

(** [s * 10^x] as a fraction, for [s > 0]. *)
Definition decimal_fraction (s x : Z) : Z * Z :=
  if (0 <=? x)%Z then (s * 10 ^ x, 1)%Z else (s, 10 ^ (- x))%Z.

Definition rounds_to (M E s x : Z) : bool :=
  if (s <=? 0)%Z then false else
  let (n, d) := decimal_fraction s x in
  match nearest_double n d with
  | Some (M', E') => ((M' =? M) && (E' =? E))%Z
  | None => false
  end.

(** The decimal with [k] digits or more, [k] as small as can be, that rounds
    to the double [M * 2^E]; of two with [k] digits, the one nearer to the
    double.  [n] is the place of the decimal point of the double's value:
    [10^(n-1) <= M * 2^E < 10^n]. *)
Fixpoint shortest_from (fuel : nat) (k : Z) (M E vn vd n : Z) : number :=
  let x := (n - k)%Z in
  let lo := if (0 <=? x)%Z then (vn / (vd * 10 ^ x))%Z else (vn * 10 ^ (- x) / vd)%Z in
  let hi := (lo + 1)%Z in
  match fuel with
  | O => dec lo x
  | S f =>
      match rounds_to M E lo x, rounds_to M E hi x with
      | true, false => dec lo x
      | false, true => dec hi x
      | true, true =>
          (* twice the value against [lo + hi] at the scale [x] *)
          let (a, b) := if (0 <=? x)%Z then (2 * vn, (lo + hi) * 10 ^ x * vd)%Z
                        else (2 * vn * 10 ^ (- x), (lo + hi) * vd)%Z in
          if (a <? b)%Z then dec lo x
          else if (b <? a)%Z then dec hi x
          else if Z.even lo then dec lo x else dec hi x
      | false, false => shortest_from f (k + 1)%Z M E vn vd n
      end
  end.

Definition decimal_places (z : Z) : Z :=
  Z.of_nat (List.length (digits_of z)).

Definition shortest_decimal (M E : Z) : number :=
  let (vn, vd) := if (0 <=? E)%Z then (M * 2 ^ E, 1)%Z else (M, 2 ^ (- E))%Z in
  let g := (decimal_places vn - decimal_places vd)%Z in
  let reaches := if (0 <=? g)%Z then (vd * 10 ^ g <=? vn)%Z else (vd <=? vn * 10 ^ (- g))%Z in
  let n := if reaches then (g + 1)%Z else g in
  shortest_from 17 1 M E vn vd n.

(** The Number value of the decimal [m * 10^e]. *)
Definition double_of (m e : Z) : number :=
  if (m =? 0)%Z then Fin 0 0 else
  let a := Z.abs m in
  let n := (decimal_places a + e)%Z in
  if (310 <? n)%Z then Infinity (m <? 0)%Z
  else if (n <? -330)%Z then Fin 0 0
  else
    let (p, q) := decimal_fraction a e in
    match nearest_double p q with
    | None => Infinity (m <? 0)%Z
    | Some (M, E) =>
        if (M =? 0)%Z then Fin 0 0 else
        match shortest_decimal M E with
        | Fin s x => Fin (if (m <? 0)%Z then - s else s)%Z x
        | other => other
        end
    end.

Definition is_ws (c : ascii) : bool :=
  let n := nat_of_ascii c in
  (n =? 32)%nat || (n =? 9)%nat || (n =? 10)%nat || (n =? 13)%nat.

(** JavaScript's white space for [parseFloat] and [ToNumber] also has the
    vertical tab and the form feed (the non-ASCII spaces are not modelled). *)
Definition is_js_ws (c : ascii) : bool :=
  let n := nat_of_ascii c in is_ws c || (n =? 11)%nat || (n =? 12)%nat.

Fixpoint skip (p : ascii -> bool) (cs : list ascii) : list ascii :=
  match cs with
  | c :: r => if p c then skip p r else cs
  | [] => []
  end.

(** An optional exponent part [e[+-]digits]; left unread when malformed. *)
Definition scan_exponent (cs : list ascii) : Z * list ascii :=
  match cs with
  | c :: r =>
      if (Ascii.eqb c "e" || Ascii.eqb c "E")%char then
        let '(neg, r1) :=
          match r with
          | s :: r' => if Ascii.eqb s "-" then (true, r')
                       else if Ascii.eqb s "+" then (false, r') else (false, r)
          | [] => (false, r)
          end in
        match take_digits r1 with
        | ([], _) => (0%Z, cs)
        | (ds, r2) => ((if neg then - digits_value ds else digits_value ds)%Z, r2)
        end
      else (0%Z, cs)
  | [] => (0%Z, cs)
  end.

(** The longest prefix that is a [StrUnsignedDecimalLiteral] other than
    [Infinity]: [digits], [digits.], [digits.digits], [.digits], each with an
    optional exponent. *)
Definition scan_unsigned (cs : list ascii) : option (number * list ascii) :=
  let (ip, r) := take_digits cs in
  let '(fp, r1, dot) :=
    match r with
    | c :: r' => if Ascii.eqb c "." then let (f, r'') := take_digits r' in (f, r'', true)
                 else ([], r, false)
    | [] => ([], r, false)
    end in
  match ip, fp with
  | [], [] => None
  | _, _ =>
      let (x, r2) := scan_exponent r1 in
      Some (double_of (digits_value (ip ++ fp)) (x - Z.of_nat (List.length fp)), r2)
  end.

Definition num_neg (n : number) : number :=
  match n with NaN => NaN | Infinity b => Infinity (negb b) | Fin m e => Fin (- m) e end.

Fixpoint strip_prefix (p cs : list ascii) : option (list ascii) :=
  match p, cs with
  | [], _ => Some cs
  | a :: p', c :: cs' => if Ascii.eqb a c then strip_prefix p' cs' else None
  | _ :: _, [] => None
  end.

(** A [StrDecimalLiteral]: optional sign, then [Infinity] or an unsigned
    decimal literal. *)
Definition scan_decimal (cs : list ascii) : option (number * list ascii) :=
  let '(neg, r) :=
    match cs with
    | c :: r' => if Ascii.eqb c "-" then (true, r')
                 else if Ascii.eqb c "+" then (false, r') else (false, cs)
    | [] => (false, cs)
    end in
  let res :=
    match strip_prefix (chars "Infinity") r with
    | Some r' => Some (Infinity false, r')
    | None => scan_unsigned r
    end in
  match res with
  | Some (n, r') => Some (if neg then num_neg n else n, r')
  | None => None
  end.

(** [parseFloat] on a string: leading white space is skipped and the longest
    decimal prefix is read. *)
Definition parseFloat_text (s : string) : number :=
  match scan_decimal (skip is_js_ws (chars s)) with
  | Some (n, _) => n
  | None => NaN
  end.

Definition is_radix_digit (radix : nat) (c : ascii) : bool :=
  let n := nat_of_ascii c in
  let v := if is_digit c then n - 48
           else if (97 <=? n)%nat && (n <=? 102)%nat then n - 87
           else if (65 <=? n)%nat && (n <=? 70)%nat then n - 55
           else 99 in
  (v <? radix)%nat.

(** Whether [ToNumber] of a string is [NaN].  The empty (or all-blank)
    string converts to 0; hexadecimal, octal and binary literals are numeric. *)
Definition isNaN_text (s : string) : bool :=
  let cs := rev (skip is_js_ws (rev (skip is_js_ws (chars s)))) in
  match cs with
  | [] => false
  | z :: x :: d :: ds =>
      let radix := if Ascii.eqb z "0" then
                     if (Ascii.eqb x "x" || Ascii.eqb x "X")%char then 16
                     else if (Ascii.eqb x "o" || Ascii.eqb x "O")%char then 8
                     else if (Ascii.eqb x "b" || Ascii.eqb x "B")%char then 2 else 0
                   else 0 in
      if (radix =? 0)%nat then
        match scan_decimal cs with Some (n, []) => num_is_nan n | _ => true end
      else negb (forallb (is_radix_digit radix) (d :: ds))
  | _ => match scan_decimal cs with Some (n, []) => num_is_nan n | _ => true end
  end.

(* ================================================================= *)
(** ** JSON text *)

Inductive json :=
| JNull
| JBool (b : bool)
| JNum (n : number)
| JStr (s : string)
| JArr (xs : list json)
| JObj (ps : list (string * json)).

Definition hex_val (c : ascii) : option nat :=
  let n := nat_of_ascii c in
  if is_digit c then Some (n - 48)
  else if (97 <=? n)%nat && (n <=? 102)%nat then Some (n - 87)
  else if (65 <=? n)%nat && (n <=? 70)%nat then Some (n - 55)
  else None.

(** A [\uXXXX] code unit is stored as its UTF-8 bytes. *)
Definition utf8 (cp : nat) : list ascii :=
  if (cp <? 128)%nat then [ascii_of_nat cp]
  else if (cp <? 2048)%nat then
    [ascii_of_nat (192 + cp / 64); ascii_of_nat (128 + cp mod 64)]
  else
    [ascii_of_nat (224 + cp / 4096); ascii_of_nat (128 + (cp / 64) mod 64);
     ascii_of_nat (128 + cp mod 64)].

(** The characters of a JSON string, after the opening quote. *)
Fixpoint scan_string (fuel : nat) (cs acc : list ascii) : option (string * list ascii) :=
  match fuel with
  | O => None
  | S f =>
      match cs with
      | [] => None
      | c :: r =>
          if Ascii.eqb c dquote then Some (text (rev acc), r)
          else if (nat_of_ascii c <? 32)%nat then None
          else if Ascii.eqb c "\" then
            match r with
            | e :: r' =>
                if Ascii.eqb e "u" then
                  match r' with
                  | a :: b :: c' :: d :: r'' =>
                      match hex_val a, hex_val b, hex_val c', hex_val d with
                      | Some x, Some y, Some z, Some w =>
                          scan_string f r'' (rev (utf8 (x * 4096 + y * 256 + z * 16 + w)) ++ acc)
                      | _, _, _, _ => None
                      end
                  | _ => None
                  end
                else
                  let simple (x : ascii) := scan_string f r' (x :: acc) in
                  if Ascii.eqb e dquote then simple dquote
                  else if Ascii.eqb e "\" then simple "\"%char
                  else if Ascii.eqb e "/" then simple "/"%char
                  else if Ascii.eqb e "b" then simple (ascii_of_nat 8)
                  else if Ascii.eqb e "f" then simple (ascii_of_nat 12)
                  else if Ascii.eqb e "n" then simple (ascii_of_nat 10)
                  else if Ascii.eqb e "r" then simple (ascii_of_nat 13)
                  else if Ascii.eqb e "t" then simple (ascii_of_nat 9)
                  else None
            | [] => None
            end
          else scan_string f r (c :: acc)
      end
  end.

(** A JSON number: [-? (0 | [1-9] digits) (. digits+)? (e [+-]? digits+)?].
    A fraction or exponent that is not well formed is left unread, and what
    is left then fails in the caller. *)
Definition scan_json_number (cs : list ascii) : option (number * list ascii) :=
  let '(neg, r) :=
    match cs with
    | c :: r' => if Ascii.eqb c "-" then (true, r') else (false, cs)
    | [] => (false, cs)
    end in
  let (ip, r1) := take_digits r in
  match ip with
  | [] => None
  | d :: ds =>
      if Ascii.eqb d "0" && negb (match ds with [] => true | _ => false end) then None
      else
        let '(fp, r2) :=
          match r1 with
          | c :: r' =>
              if Ascii.eqb c "." then
                match take_digits r' with
                | ([], _) => ([], r1)
                | (f, r'') => (f, r'')
                end
              else ([], r1)
          | [] => ([], r1)
          end in
        let (x, r3) := scan_exponent r2 in
        let n := double_of (digits_value (ip ++ fp)) (x - Z.of_nat (List.length fp)) in
        Some (if neg then num_neg n else n, r3)
  end.

Fixpoint set_member (ps : list (string * json)) (k : string) (v : json) :=
  match ps with
  | [] => [(k, v)]
  | (k', v') :: r => if String.eqb k' k then (k, v) :: r else (k', v') :: set_member r k v
  end.

Fixpoint parse_value (fuel : nat) (cs : list ascii) : option (json * list ascii) :=
  match fuel with
  | O => None
  | S f =>
      match skip is_ws cs with
      | [] => None
      | c :: r =>
          if Ascii.eqb c "{" then
            match skip is_ws r with
            | c' :: r' => if Ascii.eqb c' "}" then Some (JObj [], r')
                          else parse_members f (c' :: r') []
            | [] => None
            end
          else if Ascii.eqb c "[" then
            match skip is_ws r with
            | c' :: r' => if Ascii.eqb c' "]" then Some (JArr [], r')
                          else parse_elements f (c' :: r') []
            | [] => None
            end
          else if Ascii.eqb c dquote then
            match scan_string (S (List.length r)) r [] with
            | Some (s, r') => Some (JStr s, r')
            | None => None
            end
          else
            match strip_prefix (chars "true") (c :: r),
                  strip_prefix (chars "false") (c :: r),
                  strip_prefix (chars "null") (c :: r) with
            | Some r', _, _ => Some (JBool true, r')
            | _, Some r', _ => Some (JBool false, r')
            | _, _, Some r' => Some (JNull, r')
            | None, None, None =>
                match scan_json_number (c :: r) with
                | Some (n, r') => Some (JNum n, r')
                | None => None
                end
            end
      end
  end
with parse_elements (fuel : nat) (cs : list ascii) (acc : list json)
  : option (json * list ascii) :=
  match fuel with
  | O => None
  | S f =>
      match parse_value f cs with
      | Some (v, r) =>
          match skip is_ws r with
          | c :: r' =>
              if Ascii.eqb c "," then parse_elements f r' (v :: acc)
              else if Ascii.eqb c "]" then Some (JArr (rev (v :: acc)), r')
              else None
          | [] => None
          end
      | None => None
      end
  end
with parse_members (fuel : nat) (cs : list ascii) (acc : list (string * json))
  : option (json * list ascii) :=
  match fuel with
  | O => None
  | S f =>
      match skip is_ws cs with
      | q :: r0 =>
          if Ascii.eqb q dquote then
            match scan_string (S (List.length r0)) r0 [] with
            | Some (k, r1) =>
                match skip is_ws r1 with
                | c :: r2 =>
                    if Ascii.eqb c ":" then
                      match parse_value f r2 with
                      | Some (v, r3) =>
                          match skip is_ws r3 with
                          | c' :: r4 =>
                              if Ascii.eqb c' "," then parse_members f r4 (set_member acc k v)
                              else if Ascii.eqb c' "}" then Some (JObj (set_member acc k v), r4)
                              else None
                          | [] => None
                          end
                      | None => None
                      end
                    else None
                | [] => None
                end
            | None => None
            end
          else None
      | [] => None
      end
  end.

(** [JSON.parse] on a text: [None] is a [SyntaxError]. *)
Definition JSON_parse_text (s : string) : option json :=
  let cs := chars s in
  match parse_value (S (S (List.length cs))) cs with
  | Some (j, r) => match skip is_ws r with [] => Some j | _ => None end
  | None => None
  end.

Definition json_truthy (j : json) : bool :=
  match j with
  | JNull => false
  | JBool b => b
  | JNum n => num_truthy n
  | JStr s => negb (String.eqb s EmptyString)
  | JArr _ | JObj _ => true
  end.

Definition quoted (s : string) : string :=
  String dquote (String.append s (String dquote EmptyString)).

(* ================================================================= *)
(** ** Values, the store and the monad *)

Definition loc := nat.
Definition class_id := nat.

(** A JavaScript value.  Objects, arrays and function objects are references
    into the store; a record type (a class) and a method of
    [SerializableModel.prototype] are values of their own. *)
Inductive value :=
| VUndefined
| VNull
| VBool (b : bool)
| VNum (n : number)
| VStr (s : string)
| VRef (l : loc)
| VClass (c : class_id)
| VMethod (name : string).

(** Which constructor built an object: decides [instanceof]. *)
Inductive ctor :=
| CObject
| CAttrFieldDef
| CFragmentFieldDef
| CFragmentArrayFieldDef
| CModel (c : class_id)
| CEnum (name : string).

(** A zero-argument function: it returns a fixed value, or a new array. *)
Inductive producer :=
| PConst (v : value)
| PFreshArray (vs : list value).

Inductive cell :=
| Obj (c : ctor) (frozen : bool) (props : list (string * value))
| Arr (frozen : bool) (elems : list value)
| Fn (body : producer).

Definition heap_t := list cell.

(** [statics] holds each class's own [_fieldDefs]; [console] the warnings. *)
Record state := mkState {
  heap : heap_t;
  statics : list (class_id * value);
  console : list string
}.

Inductive error :=
| TypeError (msg : string)
| SyntaxError
| ValidationError (msg : string).

Inductive outcome (A : Type) :=
| Ret (a : A) (s : state)
| Throw (e : error) (s : state)
| OutOfFuel.
Arguments Ret {A} a s.
Arguments Throw {A} e s.
Arguments OutOfFuel {A}.

Definition M (A : Type) := state -> outcome A.

Definition ret {A} (a : A) : M A := fun s => Ret a s.

Definition bind {A B} (m : M A) (k : A -> M B) : M B :=
  fun s => match m s with
           | Ret a s' => k a s'
           | Throw e s' => Throw e s'
           | OutOfFuel => OutOfFuel
           end.

Definition throw {A} (e : error) : M A := fun s => Throw e s.
Definition out_of_fuel {A} : M A := fun _ => OutOfFuel.
Definition get_heap : M heap_t := fun s => Ret (heap s) s.

Notation "x <- m ;; k" := (bind m (fun x => k))
  (at level 61, m at next level, right associativity).
Notation "' p <- m ;; k" := (bind m (fun x => let 'p := x in k))
  (at level 61, p pattern, m at next level, right associativity).
Notation "m ;;; k" := (bind m (fun _ => k))
  (at level 61, right associativity).

Fixpoint foldM {A B} (f : B -> A -> M B) (l : list A) (acc : B) : M B :=
  match l with
  | [] => ret acc
  | x :: r => acc' <- f acc x ;; foldM f r acc'
  end.

Fixpoint mapM {A B} (f : A -> M B) (l : list A) : M (list B) :=
  match l with
  | [] => ret []
  | x :: r => y <- f x ;; ys <- mapM f r ;; ret (y :: ys)
  end.

(** Properties in insertion order, as [Object.keys] and [for-in] list them
    for the keys that are not whole numbers.  JavaScript lists the keys that
    are array indices first, in ascending order; that reordering is left
    out, and a statement about the order of keys is made for objects
    without such a key ([digits_key]). *)
Definition alist := list (string * value).

(** A key written with digits only. *)
Definition digits_key (k : string) : bool :=
  match chars k with
  | [] => false
  | cs => forallb is_digit cs
  end.

Fixpoint alist_get (ps : alist) (k : string) : option value :=
  match ps with
  | [] => None
  | (k', v) :: r => if String.eqb k' k then Some v else alist_get r k
  end.

Fixpoint alist_set (ps : alist) (k : string) (v : value) : alist :=
  match ps with
  | [] => [(k, v)]
  | (k', v') :: r => if String.eqb k' k then (k, v) :: r else (k', v') :: alist_set r k v
  end.

Definition prop (ps : alist) (k : string) : value :=
  match alist_get ps k with Some v => v | None => VUndefined end.

Definition assign (target source : alist) : alist :=
  fold_left (fun acc kv => alist_set acc (fst kv) (snd kv)) source target.

Definition alloc (c : cell) : M loc :=
  fun s => Ret (List.length (heap s))
               (mkState (heap s ++ [c]) (statics s) (console s)).

Fixpoint update {A} (l : list A) (n : nat) (x : A) : list A :=
  match l, n with
  | [], _ => []
  | _ :: r, O => x :: r
  | y :: r, S n' => y :: update r n' x
  end.

Definition store (l : loc) (c : cell) : M unit :=
  fun s => Ret tt (mkState (update (heap s) l c) (statics s) (console s)).

(** Assignment [o[k] = v] in strict mode (module code): a frozen target
    refuses it with a [TypeError]. *)
Definition set_prop (l : loc) (k : string) (v : value) : M unit :=
  h <- get_heap ;;
  match nth_error h l with
  | Some (Obj c false ps) => store l (Obj c false (alist_set ps k v))
  | _ => throw (TypeError "Cannot assign to read only property")
  end.

Fixpoint alist_remove (ps : alist) (k : string) : alist :=
  match ps with
  | [] => []
  | (k', v) :: r => if String.eqb k' k then r else (k', v) :: alist_remove r k
  end.

(** [delete o[k]] on an object, in strict mode: a frozen object refuses to
    give up a property it has, with a [TypeError].  No operation of the
    engine deletes; this is what a caller may try. *)
Definition delete_prop (l : loc) (k : string) : M unit :=
  h <- get_heap ;;
  match nth_error h l with
  | Some (Obj c false ps) => store l (Obj c false (alist_remove ps k))
  | Some (Obj c true ps) =>
      match alist_get ps k with
      | Some _ => throw (TypeError "Cannot delete property")
      | None => ret tt
      end
  | _ => ret tt
  end.

(** [Object.freeze]: shallow, and the identity on what is not an object. *)
Definition freeze (v : value) : M unit :=
  h <- get_heap ;;
  match v with
  | VRef l =>
      match nth_error h l with
      | Some (Obj c _ ps) => store l (Obj c true ps)
      | Some (Arr _ es) => store l (Arr true es)
      | _ => ret tt
      end
  | _ => ret tt
  end.

Definition is_frozen (h : heap_t) (l : loc) : bool :=
  match nth_error h l with
  | Some (Obj _ f _) | Some (Arr f _) => f
  | _ => false
  end.

Definition truthy (v : value) : bool :=
  match v with
  | VUndefined | VNull => false
  | VBool b => b
  | VNum n => num_truthy n
  | VStr s => negb (String.eqb s EmptyString)
  | VRef _ | VClass _ | VMethod _ => true
  end.

(** [a === b]. *)
Definition strict_equal (a b : value) : bool :=
  match a, b with
  | VUndefined, VUndefined | VNull, VNull => true
  | VBool x, VBool y => Bool.eqb x y
  | VNum x, VNum y => number_eqb x y
  | VStr x, VStr y => String.eqb x y
  | VRef x, VRef y => Nat.eqb x y
  | VClass x, VClass y => Nat.eqb x y
  | VMethod x, VMethod y => String.eqb x y
  | _, _ => false
  end.

Definition is_undefined (v : value) : bool :=
  match v with VUndefined => true | _ => false end.

Definition is_nullish (v : value) : bool :=
  match v with VUndefined | VNull => true | _ => false end.

(** [typeof v === 'function'] *)
Definition is_function (h : heap_t) (v : value) : bool :=
  match v with
  | VClass _ | VMethod _ => true
  | VRef l => match nth_error h l with Some (Fn _) => true | _ => false end
  | _ => false
  end.

(** [typeof v === 'object'] *)
Definition is_object_type (h : heap_t) (v : value) : bool :=
  match v with
  | VNull => true
  | VRef l => match nth_error h l with Some (Fn _) => false | _ => true end
  | _ => false
  end.

Definition array_elems (h : heap_t) (v : value) : option (list value) :=
  match v with
  | VRef l => match nth_error h l with Some (Arr _ es) => Some es | _ => None end
  | _ => None
  end.

(** [Array.isArray] *)
Definition is_array (h : heap_t) (v : value) : bool :=
  match array_elems h v with Some _ => true | None => false end.

Definition ctor_of (h : heap_t) (v : value) : option ctor :=
  match v with
  | VRef l => match nth_error h l with Some (Obj c _ _) => Some c | _ => None end
  | _ => None
  end.

Definition num_of_nat (n : nat) : number := dec (Z.of_nat n) 0.

Definition index_key (n : nat) : string := num_to_string (num_of_nat n).

Fixpoint indexed (n : nat) (vs : list value) : alist :=
  match vs with
  | [] => []
  | v :: r => (index_key n, v) :: indexed (S n) r
  end.

(** The own enumerable properties of a value, as [Object.assign] and
    [Object.keys] see them. *)
Definition own_props (h : heap_t) (v : value) : alist :=
  match v with
  | VRef l =>
      match nth_error h l with
      | Some (Obj _ _ ps) => ps
      | Some (Arr _ es) => indexed 0 es
      | _ => []
      end
  | _ => []
  end.

Definition model_methods : list string := ["toString"; "serialize"; "clone"; "isEqual"].

(** What the prototype chain adds to the own properties.  The static
    members ([create], [deserialize], [getFieldDefs], [getFieldNames], ...)
    live on the class, not on the prototype. *)
Definition proto_member (c : ctor) (k : string) : value :=
  match c with
  | CModel cl =>
      if String.eqb k "constructor" then VClass cl
      else if existsb (String.eqb k) model_methods then VMethod k
      else VUndefined
  | CEnum _ => if String.eqb k "hasValue" then VMethod k else VUndefined
  | _ => VUndefined
  end.

(** The names that [Object.prototype] supplies to every object. *)
Definition object_prototype_names : list string :=
  ["constructor"; "hasOwnProperty"; "isPrototypeOf"; "propertyIsEnumerable";
   "toLocaleString"; "toString"; "valueOf"; "__proto__";
   "__defineGetter__"; "__defineSetter__"; "__lookupGetter__"; "__lookupSetter__"].

Definition inherited_name (k : string) : bool :=
  existsb (String.eqb k) object_prototype_names.

(** Property read [v[k]]; [None] is the [TypeError] of reading a property of
    [undefined] or [null].  Of the built-in prototypes only [length] is
    modelled, and a class exposes no static data property here: a read of a
    name of [object_prototype_names] that the object does not own finds a
    built-in function in JavaScript and [undefined] here, so a statement
    about a key that an object lacks is made for the keys outside that list
    ([inherited_name]). *)
Definition member (h : heap_t) (v : value) (k : string) : option value :=
  match v with
  | VUndefined | VNull => None
  | VStr s =>
      Some (if String.eqb k "length" then VNum (num_of_nat (String.length s))
            else VUndefined)
  | VRef l =>
      match nth_error h l with
      | Some (Obj c _ ps) =>
          Some (match alist_get ps k with Some x => x | None => proto_member c k end)
      | Some (Arr _ es) =>
          Some (if String.eqb k "length" then VNum (num_of_nat (List.length es))
                else prop (indexed 0 es) k)
      | _ => Some VUndefined
      end
  | _ => Some VUndefined
  end.

Definition get (v : value) (k : string) : M value :=
  h <- get_heap ;;
  match member h v k with
  | Some x => ret x
  | None => throw (TypeError "Cannot read properties of undefined")
  end.

(** Calling a value with no arguments. *)
Definition call (f : value) : M value :=
  h <- get_heap ;;
  match f with
  | VRef l =>
      match nth_error h l with
      | Some (Fn (PConst v)) => ret v
      | Some (Fn (PFreshArray vs)) => a <- alloc (Arr false vs) ;; ret (VRef a)
      | _ => throw (TypeError "not a function")
      end
  | VClass _ => throw (TypeError "Class constructor cannot be invoked without 'new'")
  | _ => throw (TypeError "not a function")
  end.

Definition new_array (vs : list value) : M value :=
  a <- alloc (Arr false vs) ;; ret (VRef a).

Definition new_object (ps : alist) : M value :=
  o <- alloc (Obj CObject false ps) ;; ret (VRef o).

(** Builds a parsed JSON text in the store. *)
Fixpoint alloc_json (j : json) : M value :=
  match j with
  | JNull => ret VNull
  | JBool b => ret (VBool b)
  | JNum n => ret (VNum n)
  | JStr s => ret (VStr s)
  | JArr xs =>
      vs <- (fix go (l : list json) : M (list value) :=
               match l with
               | [] => ret []
               | x :: r => v <- alloc_json x ;; vs <- go r ;; ret (v :: vs)
               end) xs ;;
      new_array vs
  | JObj ps =>
      qs <- (fix go (l : list (string * json)) : M alist :=
               match l with
               | [] => ret []
               | (k, x) :: r => v <- alloc_json x ;; qs <- go r ;; ret ((k, v) :: qs)
               end) ps ;;
      new_object qs
  end.

(** [JSON.parse] *)
Definition JSON_parse (s : string) : M value :=
  match JSON_parse_text s with
  | Some j => alloc_json j
  | None => throw SyntaxError
  end.

(** What [JSON.stringify] writes for a value, as a tree: [Some None] is
    [undefined] (nothing is written), [None] a circular structure.  A
    [toJSON] member is not modelled. *)
Fixpoint stringify_tree (fuel : nat) (h : heap_t) (v : value) : option (option json) :=
  match fuel with
  | O => None
  | S f =>
      match v with
      | VUndefined | VClass _ | VMethod _ => Some None
      | VNull => Some (Some JNull)
      | VBool b => Some (Some (JBool b))
      | VNum (Fin m e) => Some (Some (JNum (Fin m e)))
      | VNum _ => Some (Some JNull)
      | VStr s => Some (Some (JStr s))
      | VRef l =>
          match nth_error h l with
          | Some (Fn _) => Some None
          | Some (Arr _ es) =>
              match (fix go (l : list value) : option (list json) :=
                       match l with
                       | [] => Some []
                       | x :: r =>
                           match stringify_tree f h x, go r with
                           | Some (Some j), Some js => Some (j :: js)
                           | Some None, Some js => Some (JNull :: js)
                           | _, _ => None
                           end
                       end) es with
              | Some js => Some (Some (JArr js))
              | None => None
              end
          | Some (Obj _ _ ps) =>
              match (fix go (l : alist) : option (list (string * json)) :=
                       match l with
                       | [] => Some []
                       | (k, x) :: r =>
                           match stringify_tree f h x, go r with
                           | Some (Some j), Some js => Some ((k, j) :: js)
                           | Some None, Some js => Some js
                           | _, _ => None
                           end
                       end) ps with
              | Some js => Some (Some (JObj js))
              | None => None
              end
          | None => Some (Some (JObj []))
          end
      end
  end.

(* ================================================================= *)
(** ** Record types *)

(** What a class field is initialised with: one of the three descriptor
    factories, or any other value. *)
Inductive field_init :=
| attr (type : value) (options : alist)
| fragment (type : value) (options : alist)
| fragmentArray (type : value) (options : alist)
| plain (v : value).

(** [class cname extends parent { cfields }]; a class without [parent] is
    [SerializableModel] itself. *)
Record class_decl := mkClass {
  cname : string;
  parent : option class_id;
  cfields : list (string * field_init)
}.

Definition SerializableModel_decl : class_decl :=
  mkClass "SerializableModel" None [].

Fixpoint join (sep : string) (l : list string) : string :=
  match l with
  | [] => EmptyString
  | [x] => x
  | x :: r => String.append x (String.append sep (join sep r))
  end.

Definition cat (l : list string) : string := join EmptyString l.

(** Modelled from the spec: [setProperties] of [utils/helpers] is not among
    the sources; a descriptor carries the options it was declared with, so
    every property of the options object is copied onto the target. *)
Definition setProperties (target options : alist) : alist := assign target options.

(** Modelled from the spec: [assert] of [utils/helpers] is not among the
    sources; a value that fails the membership test fails with a
    ValidationError that carries the message. *)
Definition assert (cond : value) (msg : string) : M unit :=
  if truthy cond then ret tt else throw (ValidationError msg).

Definition warn (msg : string) : M unit :=
  fun s => Ret tt (mkState (heap s) (statics s) (console s ++ [msg])).


(* ================================================================= *)
(** ** The helpers, as the specification describes them *)

Definition upper (c : ascii) : ascii :=
  let n := nat_of_ascii c in
  if (97 <=? n)%nat && (n <=? 122)%nat then ascii_of_nat (n - 32) else c.

Definition lower (c : ascii) : ascii :=
  let n := nat_of_ascii c in
  if (65 <=? n)%nat && (n <=? 90)%nat then ascii_of_nat (n + 32) else c.

Fixpoint camel_tail (cs : list ascii) : list ascii :=
  match cs with
  | c :: r =>
      if Ascii.eqb c "_" then
        match r with
        | d :: r' => upper d :: camel_tail r'
        | [] => []
        end
      else c :: camel_tail r
  | [] => []
  end.

(** Modelled from the spec: the wire-key case conversion of [utils/helpers]
    is not among the sources; [toInternal] gives internal (camelCase) names. *)
Definition camelize_key (s : string) : string :=
  match camel_tail (chars s) with
  | c :: r => text (lower c :: r)
  | [] => EmptyString
  end.

(** Modelled from the spec: the wire-key case conversion of [utils/helpers]
    is not among the sources; [toExternal] gives wire (classified) names. *)
Definition classify_key (s : string) : string :=
  match camel_tail (chars s) with
  | c :: r => text (upper c :: r)
  | [] => EmptyString
  end.

(** Modelled from the spec: [isEmpty] of [utils/helpers] is not among the
    sources; it is true for null, absent and empty-string values. *)
Definition isEmpty_model (h : heap_t) (v : value) : bool :=
  match v with
  | VUndefined | VNull => true
  | VStr s => String.eqb s EmptyString
  | _ => false
  end.

(** Modelled from the spec: [isNone] of [utils/helpers] is not among the
    sources; it tells no value from a value that is falsy but present. *)
Definition isNone_model (h : heap_t) (v : value) : bool := is_nullish v.

Definition empty_state : state := mkState [] [] [].

(* ================================================================= *)
(** ** Sample record types *)

Definition string_attr : field_init := attr (VStr "string") [].

(** The store the samples start from: the [Country] enum of the readme,
    a singleton that exists before any record type is used. *)
Definition Country : cell :=
  Obj (CEnum "Country") false
      [("Australia", VStr "Australia"); ("UnitedKingdom", VStr "UnitedKingdom")].

Definition demo_state : state := mkState [Country] [] [].

Definition demo_classes : list class_decl :=
  [ SerializableModel_decl;
    mkClass "Address" (Some 0)
      [("country", string_attr); ("postcode", string_attr); ("state", string_attr);
       ("streetAddress", string_attr); ("suburb", string_attr)];
    mkClass "Customer" (Some 0)
      [("address", fragment (VClass 1) []);
       ("otherAddresses", fragmentArray (VClass 1) [])];
    mkClass "Person" (Some 0)
      [("name", attr (VStr "string") [("apiKey", VStr "title")])];
    mkClass "Animal" (Some 0) [("name", string_attr)];
    mkClass "Dog" (Some 4) [("legs", attr (VStr "number") [])];
    mkClass "Post" (Some 0)
      [("title", string_attr); ("tags", attr (VStr "array") []);
       ("author", fragment (VClass 1) [])];
    mkClass "Place" (Some 0)
      [("country", attr (VStr "enum") [("enumType", VRef 0)])];
    mkClass "Flag" (Some 0) [("on", attr (VStr "boolean") [])];
    mkClass "Reading" (Some 0)
      [("label", string_attr); ("value", attr (VStr "number") []);
       ("ok", attr (VStr "boolean") [])] ].

Definition Address_id : class_id := 1.
Definition Customer_id : class_id := 2.
Definition Person_id : class_id := 3.
Definition Animal_id : class_id := 4.
Definition Dog_id : class_id := 5.
Definition Post_id : class_id := 6.
Definition Place_id : class_id := 7.
Definition Flag_id : class_id := 8.
Definition Reading_id : class_id := 9.

(** Runs [m] and continues in the state it leaves; a failure stays. *)
Definition state_after {A} (m : M A) (s : state) : state :=
  match m s with Ret _ s' | Throw _ s' => s' | OutOfFuel => s end.

Definition result_of {A} (m : M A) (s : state) : option A :=
  match m s with Ret a _ => Some a | _ => None end.

(* ----------------------------------------------------------------- *)
(** *** Sample descriptors *)

(** A store of descriptors as [attr] makes them, with the producer and the
    array some of them refer to:
    0 a number field, 1 a string field whose declared default is the number
    7, 2 a producer of new empty arrays, 3 an array field with that producer
    as default, 4 an array, 5 a boolean field, 6 a producer of the text
    ["n/a"], 7 a string field with that producer as default. *)
Definition sample_defs : state :=
  mkState
    [ Obj CAttrFieldDef false [("key", VNull); ("type", VStr "number")];
      Obj CAttrFieldDef false
          [("key", VNull); ("type", VStr "string"); ("defaultValue", VNum (dec 7 0))];
      Fn (PFreshArray []);
      Obj CAttrFieldDef false
          [("key", VNull); ("type", VStr "array"); ("defaultValue", VRef 2)];
      Arr false [VStr "a"];
      Obj CAttrFieldDef false [("key", VNull); ("type", VStr "boolean")];
      Fn (PConst (VStr "n/a"));
      Obj CAttrFieldDef false
          [("key", VNull); ("type", VStr "string"); ("defaultValue", VRef 6)] ]
    [] [].

(** A customer with an address, and a post with a tag list and an author,
    built through the factory. *)
Definition customer_with_address (create : class_id -> value -> M value) : M value :=
  a <- create Address_id VUndefined ;;
  p <- new_object [("address", a)] ;;
  create Customer_id p.

Definition post_with_tags (create : class_id -> value -> M value) : M value :=
  a <- create Address_id VUndefined ;;
  t <- new_array [VStr "x"] ;;
  p <- new_object [("tags", t); ("author", a)] ;;
  create Post_id p.

(** A reading with a label, a value and a flag, built through the factory. *)
Definition reading_five (create : class_id -> value -> M value) : M value :=
  p <- new_object [("label", VStr "t"); ("value", VNum (dec 5 0)); ("ok", VBool true)] ;;
  create Reading_id p.

(** A record type whose array field declares an array literal, the array at
    0 of [basket_state], as its default. *)
Definition basket_classes : list class_decl :=
  [ SerializableModel_decl;
    mkClass "Basket" (Some 0) [("items", attr (VStr "array") [("defaultValue", VRef 0)])] ].

Definition Basket_id : class_id := 1.

Definition basket_state : state := mkState [Arr false []] [] [].

(** A customer whose address is a text, not a record. *)
Definition customer_with_text_address (create : class_id -> value -> M value) : M value :=
  p <- new_object [("address", VStr "abc")] ;;
  create Customer_id p.

(** A record type with a field that is left out on write and a field whose
    wire key is overridden, and an instance of it. *)
Definition account_classes : list class_decl :=
  [ SerializableModel_decl;
    mkClass "Account" (Some 0)
      [("name", string_attr);
       ("secret", attr (VStr "string") [("serialize", VBool false)]);
       ("nick", attr (VStr "string") [("apiKey", VStr "nick_name")])] ].

Definition Account_id : class_id := 1.

Definition account_of_ann (create : class_id -> value -> M value) : M value :=
  p <- new_object [("name", VStr "Ann"); ("secret", VStr "s3"); ("nick", VStr "an")] ;;
  create Account_id p.

(** A record type all of whose fields are scalars, one of them an array,
    and an instance of it. *)
Definition album_classes : list class_decl :=
  [ SerializableModel_decl;
    mkClass "Album" (Some 0) [("title", string_attr); ("tags", attr (VStr "array") [])] ].

Definition Album_id : class_id := 1.

Definition album_with_tags (create : class_id -> value -> M value) : M value :=
  t <- new_array [VStr "x"] ;;
  p <- new_object [("title", VStr "t"); ("tags", t)] ;;
  create Album_id p.
Section Engine.

(** The program: its classes, by index. *)
Variable classes : list class_decl.

(** The helpers of [utils/helpers], which is not among the sources: the two
    key conversions behind [camelizeObject] and [classifyObject], and the
    predicates [isEmpty] and [isNone]. *)
Variable camelize classify : string -> string.
Variable isEmpty isNone : heap_t -> value -> bool.

(** Whether the host has extended [Array.prototype] with a [contains]
    method; ECMAScript itself defines none. *)
Variable array_contains : bool.

Definition class_name (c : class_id) : string :=
  match nth_error classes c with Some d => cname d | None => EmptyString end.

Definition ctor_name (c : ctor) : string :=
  match c with
  | CObject => "Object"
  | CAttrFieldDef => "AttrFieldDef"
  | CFragmentFieldDef => "FragmentFieldDef"
  | CFragmentArrayFieldDef => "FragmentArrayFieldDef"
  | CModel cl => class_name cl
  | CEnum n => n
  end.

(** [ToString].  A record instance answers with the [toString] of the
    source, [<Name:id-or-name>]; the text of a function is not modelled and
    reads [function]; an own property that shadows [toString] is not taken
    into account.  [None]: the value nests deeper than the fuel. *)
Fixpoint to_string (fuel : nat) (h : heap_t) (v : value) : option string :=
  match fuel with
  | O => None
  | S f =>
      match v with
      | VUndefined => Some "undefined"
      | VNull => Some "null"
      | VBool b => Some (if b then "true" else "false")
      | VNum n => Some (num_to_string n)
      | VStr s => Some s
      | VClass _ | VMethod _ => Some "function"
      | VRef l =>
          match nth_error h l with
          | Some (Arr _ es) =>
              match (fix go (l : list value) : option (list string) :=
                       match l with
                       | [] => Some []
                       | e :: r =>
                           match (if is_nullish e then Some EmptyString else to_string f h e),
                                 go r with
                           | Some s, Some ss => Some (s :: ss)
                           | _, _ => None
                           end
                       end) es with
              | Some ss => Some (join "," ss)
              | None => None
              end
          | Some (Obj (CModel c) _ ps) =>
              let id := prop ps "id" in
              match to_string f h (if truthy id then id else prop ps "name") with
              | Some s => Some (cat ["<"; class_name c; ":"; s; ">"])
              | None => None
              end
          | Some (Fn _) => Some "function"
          | _ => Some "[object Object]"
          end
      end
  end.

Definition toString (v : value) : M string :=
  h <- get_heap ;;
  match to_string (S (List.length h)) h v with
  | Some s => ret s
  | None => out_of_fuel
  end.

(** [isNaN(v)]: whether [ToNumber v] is [NaN]. *)
Definition isNaN (v : value) : M bool :=
  match v with
  | VUndefined => ret true
  | VNull | VBool _ => ret false
  | VNum n => ret (num_is_nan n)
  | VStr s => ret (isNaN_text s)
  | _ => s <- toString v ;; ret (isNaN_text s)
  end.

Definition parseFloat (v : value) : M number :=
  s <- toString v ;; ret (parseFloat_text s).

(** Modelled from the spec: [camelizeObject] and [classifyObject] of
    [utils/helpers] are not among the sources.  Each renames the keys of
    plain objects, through objects and sequences, leaves record instances
    (and whatever else is not plain data) untouched, and never writes to its
    input: plain objects and arrays are copied. *)
Fixpoint rename_keys (g : string -> string) (fuel : nat) (v : value) : M value :=
  match fuel with
  | O => out_of_fuel
  | S f =>
      h <- get_heap ;;
      match v with
      | VRef l =>
          match nth_error h l with
          | Some (Obj CObject _ ps) =>
              qs <- foldM (fun acc kv =>
                             x <- rename_keys g f (snd kv) ;;
                             ret (alist_set acc (g (fst kv)) x)) ps [] ;;
              new_object qs
          | Some (Arr _ es) => vs <- mapM (rename_keys g f) es ;; new_array vs
          | _ => ret v
          end
      | _ => ret v
      end
  end.

Definition camelizeObject (v : value) : M value :=
  h <- get_heap ;; rename_keys camelize (S (List.length h)) v.

Definition classifyObject (v : value) : M value :=
  h <- get_heap ;; rename_keys classify (S (List.length h)) v.

(** [JSON.parse(JSON.stringify(v))], the text in between left out. *)
Definition json_copy (v : value) : M value :=
  h <- get_heap ;;
  match stringify_tree (S (List.length h)) h v with
  | None => throw (TypeError "Converting circular structure to JSON")
  | Some None => throw SyntaxError
  | Some (Some j) => alloc_json j
  end.

(* ----------------------------------------------------------------- *)
(** *** Descriptors and schema derivation *)

(** [new AttrFieldDef(type, options)] and its two siblings. *)
Definition new_FieldDef (c : ctor) (type : value) (options : alist) : M value :=
  d <- alloc (Obj c false (setProperties [("key", VNull); ("type", type)] options)) ;;
  ret (VRef d).

Definition init_field (fi : field_init) : M value :=
  match fi with
  | attr t o => new_FieldDef CAttrFieldDef t o
  | fragment t o => new_FieldDef CFragmentFieldDef t o
  | fragmentArray t o => new_FieldDef CFragmentArrayFieldDef t o
  | plain v => ret v
  end.

(** The class, its parent, its parent's parent, ... *)
Fixpoint class_chain (fuel : nat) (c : class_id) : list class_id :=
  match fuel with
  | O => []
  | S f =>
      match nth_error classes c with
      | None => []
      | Some d => c :: match parent d with Some p => class_chain f p | None => [] end
      end
  end.

Definition ancestors (c : class_id) : list class_id :=
  class_chain (List.length classes) c.

Definition all_fields (c : class_id) : list (string * field_init) :=
  flat_map (fun a => match nth_error classes a with Some d => cfields d | None => [] end)
           (rev (ancestors c)).

(** [new this(...)]: the field initialisers run from the root class down. *)
Definition instantiate (c : class_id) : M loc :=
  ps <- foldM (fun acc kf => v <- init_field (snd kf) ;; ret (alist_set acc (fst kf) v))
              (all_fields c) [] ;;
  alloc (Obj (CModel c) false ps).

Fixpoint assoc_class (l : list (class_id * value)) (c : class_id) : option value :=
  match l with
  | [] => None
  | (c', v) :: r => if Nat.eqb c' c then Some v else assoc_class r c
  end.

(** [this._fieldDefs] on a class: an own static property, or else the one
    of the nearest superclass that has it (a class inherits the static
    properties of the class it extends). *)
Definition static_fieldDefs (s : state) (c : class_id) : value :=
  (fix look (l : list class_id) : value :=
     match l with
     | [] => VUndefined
     | a :: r => match assoc_class (statics s) a with Some v => v | None => look r end
     end) (ancestors c).

Definition set_static_fieldDefs (c : class_id) (v : value) : M unit :=
  fun s => Ret tt (mkState (heap s) ((c, v) :: statics s) (console s)).

Definition is_FieldDef (h : heap_t) (v : value) : bool :=
  match ctor_of h v with
  | Some CAttrFieldDef | Some CFragmentFieldDef | Some CFragmentArrayFieldDef => true
  | _ => false
  end.

Definition getFieldDefs (c : class_id) : M value :=
  cached <- (fun s => Ret (static_fieldDefs s c) s) ;;
  if truthy cached then ret cached
  else
    proto <- instantiate c ;;
    h <- get_heap ;;
    fieldDefs <- foldM (fun acc kd =>
                          let '(key, def) := kd in
                          h <- get_heap ;;
                          if is_FieldDef h def then
                            match def with
                            | VRef d => set_prop d "key" (VStr key)
                            | _ => ret tt
                            end ;;;
                            ret (alist_set acc key def)
                          else ret acc)
                       (own_props h (VRef proto)) [] ;;
    fd <- new_object fieldDefs ;;
    set_static_fieldDefs c fd ;;;
    ret fd.

Definition getFieldNames (c : class_id) : M value :=
  fd <- getFieldDefs c ;;
  h <- get_heap ;;
  new_array (map (fun kv => VStr (fst kv)) (own_props h fd)).

(* ----------------------------------------------------------------- *)
(** *** Coercion *)

(** [Enum.hasValue]: [!!this.values.contains(val)]. *)
Definition hasValue (this val : value) : M value :=
  h <- get_heap ;;
  let vals := map snd (own_props h this) in
  values <- new_array vals ;;
  if array_contains then ret (VBool (existsb (strict_equal val) vals))
  else throw (TypeError "this.values.contains is not a function").

Definition kind_is (type : value) (k : string) : bool := strict_equal type (VStr k).

(** The second [switch] of [getValueOrDefault] and the [return val] after it. *)
Definition coerce (fieldDef val : value) : M value :=
  type <- get fieldDef "type" ;;
  h <- get_heap ;;
  if kind_is type "string" then
    if isNone h val then ret (VStr EmptyString)
    else s <- toString val ;; ret (VStr s)
  else if kind_is type "number" then
    nan <- isNaN val ;;
    if nan then ret (VNum (Fin 0 0)) else n <- parseFloat val ;; ret (VNum n)
  else if kind_is type "boolean" then
    s <- toString val ;;
    match JSON_parse_text s with
    | Some j => ret (VBool (json_truthy j))
    | None => throw SyntaxError
    end
  else if kind_is type "array" then
    if is_array h val then ret val else new_array []
  else if kind_is type "enum" then
    enumType <- get fieldDef "enumType" ;;
    hv <- get enumType "hasValue" ;;
    known <- (if strict_equal hv (VMethod "hasValue") then hasValue enumType val
              else call hv) ;;
    h' <- get_heap ;;
    s <- toString val ;;
    let name := match ctor_of h' enumType with Some c => ctor_name c | None => EmptyString end in
    assert known (cat ["Unknown "; name; " enum value: "; s]) ;;;
    ret val
  else ret val.

Definition getValueOrDefault (fieldDef val : value) : M value :=
  h <- get_heap ;;
  if isEmpty h val then
    dv <- get fieldDef "defaultValue" ;;
    defaultVal <- (if is_function h dv then call dv else ret dv) ;;
    if negb (is_undefined defaultVal) then ret defaultVal
    else
      type <- get fieldDef "type" ;;
      if kind_is type "number" then ret VNull
      else if kind_is type "boolean" then ret (VBool false)
      else if kind_is type "string" then ret (VStr EmptyString)
      else if kind_is type "enum" then ret VNull
      else if kind_is type "array" then new_array []
      else coerce fieldDef val
  else if is_function h val then call val
  else coerce fieldDef val.

(* ----------------------------------------------------------------- *)
(** *** The factory *)

(** The body of the [for-in] loop of [create]. *)
Definition create_field (initialVals : alist) (kd : string * value) : M alist :=
  let '(key, def) := kd in
  let val := prop initialVals key in
  val <- (if is_undefined val then get def "defaultValue" else ret val) ;;
  h <- get_heap ;;
  match ctor_of h def with
  | Some CAttrFieldDef | Some CFragmentFieldDef =>
      v <- getValueOrDefault def val ;; ret (alist_set initialVals key v)
  | Some CFragmentArrayFieldDef =>
      v <- (if truthy val then ret val else new_array []) ;;
      ret (alist_set initialVals key v)
  | _ => ret initialVals
  end.

Definition object_assign (target : loc) (source : alist) : M unit :=
  foldM (fun _ kv => set_prop target (fst kv) (snd kv)) source tt.

Definition create (c : class_id) (props : value) : M value :=
  h <- get_heap ;;
  let initialVals := if is_object_type h props then assign [] (own_props h props) else [] in
  fieldDefs <- getFieldDefs c ;;
  h <- get_heap ;;
  initialVals <- foldM create_field (own_props h fieldDefs) initialVals ;;
  instance <- instantiate c ;;
  object_assign instance initialVals ;;;
  ret (VRef instance).

(* ----------------------------------------------------------------- *)
(** *** Marshaling *)

(** [(def && def.apiKey) || key], as a property key. *)
Definition wire_key (def : value) (key : string) : M string :=
  a <- (if truthy def then get def "apiKey" else ret def) ;;
  toString (if truthy a then a else VStr key).

(** [def.type.deserialize(val)] *)
Definition type_deserialize (rec : class_id -> value -> M value) (def val : value)
  : M value :=
  t <- get def "type" ;;
  match t with
  | VClass c => rec c val
  | VUndefined | VNull => throw (TypeError "Cannot read properties of undefined")
  | _ => throw (TypeError "def.type.deserialize is not a function")
  end.

(** The reducer of [deserialize]: one schema field read from the normalized
    tree into the parameter object. *)
Definition deserialize_field (rec : class_id -> value -> M value)
  (camelizedJson : value) (obj : alist) (kd : string * value) : M alist :=
  let '(key, def) := kd in
  apiKey <- wire_key def key ;;
  val <- get camelizedJson apiKey ;;
  h <- get_heap ;;
  match ctor_of h def with
  | Some CAttrFieldDef =>
      v <- getValueOrDefault def val ;; ret (alist_set obj key v)
  | Some CFragmentFieldDef =>
      v <- type_deserialize rec def val ;; ret (alist_set obj key v)
  | Some CFragmentArrayFieldDef =>
      match array_elems h val with
      | Some vs =>
          ws <- mapM (type_deserialize rec def) vs ;;
          a <- new_array ws ;;
          ret (alist_set obj key a)
      | None => a <- new_array [] ;; ret (alist_set obj key a)
      end
  | _ => ret obj
  end.

(** What [deserialize] does once the input is normalized. *)
Definition deserialize_normalized (rec : class_id -> value -> M value)
  (c : class_id) (camelizedJson : value) : M value :=
  if is_nullish camelizedJson then ret VNull
  else
    fieldDefs <- getFieldDefs c ;;
    h <- get_heap ;;
    modelParams <- foldM (deserialize_field rec camelizedJson) (own_props h fieldDefs) [] ;;
    params <- new_object modelParams ;;
    create c params.

Fixpoint deserialize (fuel : nat) (c : class_id) (json : value) : M value :=
  match fuel with
  | O => out_of_fuel
  | S f =>
      json <- (match json with VStr s => JSON_parse s | _ => ret json end) ;;
      freeze json ;;;
      camelizedJson <- camelizeObject json ;;
      deserialize_normalized (deserialize f) c camelizedJson
  end.

(** [this.constructor], as far as it is a record type. *)
Definition constructor_of (this : value) : M class_id :=
  k <- get this "constructor" ;;
  match k with
  | VClass c => ret c
  | _ => throw (TypeError "this.constructor.getFieldDefs is not a function")
  end.

(** A call [v.m(...)] of a member found under the name [m]: the method of
    the prototype runs [rec]; an own property is called as it is. *)
Definition call_member (name : string) (rec : value -> M value) (v m : value) : M value :=
  if strict_equal m (VMethod name) then rec v else call m.

(** The serialized form of one element of a fragment array. *)
Definition serialize_element (rec : value -> M value) (v : value) : M value :=
  if truthy v then
    m <- get v "serialize" ;;
    if truthy m then call_member "serialize" rec v m else ret VNull
  else ret VNull.

(** The reducer of [serialize]. *)
Definition serialize_field (rec : value -> M value) (this : value)
  (obj : alist) (kd : string * value) : M alist :=
  let '(key, def) := kd in
  apiKey <- wire_key def key ;;
  ser <- get def "serialize" ;;
  if strict_equal ser (VBool false) then ret obj
  else
    val <- get this key ;;
    h <- get_heap ;;
    val <- match ctor_of h def with
           | Some CFragmentFieldDef =>
               if truthy val then
                 m <- get val "serialize" ;;
                 if truthy m then call_member "serialize" rec val m
                 else
                   t <- get def "type" ;;
                   ts <- (if truthy t then get t "serialize" else ret t) ;;
                   if truthy ts then call ts
                   else
                     st <- toString this ;;
                     sv <- toString val ;;
                     warn (cat ["Unable to to serialize "; key; " in "; st;
                                " with value "; sv]) ;;;
                     ret VNull
               else ret VNull
           | Some CFragmentArrayFieldDef =>
               val <- (match array_elems h val with
                       | Some vs => ws <- mapM (serialize_element rec) vs ;; new_array ws
                       | None => ret val
                       end) ;;
               if truthy val then ret val else new_array []
           | _ => ret val
           end ;;
    ret (alist_set obj apiKey val).

Fixpoint serialize (fuel : nat) (this options : value) : M value :=
  match fuel with
  | O => out_of_fuel
  | S f =>
      h <- get_heap ;;
      options <- (if is_object_type h options then ret options else new_object []) ;;
      c <- constructor_of this ;;
      fieldDefs <- getFieldDefs c ;;
      h <- get_heap ;;
      result <- foldM (serialize_field (fun v => serialize f v options) this)
                      (own_props h fieldDefs) [] ;;
      r <- new_object result ;;
      classifyObject r
  end.

(** [val && val.clone ? val.clone() : JSON.parse(JSON.stringify(val))] *)
Definition clone_value (rec : value -> M value) (val : value) : M value :=
  m <- (if truthy val then get val "clone" else ret val) ;;
  if truthy m then call_member "clone" rec val m else json_copy val.

(** The reducer of [clone]. *)
Definition clone_field (rec : value -> M value) (this : value)
  (obj : alist) (kd : string * value) : M alist :=
  let '(key, def) := kd in
  h <- get_heap ;;
  result <- match ctor_of h def with
            | Some CAttrFieldDef => get this key
            | Some CFragmentFieldDef => val <- get this key ;; clone_value rec val
            | Some CFragmentArrayFieldDef =>
                arr <- get this key ;;
                h <- get_heap ;;
                match array_elems h arr with
                | Some vs => ws <- mapM (clone_value rec) vs ;; new_array ws
                | None => json_copy arr
                end
            | _ => ret VUndefined
            end ;;
  ret (alist_set obj key result).

Fixpoint clone (fuel : nat) (this : value) : M value :=
  match fuel with
  | O => out_of_fuel
  | S f =>
      c <- constructor_of this ;;
      fieldDefs <- getFieldDefs c ;;
      h <- get_heap ;;
      json <- foldM (clone_field (clone f) this) (own_props h fieldDefs) [] ;;
      j <- new_object json ;;
      create c j
  end.

(** [fields.every(key => this[key] === toModel[key])] *)
Fixpoint every_field_equal (this toModel : value) (fields : list value) : M value :=
  match fields with
  | [] => ret (VBool true)
  | key :: r =>
      k <- toString key ;;
      a <- get this k ;;
      b <- get toModel k ;;
      if strict_equal a b then every_field_equal this toModel r else ret (VBool false)
  end.

(** [isEqual]: the field names are asked of [this], the instance. *)
Definition isEqual (this toModel : value) : M value :=
  f <- get this "getFieldNames" ;;
  fields <- call f ;;
  h <- get_heap ;;
  match array_elems h fields with
  | Some ks => every_field_equal this toModel ks
  | None => throw (TypeError "fields.every is not a function")
  end.


(* ================================================================= *)
(** ** Specifications: outcomes, frames and trees *)

(** What holds of an outcome: [Q] of a result, [E] of a failure.  Running
    out of fuel says nothing. *)
Definition post {A} (o : outcome A) (Q : A -> state -> Prop) (E : state -> Prop) : Prop :=
  match o with
  | Ret a s' => Q a s'
  | Throw _ s' => E s'
  | OutOfFuel => True
  end.

Definition triple {A} (P : state -> Prop) (m : M A)
  (Q : A -> state -> Prop) (E : state -> Prop) : Prop :=
  forall s, P s -> post (m s) Q E.

(** [m] moves every state along [R], whether it returns or fails. *)
Definition resp {A} (R : state -> state -> Prop) (m : M A) : Prop :=
  forall s, post (m s) (fun _ s' => R s s') (fun s' => R s s').

Definition is_def_ctor (c : ctor) : bool :=
  match c with
  | CAttrFieldDef | CFragmentFieldDef | CFragmentArrayFieldDef => true
  | _ => false
  end.

Definition is_def_cell (c : cell) : bool :=
  match c with Obj ct _ _ => is_def_ctor ct | _ => false end.

Definition is_fn_cell (c : cell) : bool :=
  match c with Fn _ => true | _ => false end.

(** A plain object or an array: what JSON data is made of. *)
Definition is_plain_cell (c : cell) : bool :=
  match c with Obj CObject _ _ | Arr _ _ => true | _ => false end.

(** How a cell that exists may differ after a run.  A descriptor may have
    its [key] written; any other cell stays as it is, or, where [fz] allows
    it, becomes frozen.  What is frozen stays as it is. *)
Definition evolves (fz : bool) (c c' : cell) : Prop :=
  match c with
  | Obj ct fr ps =>
      if is_def_ctor ct then
        exists fr' ps',
          c' = Obj ct fr' ps'
          /\ (fr = true -> c' = c)
          /\ (fz = false -> fr' = fr)
          /\ (forall k, k <> "key" -> alist_get ps' k = alist_get ps k)
      else c' = c \/ (fz = true /\ c' = Obj ct true ps)
  | Arr fr es => c' = c \/ (fz = true /\ c' = Arr true es)
  | Fn b => c' = c
  end.

(** The frame every operation of the engine keeps to: the store only grows,
    cells evolve as above, no function object is created, and a class of
    the program keeps its own cached schema. *)
Definition step_rel (fz : bool) (s s' : state) : Prop :=
  (List.length (heap s) <= List.length (heap s'))%nat
  /\ (forall l c, nth_error (heap s) l = Some c ->
                  exists c', nth_error (heap s') l = Some c' /\ evolves fz c c')
  /\ (forall l b, nth_error (heap s') l = Some (Fn b) -> nth_error (heap s) l = Some (Fn b))
  /\ (forall c v, nth_error classes c <> None ->
                  assoc_class (statics s) c = Some v -> truthy v = true ->
                  assoc_class (statics s') c = Some v).

(** The store has only been appended to, and not by function objects. *)
Definition extends (s s' : state) : Prop :=
  statics s' = statics s
  /\ exists ext, heap s' = heap s ++ ext /\ Forall (fun c => is_fn_cell c = false) ext.

Definition same_statics (s s' : state) : Prop := statics s' = statics s.

(** [tree d n h v]: [v] is plain data of depth at most [d] (primitives,
    plain objects and arrays), all of whose objects sit at [n] or above. *)
Fixpoint tree (d : nat) (n : nat) (h : heap_t) (v : value) {struct d} : Prop :=
  match v with
  | VRef l =>
      match d with
      | O => False
      | S d' =>
          (n <= l)%nat /\
          match nth_error h l with
          | Some (Obj CObject _ ps) => Forall (fun kv => tree d' n h (snd kv)) ps
          | Some (Arr _ es) => Forall (tree d' n h) es
          | _ => False
          end
      end
  | VClass _ | VMethod _ => False
  | _ => True
  end.

(** A plain-data tree: what a wire input is. *)
Definition pojo (h : heap_t) (v : value) : Prop := exists d, tree d 0 h v.

(** The scalar kinds the coercion engine knows. *)
Definition scalar_kinds : list string := ["number"; "boolean"; "string"; "array"; "enum"].

(** No producer in the store returns [undefined]. *)
Definition producers_defined (h : heap_t) : Prop :=
  forall l v, nth_error h l = Some (Fn (PConst v)) -> v <> VUndefined.

(** A descriptor of a field that the factory always fills: a fragment
    array, or a scalar of a known kind. *)
Definition fills (h : heap_t) (def : value) : Prop :=
  ctor_of h def = Some CFragmentArrayFieldDef
  \/ (ctor_of h def = Some CAttrFieldDef
      /\ exists k, In k scalar_kinds /\ member h def "type" = Some (VStr k)).

(** Every cell that is not a descriptor, other than the one [o] refers to,
    is in [s'] what it was in [s]. *)
Definition kept_except (o : value) (s s' : state) : Prop :=
  forall l c, nth_error (heap s) l = Some c -> is_def_cell c = false ->
              VRef l <> o -> nth_error (heap s') l = Some c.

(** The nesting depth of a JSON value. *)
Fixpoint jdepth (j : json) : nat :=
  match j with
  | JArr xs => S (fold_right (fun x a => Nat.max (jdepth x) a) 0 xs)
  | JObj ps => S (fold_right (fun kx a => Nat.max (jdepth (snd kx)) a) 0 ps)
  | _ => 0
  end.

(** The invariant of a run of [deserialize] entered in [s0] with [json]:
    the cells of [s0] are kept (the input apart), and the values [ws] read
    from the normalized copy are trees of cells that [s0] did not have. *)
Definition deser_inv (s0 : state) (json : value) (d : nat) (ws : list value)
  (s : state) : Prop :=
  kept_except json s0 s
  /\ step_rel true s0 s
  /\ Forall (tree d (List.length (heap s0)) (heap s)) ws.

(** What the recursive call has to guarantee. *)
Definition nested_ok (rec : class_id -> value -> M value) : Prop :=
  forall c v s,
    pojo (heap s) v ->
    post (rec c v s)
         (fun _ s' => kept_except v s s' /\ step_rel true s s')
         (fun s' => kept_except v s s' /\ step_rel true s s').

(** What the caller finds once [deserialize] has been called on the object
    [o], whose properties were [ps], in the state [s]: [o] is the same
    object, frozen, it refuses assignments and gives up no property; every
    other cell that is not a descriptor is as it was, and so no more frozen
    than before. *)
Definition input_frozen_only (s : state) (o : loc) (ps : alist) (s' : state) : Prop :=
  nth_error (heap s') o = Some (Obj CObject true ps)
  /\ (forall k v, set_prop o k v s'
                  = Throw (TypeError "Cannot assign to read only property") s')
  /\ (forall k, alist_get ps k <> None ->
                delete_prop o k s' = Throw (TypeError "Cannot delete property") s')
  /\ (forall l cl, l <> o -> nth_error (heap s) l = Some cl ->
                   is_def_cell cl = false ->
                   nth_error (heap s') l = Some cl
                   /\ is_frozen (heap s') l = is_frozen (heap s) l).

(** [m], run in [s], ends in [s']: it returns or fails there (it does not
    run out of fuel). *)
Definition ends_in {A} (m : M A) (s s' : state) : Prop :=
  (exists a, m s = Ret a s') \/ (exists e, m s = Throw e s').

(** The object [o], whose properties were [ps], is frozen in [s']: it
    refuses assignments, to a property it has or to a new one, and gives up
    no property. *)
Definition frozen_input (o : loc) (ps : alist) (s' : state) : Prop :=
  nth_error (heap s') o = Some (Obj CObject true ps)
  /\ (forall k v, set_prop o k v s'
                  = Throw (TypeError "Cannot assign to read only property") s')
  /\ (forall k, alist_get ps k <> None ->
                delete_prop o k s' = Throw (TypeError "Cannot delete property") s').

(* ----------------------------------------------------------------- *)
(** *** Further specifications *)

(** The wire key [(def && def.apiKey) || key] of a field whose override, if
    any, is not an object: a text that does not depend on the store. *)
Definition wire_name (apiKey : value) (key : string) : option string :=
  match apiKey with
  | VRef _ => None
  | _ => to_string 1 [] (if truthy apiKey then apiKey else VStr key)
  end.

(** A property read that cannot fail: the target is an object. *)
Definition read (h : heap_t) (v : value) (k : string) : value :=
  match member h v k with Some x => x | None => VUndefined end.

(** What [utils/helpers] is specified to do on primitive values: [isEmpty]
    holds of [undefined] and [null], and of no boolean, number or non-empty
    string; [isNone] holds of no non-empty string. *)
Definition helpers_as_specified : Prop :=
  (forall h, isEmpty h VUndefined = true)
  /\ (forall h, isEmpty h VNull = true)
  /\ (forall h b, isEmpty h (VBool b) = false)
  /\ (forall h n, isEmpty h (VNum n) = false)
  /\ (forall h t, t <> EmptyString -> isEmpty h (VStr t) = false)
  /\ (forall h t, t <> EmptyString -> isNone h (VStr t) = false).

(** The state [s] with the cells [ext] appended to its store. *)
Definition grow (s : state) (ext : list cell) : state :=
  mkState (heap s ++ ext) (statics s) (console s).

(** A record instance of class [c] at [l]. *)
Definition is_instance (h : heap_t) (l : loc) (c : class_id) : Prop :=
  exists fr ps, nth_error h l = Some (Obj (CModel c) fr ps).

(** A record of class [c] that takes [constructor] and [clone] from its
    prototype. *)
Definition plain_record (h : heap_t) (v : value) (c : class_id) : Prop :=
  exists l fr ps,
    v = VRef l /\ nth_error h l = Some (Obj (CModel c) fr ps)
    /\ alist_get ps "constructor" = None /\ alist_get ps "clone" = None.

(** [w] is, in [s'], an unfrozen record that [s] did not have, of the class
    of the record [e] of [s]. *)
Definition copy_of_record (s s' : state) (e w : value) : Prop :=
  exists ce l', plain_record (heap s) e ce
                /\ w = VRef l' /\ (List.length (heap s) <= l')%nat
                /\ exists ps', nth_error (heap s') l' = Some (Obj (CModel ce) false ps').

(** A descriptor of a scalar field without options that matter: no wire-key
    override, included on write, no declared default. *)
Definition plain_scalar (h : heap_t) (def : value) (kind : string) : Prop :=
  ctor_of h def = Some CAttrFieldDef
  /\ member h def "type" = Some (VStr kind)
  /\ member h def "apiKey" = Some VUndefined
  /\ member h def "serialize" = Some VUndefined
  /\ member h def "defaultValue" = Some VUndefined.

(** A value that its kind's coercion hands back as it is. *)
Definition stable_value (kind : string) (v : value) : Prop :=
  (kind = "string" /\ exists t, v = VStr t)
  \/ (kind = "boolean" /\ exists b, v = VBool b)
  \/ (kind = "number"
      /\ (v = VNull
          \/ exists n, v = VNum n /\ num_is_nan n = false
                       /\ parseFloat_text (num_to_string n) = n
                       /\ number_eqb n n = true)).

(** Every cell of [s] that is not a descriptor is in [s'] what it was:
    same properties or elements, and no more frozen than before. *)
Definition untouched (s s' : state) : Prop :=
  forall l cl, nth_error (heap s) l = Some cl -> is_def_cell cl = false ->
               nth_error (heap s') l = Some cl.

(** The class [c] holds its own cached schema: the plain object at [f0],
    whose entries are [schema]. *)
Definition schema_cached (s : state) (c : class_id) (f0 : loc) (schema : alist) : Prop :=
  nth_error classes c <> None
  /\ assoc_class (statics s) c = Some (VRef f0)
  /\ (exists fr, nth_error (heap s) f0 = Some (Obj CObject fr schema))
  /\ NoDup (map fst schema).

(** The entries of [schema] with their names renamed by [g] and the values
    [vals] gives them: how a flat record travels over the wire. *)
Definition renamed (g : string -> string) (vals : string -> value) (schema : alist) : alist :=
  map (fun kd => (g (fst kd), vals (fst kd))) schema.

(** An instance of [c] at [i] all of whose schema fields are plain scalars
    holding a value that is stable for its kind. *)
Definition scalar_instance (s : state) (i : loc) (c : class_id) (psi schema : alist) : Prop :=
  (exists fri, nth_error (heap s) i = Some (Obj (CModel c) fri psi))
  /\ alist_get psi "constructor" = None
  /\ forall key def, In (key, def) schema ->
       exists kind v, plain_scalar (heap s) def kind
                      /\ alist_get psi key = Some v /\ stable_value kind v.

(** The class [c] holds its cached schema and the record at [i] is a flat
    instance of it. *)
Definition flat_record (c : class_id) (i f0 : loc) (psi schema : alist) (t : state) : Prop :=
  schema_cached t c f0 schema /\ scalar_instance t i c psi schema.

(** What the field initialisers of a class lay out in the store: the
    descriptor an initialiser makes, as made and once [getFieldDefs] has
    written its [key]; the properties of the instance under construction;
    and the entries of the schema, with the descriptors at [base] onwards. *)
Definition init_ctor (fi : field_init) : ctor :=
  match fi with
  | attr _ _ => CAttrFieldDef
  | fragment _ _ => CFragmentFieldDef
  | fragmentArray _ _ => CFragmentArrayFieldDef
  | plain _ => CObject
  end.

Definition init_props (fi : field_init) : alist :=
  match fi with
  | attr t o | fragment t o | fragmentArray t o =>
      setProperties [("key", VNull); ("type", t)] o
  | plain _ => []
  end.

Definition fresh_cell (fi : field_init) : cell := Obj (init_ctor fi) false (init_props fi).

Definition keyed_cell (key : string) (fi : field_init) : cell :=
  Obj (init_ctor fi) false (alist_set (init_props fi) "key" (VStr key)).

Definition is_descriptor_init (fi : field_init) : bool :=
  match fi with plain _ => false | _ => true end.

Fixpoint proto_props (base : nat) (fs : list (string * field_init)) : alist :=
  match fs with
  | [] => []
  | (k, plain v) :: r => (k, v) :: proto_props base r
  | (k, _) :: r => (k, VRef base) :: proto_props (S base) r
  end.

Fixpoint schema_of (base : nat) (fs : list (string * field_init)) : alist :=
  match fs with
  | [] => []
  | (k, plain v) :: r => schema_of base r
  | (k, _) :: r => (k, VRef base) :: schema_of (S base) r
  end.

Definition descriptor_inits (fs : list (string * field_init)) : list (string * field_init) :=
  filter (fun kf => is_descriptor_init (snd kf)) fs.

(** No field is initialised with a reference to an object that exists. *)
Definition plain_inits_are_primitive (fs : list (string * field_init)) : Prop :=
  forall k v, In (k, plain v) fs -> forall l, v <> VRef l.

(* ================================================================= *)
(** ** Reasoning rules *)

(** Running a computation: basic equations. *)

Lemma bind_Ret {A B} (m : M A) (k : A -> M B) s a s' :
  m s = Ret a s' -> bind m k s = k a s'.
Proof. unfold bind; intros ->; reflexivity. Qed.

Lemma bind_Throw {A B} (m : M A) (k : A -> M B) s e s' :
  m s = Throw e s' -> bind m k s = Throw e s'.
Proof. unfold bind; intros ->; reflexivity. Qed.

Lemma get_Ret v k s x :
  member (heap s) v k = Some x -> get v k s = Ret x s.
Proof. unfold get, bind, get_heap; intros ->; reflexivity. Qed.

Lemma toString_Ret v s txt :
  to_string (S (List.length (heap s))) (heap s) v = Some txt -> toString v s = Ret txt s.
Proof. unfold toString, bind, get_heap; intros ->; reflexivity. Qed.

Lemma toString_VStr k s : toString (VStr k) s = Ret k s.
Proof. reflexivity. Qed.

Lemma toString_VBool b s : toString (VBool b) s = Ret (if b then "true" else "false") s.
Proof. reflexivity. Qed.

Lemma getFieldDefs_cached c s :
  truthy (static_fieldDefs s c) = true ->
  getFieldDefs c s = Ret (static_fieldDefs s c) s.
Proof. unfold getFieldDefs, bind; intros ->; reflexivity. Qed.

Lemma post_bind {A B} (m : M A) (k : A -> M B) s
      (Q1 : A -> state -> Prop) (Q : B -> state -> Prop) (E : state -> Prop) :
  post (m s) Q1 E ->
  (forall a s1, Q1 a s1 -> post (k a s1) Q E) ->
  post (bind m k s) Q E.
Proof.
  unfold bind. destruct (m s); simpl; intros H1 H2; auto.
Qed.

Lemma post_bindE {A B} (m : M A) (k : A -> M B) s
      (Q1 : A -> state -> Prop) (E1 : state -> Prop)
      (Q : B -> state -> Prop) (E : state -> Prop) :
  post (m s) Q1 E1 ->
  (forall a s1, Q1 a s1 -> post (k a s1) Q E) ->
  (forall s1, E1 s1 -> E s1) ->
  post (bind m k s) Q E.
Proof.
  unfold bind. destruct (m s); simpl; intros H1 H2 H3; auto.
Qed.

Lemma post_weaken {A} (o : outcome A) (Q Q' : A -> state -> Prop) (E E' : state -> Prop) :
  post o Q E -> (forall a s, Q a s -> Q' a s) -> (forall s, E s -> E' s) -> post o Q' E'.
Proof. destruct o; simpl; auto. Qed.

Lemma post_and {A} (o : outcome A) (Q1 Q2 : A -> state -> Prop) (E1 E2 : state -> Prop) :
  post o Q1 E1 -> post o Q2 E2 ->
  post o (fun a s => Q1 a s /\ Q2 a s) (fun s => E1 s /\ E2 s).
Proof. destruct o; simpl; auto. Qed.

Lemma triple_bind {A B} P (m : M A) (k : A -> M B) Q1 Q E :
  triple P m Q1 E -> (forall a, triple (Q1 a) (k a) Q E) -> triple P (bind m k) Q E.
Proof.
  intros Hm Hk s Hs. eapply post_bind; [apply Hm, Hs|]. intros a s1 H1. apply Hk, H1.
Qed.

Lemma triple_ret {A} (P : state -> Prop) (a : A) (Q : A -> state -> Prop) E :
  (forall s, P s -> Q a s) -> triple P (ret a) Q E.
Proof. intros H s Hs. simpl. auto. Qed.

Lemma triple_weaken {A} (P P' : state -> Prop) (m : M A) Q Q' (E E' : state -> Prop) :
  triple P m Q E -> (forall s, P' s -> P s) ->
  (forall a s, Q a s -> Q' a s) -> (forall s, E s -> E' s) -> triple P' m Q' E'.
Proof.
  intros H HP HQ HE s Hs. eapply post_weaken; [apply H, HP, Hs | apply HQ | apply HE].
Qed.

Lemma triple_pre {A} (P P' : state -> Prop) (m : M A) Q E :
  triple P m Q E -> (forall s, P' s -> P s) -> triple P' m Q E.
Proof. intros H HP s Hs. apply H, HP, Hs. Qed.

Lemma triple_foldM {A B} (I : B -> state -> Prop) (E : state -> Prop)
      (f : B -> A -> M B) (l : list A) :
  (forall acc x, In x l -> triple (I acc) (f acc x) I E) ->
  forall acc, triple (I acc) (foldM f l acc) I E.
Proof.
  induction l as [|x r IH]; intros Hf acc; simpl.
  - apply triple_ret; auto.
  - eapply triple_bind; [apply Hf; left; reflexivity|].
    intros acc'. apply IH. intros; apply Hf; right; assumption.
Qed.

Lemma triple_mapM {A B} (P : state -> Prop) (R : B -> Prop) (E : state -> Prop)
      (f : A -> M B) (l : list A) :
  (forall x, In x l -> triple P (f x) (fun y s => P s /\ R y) E) ->
  triple P (mapM f l) (fun ys s => P s /\ Forall R ys) E.
Proof.
  induction l as [|x r IH]; intros Hf; simpl.
  - apply triple_ret; auto.
  - eapply triple_bind; [apply Hf; left; reflexivity|].
    intros y. simpl.
    intros s [Hs Hy]. eapply post_bind.
    + apply IH; [intros; apply Hf; right; assumption | exact Hs].
    + intros ys s1 [H1 H2]. simpl. split; [assumption | constructor; assumption].
Qed.

Section Preorder.

Variable R : state -> state -> Prop.
Hypothesis R_refl : forall s, R s s.
Hypothesis R_trans : forall s1 s2 s3, R s1 s2 -> R s2 s3 -> R s1 s3.

Lemma resp_ret {A} (a : A) : resp R (ret a).
Proof. intros s; simpl; auto. Qed.

Lemma resp_throw {A} e : resp R (@throw A e).
Proof. intros s; simpl; auto. Qed.

Lemma resp_oof {A} : resp R (@out_of_fuel A).
Proof. intros s; simpl; auto. Qed.

Lemma resp_get_heap : resp R get_heap.
Proof. intros s; simpl; auto. Qed.

Lemma resp_bind {A B} (m : M A) (k : A -> M B) :
  resp R m -> (forall a, resp R (k a)) -> resp R (bind m k).
Proof.
  intros Hm Hk s. eapply post_bind; [apply Hm|].
  intros a s1 H1. simpl in H1.
  eapply post_weaken; [apply Hk | |]; simpl; intros; eapply R_trans; eauto.
Qed.

Lemma resp_foldM {A B} (f : B -> A -> M B) (l : list A) :
  (forall acc x, In x l -> resp R (f acc x)) -> forall acc, resp R (foldM f l acc).
Proof.
  induction l as [|x r IH]; intros Hf acc; simpl.
  - apply resp_ret.
  - apply resp_bind; [apply Hf; left; reflexivity|].
    intros acc'. apply IH. intros; apply Hf; right; assumption.
Qed.

Lemma resp_mapM {A B} (f : A -> M B) (l : list A) :
  (forall x, In x l -> resp R (f x)) -> resp R (mapM f l).
Proof.
  induction l as [|x r IH]; intros Hf; simpl.
  - apply resp_ret.
  - apply resp_bind; [apply Hf; left; reflexivity|].
    intros y. apply resp_bind; [apply IH; intros; apply Hf; right; assumption|].
    intros ys. apply resp_ret.
Qed.

(** A computation that respects [R] keeps an invariant that [R] carries. *)
Lemma resp_triple {A} (m : M A) (P : state -> Prop) :
  resp R m -> (forall s s', P s -> R s s' -> P s') ->
  triple P m (fun _ => P) P.
Proof.
  intros Hm HP s Hs. eapply post_weaken; [apply Hm | |]; simpl; eauto.
Qed.

End Preorder.

Lemma resp_impl {A} (R R' : state -> state -> Prop) (m : M A) :
  (forall s s', R s s' -> R' s s') -> resp R m -> resp R' m.
Proof. intros H Hm s. eapply post_weaken; [apply Hm | |]; simpl; auto. Qed.

Lemma resp_and {A} (R1 R2 : state -> state -> Prop) (m : M A) :
  resp R1 m -> resp R2 m -> resp (fun s s' => R1 s s' /\ R2 s s') m.
Proof. intros H1 H2 s. apply post_and; [apply H1 | apply H2]. Qed.

(* ----------------------------------------------------------------- *)
(** *** The frame relations are preorders *)

Lemma extends_refl s : extends s s.
Proof. split; [reflexivity|]. exists []. rewrite app_nil_r. split; [reflexivity | constructor]. Qed.

Lemma extends_trans s1 s2 s3 : extends s1 s2 -> extends s2 s3 -> extends s1 s3.
Proof.
  intros [H1 [e1 [E1 F1]]] [H2 [e2 [E2 F2]]]. split; [congruence|].
  exists (e1 ++ e2). rewrite E2, E1, app_assoc. split; [reflexivity|].
  apply Forall_app; split; assumption.
Qed.

Lemma evolves_refl fz c : evolves fz c c.
Proof.
  destruct c as [ct fr ps | fr es | b]; simpl; auto.
  destruct (is_def_ctor ct); auto.
  exists fr, ps. repeat split; auto.
Qed.

Lemma evolves_trans fz c1 c2 c3 : evolves fz c1 c2 -> evolves fz c2 c3 -> evolves fz c1 c3.
Proof.
  destruct c1 as [ct fr ps | fr es | b]; simpl.
  - destruct (is_def_ctor ct) eqn:Hd.
    + intros (fr' & ps' & -> & Hfr & Hfz & Hk). simpl. rewrite Hd.
      intros (fr'' & ps'' & -> & Hfr' & Hfz' & Hk').
      exists fr'', ps''. repeat split.
      * intros F. specialize (Hfr F). inversion Hfr; subst. apply Hfr'. reflexivity.
      * intros F. rewrite Hfz', Hfz; auto.
      * intros k Hne. rewrite Hk', Hk; auto.
    + intros [-> | [F ->]]; simpl; rewrite Hd; auto.
      intros [-> | [_ ->]]; auto.
  - intros [-> | [F ->]]; simpl; auto.
    intros [-> | [_ ->]]; auto.
  - intros ->. simpl. auto.
Qed.

Lemma step_rel_refl fz s : step_rel fz s s.
Proof.
  repeat split; auto. intros l c H. exists c. split; [assumption | apply evolves_refl].
Qed.

Lemma step_rel_trans fz s1 s2 s3 : step_rel fz s1 s2 -> step_rel fz s2 s3 -> step_rel fz s1 s3.
Proof.
  intros (L1 & C1 & F1 & S1) (L2 & C2 & F2 & S2). repeat split.
  - lia.
  - intros l c H. destruct (C1 l c H) as (c' & H' & E'). destruct (C2 l c' H') as (c'' & H'' & E'').
    exists c''. split; [assumption | eapply evolves_trans; eauto].
  - auto.
  - auto.
Qed.

Lemma step_rel_weaken fz s s' : step_rel false s s' -> step_rel fz s s'.
Proof.
  intros (L & C & F & S). repeat split; auto.
  intros l c H. destruct (C l c H) as (c' & H' & E'). exists c'. split; [assumption|].
  destruct c as [ct fr ps | fr es | b]; simpl in *.
  - destruct (is_def_ctor ct).
    + destruct E' as (fr' & ps' & -> & Hfr & Hfz & Hk).
      exists fr', ps'. repeat split; auto.
    + destruct E' as [-> | [F' _]]; [auto | discriminate].
  - destruct E' as [-> | [F' _]]; [auto | discriminate].
  - assumption.
Qed.

Lemma extends_step_rel fz s s' : extends s s' -> step_rel fz s s'.
Proof.
  intros [Hs [ext [He Hf]]]. repeat split.
  - rewrite He, length_app. lia.
  - intros l c H. exists c. split; [|apply evolves_refl].
    rewrite He, nth_error_app1; [assumption|]. apply nth_error_Some. congruence.
  - intros l b H. rewrite He in H.
    destruct (Nat.lt_ge_cases l (List.length (heap s))) as [Hl | Hl].
    + rewrite nth_error_app1 in H; assumption.
    + rewrite nth_error_app2 in H by assumption.
      apply nth_error_In in H. rewrite Forall_forall in Hf. apply Hf in H. discriminate.
  - intros c v _ H _. rewrite Hs. assumption.
Qed.

Lemma extends_same_statics s s' : extends s s' -> same_statics s s'.
Proof. intros [H _]; exact H. Qed.

Lemma extends_nth s s' l c :
  extends s s' -> nth_error (heap s) l = Some c -> nth_error (heap s') l = Some c.
Proof.
  intros [_ [ext [He _]]] H. rewrite He, nth_error_app1; [assumption|].
  apply nth_error_Some. congruence.
Qed.

Lemma extends_length s s' : extends s s' -> (List.length (heap s) <= List.length (heap s'))%nat.
Proof. intros [_ [ext [He _]]]. rewrite He, length_app. lia. Qed.

(* ----------------------------------------------------------------- *)
(** *** Operations that only append to the store *)

Create HintDb resp_db.

Ltac resp_go Rrefl Rtrans :=
  repeat match goal with
         | |- resp _ _ => solve [eauto with resp_db]
         | |- resp _ (bind _ _) => apply (resp_bind _ Rtrans); [ | intros ]
         | |- resp _ (ret _) => apply (resp_ret _ Rrefl)
         | |- resp _ (throw _) => apply (resp_throw _ Rrefl)
         | |- resp _ out_of_fuel => apply resp_oof
         | |- resp _ get_heap => apply (resp_get_heap _ Rrefl)
         | |- resp _ (foldM _ _ _) => apply (resp_foldM _ Rrefl Rtrans); intros
         | |- resp _ (mapM _ _) => apply (resp_mapM _ Rrefl Rtrans); intros
         | |- resp _ (match ?x with _ => _ end) => destruct x
         end.

Ltac ext_go := resp_go extends_refl extends_trans.

Lemma resp_ext_alloc c : is_fn_cell c = false -> resp extends (alloc c).
Proof.
  intros Hc s. simpl. split; [reflexivity|].
  exists [c]. split; [reflexivity|]. constructor; [assumption | constructor].
Qed.

Lemma resp_ext_warn msg : resp extends (warn msg).
Proof.
  intros s. simpl. split; [reflexivity|]. exists []. simpl. rewrite app_nil_r.
  split; [reflexivity | constructor].
Qed.

Lemma resp_ext_new_array vs : resp extends (new_array vs).
Proof. unfold new_array. ext_go. apply resp_ext_alloc. reflexivity. Qed.

Lemma resp_ext_new_object ps : resp extends (new_object ps).
Proof. unfold new_object. ext_go. apply resp_ext_alloc. reflexivity. Qed.

#[local] Hint Resolve resp_ext_warn resp_ext_new_array resp_ext_new_object : resp_db.

Lemma resp_ext_get v k : resp extends (get v k).
Proof. unfold get. ext_go. Qed.

Lemma resp_ext_toString v : resp extends (toString v).
Proof. unfold toString. ext_go. Qed.

#[local] Hint Resolve resp_ext_get resp_ext_toString : resp_db.

Lemma resp_ext_isNaN v : resp extends (isNaN v).
Proof. unfold isNaN. ext_go. Qed.

Lemma resp_ext_parseFloat v : resp extends (parseFloat v).
Proof. unfold parseFloat. ext_go. Qed.

Lemma resp_ext_call f : resp extends (call f).
Proof. unfold call. ext_go. Qed.

Lemma resp_ext_assert c msg : resp extends (assert c msg).
Proof. unfold assert. ext_go. Qed.

Lemma resp_ext_wire_key def key : resp extends (wire_key def key).
Proof. unfold wire_key. ext_go. Qed.

#[local] Hint Resolve resp_ext_isNaN resp_ext_parseFloat resp_ext_call resp_ext_assert
  resp_ext_wire_key : resp_db.

Lemma resp_ext_alloc_json : forall j, resp extends (alloc_json j).
Proof.
  fix IH 1. intros j. destruct j as [ | b | n | s | xs | ps]; simpl; try solve [ext_go].
  - apply (resp_bind _ extends_trans); [|intros; ext_go].
    induction xs as [|x r IHr]; [ext_go|].
    apply (resp_bind _ extends_trans); [apply IH|]. intros v.
    apply (resp_bind _ extends_trans); [apply IHr|]. intros vs. ext_go.
  - apply (resp_bind _ extends_trans); [|intros; ext_go].
    induction ps as [|[k x] r IHr]; [ext_go|].
    apply (resp_bind _ extends_trans); [apply IH|]. intros v.
    apply (resp_bind _ extends_trans); [apply IHr|]. intros vs. ext_go.
Qed.

#[local] Hint Resolve resp_ext_alloc_json : resp_db.

Lemma resp_ext_JSON_parse s : resp extends (JSON_parse s).
Proof. unfold JSON_parse. ext_go. Qed.

Lemma resp_ext_json_copy v : resp extends (json_copy v).
Proof. unfold json_copy. ext_go. Qed.

Lemma resp_ext_hasValue this val : resp extends (hasValue this val).
Proof. unfold hasValue. ext_go. Qed.

#[local] Hint Resolve resp_ext_JSON_parse resp_ext_json_copy resp_ext_hasValue : resp_db.

Lemma resp_ext_coerce fieldDef val : resp extends (coerce fieldDef val).
Proof. unfold coerce. ext_go. Qed.

#[local] Hint Resolve resp_ext_coerce : resp_db.

Lemma resp_ext_getValueOrDefault fieldDef val : resp extends (getValueOrDefault fieldDef val).
Proof. unfold getValueOrDefault. ext_go. Qed.

#[local] Hint Resolve resp_ext_getValueOrDefault : resp_db.

Lemma resp_ext_create_field acc kd : resp extends (create_field acc kd).
Proof. unfold create_field. destruct kd. ext_go. Qed.

Lemma resp_ext_rename_keys g : forall fuel v, resp extends (rename_keys g fuel v).
Proof.
  induction fuel as [|f IH]; intros v; simpl; [ext_go|].
  ext_go.
Qed.

#[local] Hint Resolve resp_ext_create_field resp_ext_rename_keys : resp_db.

Lemma resp_ext_camelizeObject v : resp extends (camelizeObject v).
Proof. unfold camelizeObject. ext_go. Qed.

Lemma resp_ext_classifyObject v : resp extends (classifyObject v).
Proof. unfold classifyObject. ext_go. Qed.

Lemma resp_ext_init_field fi : resp extends (init_field fi).
Proof. unfold init_field, new_FieldDef. ext_go; apply resp_ext_alloc; reflexivity. Qed.

#[local] Hint Resolve resp_ext_camelizeObject resp_ext_classifyObject resp_ext_init_field : resp_db.

Lemma resp_ext_instantiate c : resp extends (instantiate c).
Proof. unfold instantiate. ext_go. apply resp_ext_alloc. reflexivity. Qed.

#[local] Hint Resolve resp_ext_instantiate : resp_db.

(* ----------------------------------------------------------------- *)
(** *** Operations that write in place *)

Lemma length_update {A} (l : list A) n x : List.length (update l n x) = List.length l.
Proof.
  revert n; induction l as [|y r IH]; intros [|n]; simpl; auto.
Qed.

Lemma nth_error_update_eq {A} (l : list A) n x y :
  nth_error l n = Some y -> nth_error (update l n x) n = Some x.
Proof.
  revert n; induction l as [|z r IH]; intros [|n]; simpl; try discriminate; auto.
Qed.

Lemma nth_error_update_neq {A} (l : list A) n m x :
  n <> m -> nth_error (update l n x) m = nth_error l m.
Proof.
  revert n m; induction l as [|z r IH]; intros [|n] [|m] H; simpl; auto.
  congruence.
Qed.

Lemma alist_get_set_eq ps k v : alist_get (alist_set ps k v) k = Some v.
Proof.
  induction ps as [|[k' v'] r IH]; simpl.
  - rewrite String.eqb_refl. reflexivity.
  - destruct (String.eqb k' k) eqn:E; simpl.
    + rewrite String.eqb_refl. reflexivity.
    + rewrite E. assumption.
Qed.

Lemma alist_get_set_neq ps k v k' :
  k <> k' -> alist_get (alist_set ps k v) k' = alist_get ps k'.
Proof.
  intros Hne. induction ps as [|[k0 v0] r IH]; simpl.
  - destruct (String.eqb k k') eqn:E; [apply String.eqb_eq in E; contradiction | reflexivity].
  - destruct (String.eqb k0 k) eqn:E; simpl.
    + apply String.eqb_eq in E. subst k0.
      destruct (String.eqb k k') eqn:E'; [apply String.eqb_eq in E'; contradiction | reflexivity].
    + destruct (String.eqb k0 k'); [reflexivity | assumption].
Qed.

(** The state relation kept while a schema is derived: the frame, with the
    static properties untouched. *)
Definition quiet_rel (fz : bool) (s s' : state) : Prop :=
  step_rel fz s s' /\ same_statics s s'.

Lemma quiet_refl fz s : quiet_rel fz s s.
Proof. split; [apply step_rel_refl | reflexivity]. Qed.

Lemma quiet_trans fz s1 s2 s3 : quiet_rel fz s1 s2 -> quiet_rel fz s2 s3 -> quiet_rel fz s1 s3.
Proof.
  intros [A1 B1] [A2 B2]. split; [eapply step_rel_trans; eauto|].
  unfold same_statics in *. congruence.
Qed.

Lemma extends_quiet fz s s' : extends s s' -> quiet_rel fz s s'.
Proof. intros H. split; [apply extends_step_rel, H | apply extends_same_statics, H]. Qed.

Lemma resp_quiet_of_ext {A} fz (m : M A) : resp extends m -> resp (quiet_rel fz) m.
Proof. apply resp_impl. apply extends_quiet. Qed.

Lemma resp_step_of_ext {A} fz (m : M A) : resp extends m -> resp (step_rel fz) m.
Proof. apply resp_impl. apply extends_step_rel. Qed.

Lemma resp_step_of_quiet {A} fz (m : M A) : resp (quiet_rel fz) m -> resp (step_rel fz) m.
Proof. apply resp_impl. intros s s' [H _]; exact H. Qed.

(** Replacing an object by one that it may evolve into. *)
Lemma store_quiet fz l c c' s :
  nth_error (heap s) l = Some c -> evolves fz c c' -> is_fn_cell c' = false ->
  quiet_rel fz s (mkState (update (heap s) l c') (statics s) (console s)).
Proof.
  intros Hl He Hf. split; [|reflexivity]. repeat split; simpl.
  - rewrite length_update. lia.
  - intros l0 c0 H0. destruct (Nat.eq_dec l l0) as [<- | Hne].
    + exists c'. split; [eapply nth_error_update_eq; eauto|]. congruence.
    + exists c0. split; [rewrite nth_error_update_neq; assumption | apply evolves_refl].
  - intros l0 b H0. destruct (Nat.eq_dec l l0) as [<- | Hne].
    + erewrite nth_error_update_eq in H0 by eauto. inversion H0; subst. discriminate.
    + rewrite nth_error_update_neq in H0; assumption.
  - auto.
Qed.

Lemma is_FieldDef_cell h d :
  is_FieldDef h (VRef d) = true ->
  exists ct fr ps, nth_error h d = Some (Obj ct fr ps) /\ is_def_ctor ct = true.
Proof.
  unfold is_FieldDef, ctor_of. destruct (nth_error h d) as [[ct fr ps | |]|]; try discriminate.
  intros H. exists ct, fr, ps. split; [reflexivity|]. destruct ct; simpl; congruence.
Qed.

(** Writing the [key] of a descriptor. *)
Lemma set_key_quiet fz d v s :
  is_FieldDef (heap s) (VRef d) = true ->
  post (set_prop d "key" v s) (fun _ s' => quiet_rel fz s s') (fun s' => quiet_rel fz s s').
Proof.
  intros H. destruct (is_FieldDef_cell _ _ H) as (ct & fr & ps & Hd & Hc).
  unfold set_prop, bind, get_heap. rewrite Hd.
  destruct fr; simpl; [apply quiet_refl|].
  eapply store_quiet; eauto. simpl. rewrite Hc.
  exists false, (alist_set ps "key" v). repeat split; auto; try discriminate.
  intros k Hk. apply alist_get_set_neq. congruence.
Qed.

Lemma freeze_quiet v : resp (quiet_rel true) (freeze v).
Proof.
  intros s. unfold freeze, bind, get_heap.
  destruct v; simpl; try apply quiet_refl.
  destruct (nth_error (heap s) l) as [[ct fr ps | fr es | b]|] eqn:Hl; simpl;
    try apply quiet_refl.
  - eapply store_quiet; eauto. simpl. destruct (is_def_ctor ct); [|auto].
    exists true, ps. repeat split; auto; try discriminate. intros ->; reflexivity.
  - eapply store_quiet; eauto. simpl. auto.
Qed.

Lemma ancestors_head c :
  nth_error classes c <> None -> exists r, ancestors c = c :: r.
Proof.
  intros Hc. unfold ancestors.
  destruct classes as [|d0 cl] eqn:E.
  - destruct c; simpl in Hc; congruence.
  - rewrite <- E in *. assert (L : List.length classes = S (List.length cl)) by (rewrite E; reflexivity).
    rewrite L. simpl. destruct (nth_error classes c); [|congruence]. eexists; reflexivity.
Qed.

Lemma static_fieldDefs_own s c v :
  nth_error classes c <> None -> assoc_class (statics s) c = Some v ->
  static_fieldDefs s c = v.
Proof.
  intros Hc Hv. unfold static_fieldDefs. destruct (ancestors_head c Hc) as [r ->].
  rewrite Hv. reflexivity.
Qed.

(** The loop of [getFieldDefs]. *)
Lemma resp_quiet_collect fz (l : alist) : forall acc,
  resp (quiet_rel fz)
       (foldM (fun acc kd =>
                 let '(key, def) := kd in
                 h <- get_heap ;;
                 if is_FieldDef h def then
                   match def with
                   | VRef d => set_prop d "key" (VStr key)
                   | _ => ret tt
                   end ;;;
                   ret (alist_set acc key def)
                 else ret acc) l acc).
Proof.
  apply (resp_foldM _ (quiet_refl fz) (quiet_trans fz)).
  intros acc [key def] _ s. unfold bind at 1, get_heap.
  destruct (is_FieldDef (heap s) def) eqn:Hd; [|simpl; apply quiet_refl].
  destruct def; try (simpl in Hd; discriminate).
  eapply post_bind; [apply (set_key_quiet fz), Hd|].
  intros u s1 H1. simpl. exact H1.
Qed.

Lemma resp_step_getFieldDefs fz c : resp (step_rel fz) (getFieldDefs c).
Proof.
  intros s. unfold getFieldDefs. unfold bind at 1.
  destruct (truthy (static_fieldDefs s c)) eqn:Hc; [simpl; apply step_rel_refl|].
  assert (T : triple (quiet_rel fz s)
                (proto <- instantiate c ;;
                 h <- get_heap ;;
                 fieldDefs <- foldM (fun acc kd =>
                          let '(key, def) := kd in
                          h <- get_heap ;;
                          if is_FieldDef h def then
                            match def with
                            | VRef d => set_prop d "key" (VStr key)
                            | _ => ret tt
                            end ;;;
                            ret (alist_set acc key def)
                          else ret acc)
                       (own_props h (VRef proto)) [] ;;
                 fd <- new_object fieldDefs ;;
                 set_static_fieldDefs c fd ;;;
                 ret fd)
                (fun _ => step_rel fz s) (quiet_rel fz s)).
  { eapply triple_bind.
    { apply (resp_triple (quiet_rel fz) (instantiate c) (quiet_rel fz s)).
      - apply resp_quiet_of_ext, resp_ext_instantiate.
      - intros; eapply quiet_trans; eauto. }
    intros proto; simpl. eapply triple_bind.
    { apply (resp_triple (quiet_rel fz) get_heap (quiet_rel fz s)).
      - apply (resp_get_heap _ (quiet_refl fz)).
      - intros; eapply quiet_trans; eauto. }
    intros h; simpl. eapply triple_bind.
    { apply (resp_triple (quiet_rel fz) _ (quiet_rel fz s)).
      - apply resp_quiet_collect.
      - intros; eapply quiet_trans; eauto. }
    intros fieldDefs; simpl. eapply triple_bind.
    { apply (resp_triple (quiet_rel fz) (new_object fieldDefs) (quiet_rel fz s)).
      - apply resp_quiet_of_ext, resp_ext_new_object.
      - intros; eapply quiet_trans; eauto. }
    intros fd; simpl.
    intros s1 [H1 S1]. simpl.
    eapply step_rel_trans; [exact H1|].
    repeat split; simpl; auto.
    - intros l c0 H. exists c0. split; [assumption | apply evolves_refl].
    - intros c0 v Hin Hv Ht.
      destruct (Nat.eqb c c0) eqn:E; [|assumption].
      apply Nat.eqb_eq in E. subst c0. exfalso.
      rewrite S1 in Hv. rewrite (static_fieldDefs_own s c v Hin Hv) in Hc. congruence. }
  eapply post_weaken; [apply T, quiet_refl | auto |].
  intros s' [H _]; exact H.
Qed.

(* ----------------------------------------------------------------- *)
(** *** Instantiation and the factory *)

Lemma bind_inv_Ret {A B} (m : M A) (k : A -> M B) s b s' :
  bind m k s = Ret b s' -> exists a s1, m s = Ret a s1 /\ k a s1 = Ret b s'.
Proof.
  unfold bind. destruct (m s) as [a s1 | |]; try discriminate. eauto.
Qed.

Lemma update_last {A} (h : list A) x y : update (h ++ [x]) (List.length h) y = h ++ [y].
Proof. induction h as [|z r IH]; simpl; [reflexivity | rewrite IH; reflexivity]. Qed.

Lemma nth_error_last {A} (h : list A) x : nth_error (h ++ [x]) (List.length h) = Some x.
Proof. rewrite nth_error_app2, Nat.sub_diag by lia. reflexivity. Qed.

(** [Object.assign] onto the object allocated last. *)
Lemma object_assign_last ct (src : alist) : forall h ps st co,
  object_assign (List.length h) src (mkState (h ++ [Obj ct false ps]) st co)
  = Ret tt (mkState (h ++ [Obj ct false (assign ps src)]) st co).
Proof.
  unfold object_assign, assign.
  induction src as [|[k v] r IH]; intros h ps st co; simpl; [reflexivity|].
  unfold bind at 1. unfold set_prop, bind, get_heap. simpl.
  rewrite nth_error_last. unfold store. simpl. rewrite update_last. apply IH.
Qed.

Definition not_fn (c : cell) : Prop := is_fn_cell c = false.

Lemma init_field_spec fi s :
  exists v ext,
    init_field fi s = Ret v (mkState (heap s ++ ext) (statics s) (console s))
    /\ Forall not_fn ext.
Proof.
  destruct fi as [t o | t o | t o | v]; simpl.
  1-3: eexists; eexists; split; [reflexivity | constructor; [reflexivity | constructor]].
  exists v, []. rewrite app_nil_r. destruct s; split; [reflexivity | constructor].
Qed.

Lemma init_fields_spec (fs : list (string * field_init)) : forall acc s,
  exists ext ps,
    foldM (fun acc kf => v <- init_field (snd kf) ;; ret (alist_set acc (fst kf) v)) fs acc s
    = Ret ps (mkState (heap s ++ ext) (statics s) (console s))
    /\ Forall not_fn ext.
Proof.
  induction fs as [|[k fi] r IH]; intros acc s; simpl.
  - exists [], acc. rewrite app_nil_r. destruct s; split; [reflexivity | constructor].
  - destruct (init_field_spec fi s) as (v & e1 & E1 & F1).
    destruct (IH (alist_set acc k v) (mkState (heap s ++ e1) (statics s) (console s)))
      as (e2 & ps & E2 & F2).
    exists (e1 ++ e2), ps. split.
    + rewrite (bind_Ret _ _ s (alist_set acc k v)
                        (mkState (heap s ++ e1) (statics s) (console s))).
      * rewrite E2. simpl. rewrite app_assoc. reflexivity.
      * simpl. rewrite (bind_Ret _ _ _ _ _ E1). reflexivity.
    + apply Forall_app; split; assumption.
Qed.

Lemma instantiate_spec c s :
  exists ext ps,
    instantiate c s
    = Ret (List.length (heap s ++ ext))
          (mkState ((heap s ++ ext) ++ [Obj (CModel c) false ps]) (statics s) (console s))
    /\ Forall not_fn ext.
Proof.
  unfold instantiate.
  destruct (init_fields_spec (all_fields c) [] s) as (ext & ps & E & F).
  exists ext, ps. split; [|assumption].
  rewrite (bind_Ret _ _ _ _ _ E). reflexivity.
Qed.

(** [new this()] followed by [Object.assign(instance, initialVals)]. *)
Lemma new_instance_spec c (iv : alist) s :
  exists ext ps,
    (instance <- instantiate c ;; object_assign instance iv ;;; ret (VRef instance)) s
    = Ret (VRef (List.length (heap s ++ ext)))
          (mkState ((heap s ++ ext) ++ [Obj (CModel c) false (assign ps iv)])
                   (statics s) (console s))
    /\ Forall not_fn ext.
Proof.
  destruct (instantiate_spec c s) as (ext & ps & E & F).
  exists ext, ps. split; [|assumption].
  rewrite (bind_Ret _ _ _ _ _ E).
  rewrite (bind_Ret _ _ _ _ _ (object_assign_last _ _ _ _ _ _)). reflexivity.
Qed.

Lemma resp_ext_new_instance c (iv : alist) :
  resp extends (instance <- instantiate c ;; object_assign instance iv ;;; ret (VRef instance)).
Proof.
  intros s. destruct (new_instance_spec c iv s) as (ext & ps & E & F).
  rewrite E. simpl. split; [reflexivity|].
  exists (ext ++ [Obj (CModel c) false (assign ps iv)]).
  rewrite app_assoc. split; [reflexivity|].
  apply Forall_app. split; [exact F | constructor; [reflexivity | constructor]].
Qed.

#[local] Hint Resolve resp_ext_new_instance resp_step_getFieldDefs : resp_db.
#[local] Hint Resolve resp_step_of_ext | 5 : resp_db.

Ltac step_go fz := resp_go (step_rel_refl fz) (step_rel_trans fz).

Lemma resp_step_create fz c props : resp (step_rel fz) (create c props).
Proof. unfold create. step_go fz. Qed.

#[local] Hint Resolve resp_step_create : resp_db.

Lemma resp_step_freeze v : resp (step_rel true) (freeze v).
Proof. apply resp_step_of_quiet, freeze_quiet. Qed.

#[local] Hint Resolve resp_step_freeze : resp_db.

Lemma resp_step_type_deserialize fz rec def val :
  (forall c v, resp (step_rel fz) (rec c v)) ->
  resp (step_rel fz) (type_deserialize rec def val).
Proof. intros H. unfold type_deserialize. step_go fz. Qed.

#[local] Hint Resolve resp_step_type_deserialize : resp_db.

Lemma resp_step_deserialize_field fz rec cj obj kd :
  (forall c v, resp (step_rel fz) (rec c v)) ->
  resp (step_rel fz) (deserialize_field rec cj obj kd).
Proof. intros H. unfold deserialize_field. destruct kd. step_go fz. Qed.

#[local] Hint Resolve resp_step_deserialize_field : resp_db.

Lemma resp_step_deserialize_normalized fz rec c cj :
  (forall c v, resp (step_rel fz) (rec c v)) ->
  resp (step_rel fz) (deserialize_normalized rec c cj).
Proof. intros H. unfold deserialize_normalized. step_go fz. Qed.

#[local] Hint Resolve resp_step_deserialize_normalized : resp_db.

(** Deserialization keeps to the frame, freezing allowed. *)
Lemma resp_step_deserialize : forall fuel c json,
  resp (step_rel true) (deserialize fuel c json).
Proof.
  induction fuel as [|f IH]; intros c json; simpl; step_go true.
Qed.

Lemma resp_step_call_member fz name rec v m :
  (forall v, resp (step_rel fz) (rec v)) ->
  resp (step_rel fz) (call_member name rec v m).
Proof. intros H. unfold call_member. step_go fz. Qed.

#[local] Hint Resolve resp_step_call_member : resp_db.

Lemma resp_step_serialize_element fz rec v :
  (forall v, resp (step_rel fz) (rec v)) ->
  resp (step_rel fz) (serialize_element rec v).
Proof. intros H. unfold serialize_element. step_go fz. Qed.

#[local] Hint Resolve resp_step_serialize_element : resp_db.

Lemma resp_step_serialize_field fz rec this obj kd :
  (forall v, resp (step_rel fz) (rec v)) ->
  resp (step_rel fz) (serialize_field rec this obj kd).
Proof. intros H. unfold serialize_field. destruct kd. step_go fz. Qed.

#[local] Hint Resolve resp_step_serialize_field : resp_db.

Lemma resp_step_constructor_of fz this : resp (step_rel fz) (constructor_of this).
Proof. unfold constructor_of. step_go fz. Qed.

#[local] Hint Resolve resp_step_constructor_of : resp_db.

(** Serialization and cloning keep to the frame and freeze nothing. *)
Lemma resp_step_serialize : forall fuel this options,
  resp (step_rel false) (serialize fuel this options).
Proof.
  induction fuel as [|f IH]; intros this options; simpl; step_go false.
Qed.

Lemma resp_step_clone_value fz rec val :
  (forall v, resp (step_rel fz) (rec v)) ->
  resp (step_rel fz) (clone_value rec val).
Proof. intros H. unfold clone_value. step_go fz. Qed.

#[local] Hint Resolve resp_step_clone_value : resp_db.

Lemma resp_step_clone_field fz rec this obj kd :
  (forall v, resp (step_rel fz) (rec v)) ->
  resp (step_rel fz) (clone_field rec this obj kd).
Proof. intros H. unfold clone_field. destruct kd. step_go fz. Qed.

#[local] Hint Resolve resp_step_clone_field : resp_db.

Lemma resp_step_clone : forall fuel this,
  resp (step_rel false) (clone fuel this).
Proof.
  induction fuel as [|f IH]; intros this; simpl; step_go false.
Qed.

(* ================================================================= *)
(** ** Equality *)

(** C2 (code bug).  [isEqual] asks the instance for [getFieldNames], which
    the source declares [static]: an instance has no such member unless it
    carries one as an own property, the call fails with a [TypeError], and
    no boolean is returned, whatever the two instances hold. *)
Theorem isEqual_fails_on_every_instance :
  forall (this toModel : value) (s : state) l c fr ps,
    this = VRef l ->
    nth_error (heap s) l = Some (Obj (CModel c) fr ps) ->
    alist_get ps "getFieldNames" = None ->
    isEqual this toModel s = Throw (TypeError "not a function") s.
Proof.
  intros this toModel s l c fr ps -> Hl Hno.
  unfold isEqual.
  rewrite (bind_Ret _ _ s VUndefined s).
  - reflexivity.
  - apply get_Ret. simpl. rewrite Hl, Hno. reflexivity.
Qed.

(* ================================================================= *)
(** ** Coercion *)

Lemma coerce_boolean fieldDef val s txt :
  member (heap s) fieldDef "type" = Some (VStr "boolean") ->
  to_string (S (List.length (heap s))) (heap s) val = Some txt ->
  coerce fieldDef val s =
  match JSON_parse_text txt with
  | Some j => Ret (VBool (json_truthy j)) s
  | None => Throw SyntaxError s
  end.
Proof.
  intros Ht Hs. unfold coerce.
  rewrite (bind_Ret _ _ s _ s (get_Ret _ _ _ _ Ht)).
  unfold bind at 1, get_heap. cbn [kind_is strict_equal String.eqb Ascii.eqb Bool.eqb].
  rewrite (bind_Ret _ _ s _ s (toString_Ret _ _ _ Hs)).
  destruct (JSON_parse_text txt); reflexivity.
Qed.

(** C7 (amended).  For a boolean-kind field and a raw value that is neither
    empty nor a producer, coercion parses the text of the value as JSON: it
    returns the native boolean that the parsed value normalises to, and it
    fails with a [SyntaxError] when the text is not JSON.  Native booleans
    and the texts [true] and [false] come back as their boolean. *)
Theorem boolean_coercion_parses_JSON :
  forall fieldDef val s,
    member (heap s) fieldDef "type" = Some (VStr "boolean") ->
    isEmpty (heap s) val = false ->
    is_function (heap s) val = false ->
    (forall txt,
        to_string (S (List.length (heap s))) (heap s) val = Some txt ->
        getValueOrDefault fieldDef val s =
        match JSON_parse_text txt with
        | Some j => Ret (VBool (json_truthy j)) s
        | None => Throw SyntaxError s
        end)
    /\ (forall b, val = VBool b \/ val = VStr (if b then "true" else "false") ->
                  getValueOrDefault fieldDef val s = Ret (VBool b) s).
Proof.
  intros fieldDef val s Ht He Hf.
  assert (G : forall txt,
             to_string (S (List.length (heap s))) (heap s) val = Some txt ->
             getValueOrDefault fieldDef val s =
             match JSON_parse_text txt with
             | Some j => Ret (VBool (json_truthy j)) s
             | None => Throw SyntaxError s
             end).
  { intros txt Hs. unfold getValueOrDefault, bind at 1, get_heap.
    rewrite He, Hf. apply coerce_boolean; assumption. }
  split; [exact G|].
  intros b [-> | ->].
  - rewrite (G (if b then "true" else "false")) by reflexivity.
    destruct b; reflexivity.
  - rewrite (G (if b then "true" else "false")) by reflexivity.
    destruct b; reflexivity.
Qed.

(** On a host whose arrays have no [contains] method, [Enum.hasValue] fails
    for every value. *)
Lemma hasValue_standard_host this val s :
  array_contains = false ->
  exists s', hasValue this val s = Throw (TypeError "this.values.contains is not a function") s'.
Proof.
  intros Hc. unfold hasValue, bind, get_heap, new_array, bind, alloc, ret.
  rewrite Hc. eexists; reflexivity.
Qed.

(** C5 (code bug).  Coercing a non-empty raw value for an enum-kind field
    runs [Enum.hasValue], which calls [contains] on an array; ECMAScript
    arrays have no such method.  On a standard host the coercion fails with
    a [TypeError] for members and non-members alike: a member is not passed
    through and a non-member gets no validation error. *)
Theorem enum_coercion_fails_on_standard_host :
  array_contains = false ->
  forall fieldDef val s e n fr ps,
    member (heap s) fieldDef "type" = Some (VStr "enum") ->
    member (heap s) fieldDef "enumType" = Some (VRef e) ->
    nth_error (heap s) e = Some (Obj (CEnum n) fr ps) ->
    alist_get ps "hasValue" = None ->
    isEmpty (heap s) val = false ->
    is_function (heap s) val = false ->
    exists s',
      getValueOrDefault fieldDef val s
      = Throw (TypeError "this.values.contains is not a function") s'.
Proof.
  intros Hc fieldDef val s e n fr ps Ht Het He Hno Hne Hf.
  destruct (hasValue_standard_host (VRef e) val s Hc) as [s' Hs'].
  exists s'.
  unfold getValueOrDefault, bind at 1, get_heap. rewrite Hne, Hf.
  unfold coerce.
  rewrite (bind_Ret _ _ s _ s (get_Ret _ _ _ _ Ht)).
  unfold bind at 1, get_heap. cbn [kind_is strict_equal String.eqb Ascii.eqb Bool.eqb].
  rewrite (bind_Ret _ _ s _ s (get_Ret _ _ _ _ Het)).
  rewrite (bind_Ret _ _ s (VMethod "hasValue") s).
  2:{ apply get_Ret. simpl. rewrite He, Hno. reflexivity. }
  cbn [strict_equal String.eqb Ascii.eqb Bool.eqb].
  apply bind_Throw. exact Hs'.
Qed.

(** X13.  On a host that has extended arrays with [contains], a member passes
    through unchanged and a non-member fails with a validation error that
    names the enum and the value. *)
Lemma enum_coercion_on_extended_host :
  array_contains = true ->
  forall fieldDef val s e n fr ps txt,
    member (heap s) fieldDef "type" = Some (VStr "enum") ->
    member (heap s) fieldDef "enumType" = Some (VRef e) ->
    nth_error (heap s) e = Some (Obj (CEnum n) fr ps) ->
    alist_get ps "hasValue" = None ->
    isEmpty (heap s) val = false ->
    is_function (heap s) val = false ->
    to_string (S (S (List.length (heap s)))) (heap s ++ [Arr false (map snd ps)]) val = Some txt ->
    let s' := mkState (heap s ++ [Arr false (map snd ps)]) (statics s) (console s) in
    getValueOrDefault fieldDef val s =
    if existsb (strict_equal val) (map snd ps) then Ret val s'
    else Throw (ValidationError (cat ["Unknown "; n; " enum value: "; txt])) s'.
Proof.
  intros Hc fieldDef val s e n fr ps txt Ht Het He Hno Hne Hf Htxt s'.
  unfold getValueOrDefault, bind at 1, get_heap. rewrite Hne, Hf.
  unfold coerce.
  rewrite (bind_Ret _ _ s _ s (get_Ret _ _ _ _ Ht)).
  unfold bind at 1, get_heap. cbn [kind_is strict_equal String.eqb Ascii.eqb Bool.eqb].
  rewrite (bind_Ret _ _ s _ s (get_Ret _ _ _ _ Het)).
  rewrite (bind_Ret _ _ s (VMethod "hasValue") s).
  2:{ apply get_Ret. simpl. rewrite He, Hno. reflexivity. }
  cbn [strict_equal String.eqb Ascii.eqb Bool.eqb].
  rewrite (bind_Ret _ _ s (VBool (existsb (strict_equal val) (map snd ps))) s').
  2:{ unfold hasValue, bind, get_heap, new_array, bind, alloc, ret.
      rewrite Hc. simpl. rewrite He. reflexivity. }
  unfold bind at 1, get_heap.
  rewrite (bind_Ret _ _ s' txt s').
  2:{ apply toString_Ret. subst s'. simpl heap.
      rewrite length_app. simpl. rewrite Nat.add_1_r. exact Htxt. }
  assert (Hc' : ctor_of (heap s') (VRef e) = Some (CEnum n)).
  { subst s'. simpl. rewrite nth_error_app1.
    - rewrite He. reflexivity.
    - apply nth_error_Some. rewrite He. discriminate. }
  rewrite Hc'. cbn [ctor_name].
  unfold assert. cbn [truthy].
  destruct (existsb (strict_equal val) (map snd ps)); reflexivity.
Qed.

(* ================================================================= *)
(** ** The reducers of deserialize and serialize *)

Lemma wire_key_override def key s w :
  truthy def = true ->
  member (heap s) def "apiKey" = Some (VStr w) -> w <> EmptyString ->
  wire_key def key s = Ret w s.
Proof.
  intros Hd Ha Hw. unfold wire_key. rewrite Hd.
  rewrite (bind_Ret _ _ s _ s (get_Ret _ _ _ _ Ha)).
  assert (truthy (VStr w) = true) as ->.
  { simpl. destruct w; [congruence | reflexivity]. }
  reflexivity.
Qed.

Lemma wire_key_default def key s :
  truthy def = true ->
  member (heap s) def "apiKey" = Some VUndefined ->
  wire_key def key s = Ret key s.
Proof.
  intros Hd Ha. unfold wire_key. rewrite Hd.
  rewrite (bind_Ret _ _ s _ s (get_Ret _ _ _ _ Ha)). reflexivity.
Qed.

Lemma ctor_of_truthy h v c : ctor_of h v = Some c -> truthy v = true.
Proof. destruct v; simpl; congruence. Qed.

(** C1 (amended).  For a schema field whose descriptor overrides the wire
    key with [w], [deserialize] reads the normalized tree at [w] and nowhere
    else: what the field receives is decided by the value at [w] alone, and
    for a scalar field it is the coercion of that value, so that a tree with
    nothing at [w] yields the field's default whatever it holds under the
    internal field name. *)
Theorem deserialize_reads_at_wire_key_only :
  forall rec (j : value) (obj : alist) (key : string) (def : value) (s : state) (w : string) c,
    ctor_of (heap s) def = Some c ->
    member (heap s) def "apiKey" = Some (VStr w) -> w <> EmptyString ->
    (forall j', member (heap s) j' w = member (heap s) j w ->
                deserialize_field rec j' obj (key, def) s
                = deserialize_field rec j obj (key, def) s)
    /\ (c = CAttrFieldDef ->
        forall val, member (heap s) j w = Some val ->
                    deserialize_field rec j obj (key, def) s
                    = (v <- getValueOrDefault def val ;; ret (alist_set obj key v)) s).
Proof.
  intros rec j obj key def s w c Hc Ha Hw.
  assert (Hk := wire_key_override def key s w (ctor_of_truthy _ _ _ Hc) Ha Hw).
  split.
  - intros j' Hj. unfold deserialize_field.
    rewrite !(bind_Ret _ _ s _ s Hk).
    unfold get, bind, get_heap. rewrite Hj. reflexivity.
  - intros -> val Hv. unfold deserialize_field.
    rewrite (bind_Ret _ _ s _ s Hk).
    rewrite (bind_Ret _ _ s _ s (get_Ret _ _ _ _ Hv)).
    unfold bind at 1, get_heap. rewrite Hc. reflexivity.
Qed.

Lemma array_elems_truthy h v vs : array_elems h v = Some vs -> truthy v = true.
Proof. destruct v; simpl; congruence. Qed.

(** C6 (amended).  For a fragment-array field that is included on write,
    [serialize] writes under the field's wire key: when the value is an
    array, a new array of the serialized elements, where an element that is
    falsy, or that has no [serialize] member, gives [null], an element that
    inherits the [serialize] of records is serialized by the recursive call,
    and an element that owns a [serialize] function gives what that
    function returns; when the value is not an array and is falsy, a new
    empty sequence; and when the value is not an array and is truthy, the
    value itself, unchanged. *)
Theorem serialize_fragment_array_field :
  forall rec (this : value) (obj : alist) (key : string) (def : value) (s : state)
         (w : string) (ser val : value),
    ctor_of (heap s) def = Some CFragmentArrayFieldDef ->
    wire_key def key s = Ret w s ->
    member (heap s) def "serialize" = Some ser ->
    strict_equal ser (VBool false) = false ->
    member (heap s) this key = Some val ->
    (forall vs, array_elems (heap s) val = Some vs ->
                serialize_field rec this obj (key, def) s
                = (ws <- mapM (serialize_element rec) vs ;;
                   a <- new_array ws ;;
                   ret (alist_set obj w a)) s)
    /\ (forall v s0, truthy v = false -> serialize_element rec v s0 = Ret VNull s0)
    /\ (forall v m s0, truthy v = true -> member (heap s0) v "serialize" = Some m ->
                       truthy m = false -> serialize_element rec v s0 = Ret VNull s0)
    /\ (forall v s0, truthy v = true ->
                     member (heap s0) v "serialize" = Some (VMethod "serialize") ->
                     serialize_element rec v s0 = rec v s0)
    /\ (forall v m s0, truthy v = true -> member (heap s0) v "serialize" = Some m ->
                       truthy m = true -> m <> VMethod "serialize" ->
                       serialize_element rec v s0 = call m s0)
    /\ (forall vs, array_elems (heap s) val = Some vs ->
                   Forall (fun v => truthy v = false
                                    \/ member (heap s) v "serialize" = Some VUndefined) vs ->
                   serialize_field rec this obj (key, def) s
                   = Ret (alist_set obj w (VRef (List.length (heap s))))
                         (grow s [Arr false (map (fun _ => VNull) vs)]))
    /\ (array_elems (heap s) val = None -> truthy val = false ->
        serialize_field rec this obj (key, def) s
        = (a <- new_array [] ;; ret (alist_set obj w a)) s)
    /\ (array_elems (heap s) val = None -> truthy val = true ->
        serialize_field rec this obj (key, def) s = Ret (alist_set obj w val) s).
Proof.
  intros rec this obj key def s w ser val Hc Hk Hser Hne Hv.
  assert (E : serialize_field rec this obj (key, def) s
              = (v <- (v1 <- match array_elems (heap s) val with
                             | Some vs => ws <- mapM (serialize_element rec) vs ;; new_array ws
                             | None => ret val
                             end ;;
                       if truthy v1 then ret v1 else new_array []) ;;
                 ret (alist_set obj w v)) s).
  { unfold serialize_field.
    rewrite (bind_Ret _ _ s _ s Hk).
    rewrite (bind_Ret _ _ s _ s (get_Ret _ _ _ _ Hser)). rewrite Hne.
    rewrite (bind_Ret _ _ s _ s (get_Ret _ _ _ _ Hv)).
    unfold bind at 1, get_heap. rewrite Hc. reflexivity. }
  assert (A : forall vs, array_elems (heap s) val = Some vs ->
              serialize_field rec this obj (key, def) s
              = (ws <- mapM (serialize_element rec) vs ;;
                 a <- new_array ws ;;
                 ret (alist_set obj w a)) s).
  { intros vs Hvs. rewrite E, Hvs. unfold bind, new_array, bind, alloc, ret.
    destruct (mapM (serialize_element rec) vs s); reflexivity. }
  assert (N1 : forall v s0, truthy v = false -> serialize_element rec v s0 = Ret VNull s0).
  { intros v s0 Hf. unfold serialize_element. rewrite Hf. reflexivity. }
  assert (N2 : forall v m s0, truthy v = true -> member (heap s0) v "serialize" = Some m ->
                              truthy m = false -> serialize_element rec v s0 = Ret VNull s0).
  { intros v m s0 Ht Hm Hf. unfold serialize_element. rewrite Ht.
    rewrite (bind_Ret _ _ s0 _ s0 (get_Ret _ _ _ _ Hm)). rewrite Hf. reflexivity. }
  split; [exact A|]. split; [exact N1|]. split; [exact N2|]. split; [|split; [|split; [|split]]].
  - intros v s0 Ht Hm. unfold serialize_element. rewrite Ht.
    rewrite (bind_Ret _ _ s0 _ s0 (get_Ret _ _ _ _ Hm)). reflexivity.
  - intros v m s0 Ht Hm Htm Hn. unfold serialize_element. rewrite Ht.
    rewrite (bind_Ret _ _ s0 _ s0 (get_Ret _ _ _ _ Hm)). rewrite Htm.
    unfold call_member.
    destruct (strict_equal m (VMethod "serialize")) eqn:Eq; [|reflexivity].
    exfalso. apply Hn. destruct m; simpl in Eq; try discriminate.
    apply String.eqb_eq in Eq. congruence.
  - intros vs Hvs Hall. rewrite (A vs Hvs).
    assert (Hm : mapM (serialize_element rec) vs s = Ret (map (fun _ => VNull) vs) s).
    { clear Hvs. induction Hall as [|v r Hv' _ IH]; [reflexivity|].
      cbn [mapM map].
      assert (Ev : serialize_element rec v s = Ret VNull s).
      { destruct (truthy v) eqn:Tv.
        - destruct Hv' as [F | Hm]; [discriminate|]. apply (N2 v VUndefined s Tv Hm eq_refl).
        - apply N1. assumption. }
      rewrite (bind_Ret _ _ s _ s Ev). rewrite (bind_Ret _ _ s _ s IH). reflexivity. }
    rewrite (bind_Ret _ _ s _ s Hm). reflexivity.
  - intros Hn Hf. rewrite E, Hn. unfold bind at 1 2, ret at 1. rewrite Hf. reflexivity.
  - intros Hn Ht. rewrite E, Hn. unfold bind, ret. rewrite Ht. reflexivity.
Qed.

(* ================================================================= *)
(** ** The factory fills the fields *)

Lemma resp_Ret {A} (R : state -> state -> Prop) (m : M A) s a s' :
  resp R m -> m s = Ret a s' -> R s s'.
Proof. intros H E. specialize (H s). rewrite E in H. exact H. Qed.

Lemma resp_Throw {A} (R : state -> state -> Prop) (m : M A) s e s' :
  resp R m -> m s = Throw e s' -> R s s'.
Proof. intros H E. specialize (H s). rewrite E in H. exact H. Qed.

Lemma extends_member s s' v k x :
  extends s s' -> member (heap s) v k = Some x ->
  (forall l, v = VRef l -> nth_error (heap s) l <> None) ->
  member (heap s') v k = Some x.
Proof.
  intros He Hm Hl. destruct v; simpl in *; auto.
  specialize (Hl l eq_refl).
  destruct (nth_error (heap s) l) as [c|] eqn:E; [|congruence].
  rewrite (extends_nth _ _ _ _ He E). assumption.
Qed.

Lemma extends_ctor_of s s' v c :
  extends s s' -> ctor_of (heap s) v = Some c -> ctor_of (heap s') v = Some c.
Proof.
  intros He. destruct v; simpl; auto.
  destruct (nth_error (heap s) l) as [cl|] eqn:E; [|discriminate].
  rewrite (extends_nth _ _ _ _ He E). auto.
Qed.

Lemma ctor_of_allocated h v c : ctor_of h v = Some c ->
  forall l, v = VRef l -> nth_error h l <> None.
Proof.
  intros H l ->. simpl in H. destruct (nth_error h l); [discriminate | discriminate].
Qed.

Lemma extends_fills s s' def : extends s s' -> fills (heap s) def -> fills (heap s') def.
Proof.
  intros He [H | [H (k & Hk & Ht)]].
  - left. eapply extends_ctor_of; eauto.
  - right. split; [eapply extends_ctor_of; eauto|].
    exists k. split; [assumption|].
    eapply extends_member; eauto. eapply ctor_of_allocated; eauto.
Qed.

Lemma producers_defined_step fz s s' :
  step_rel fz s s' -> producers_defined (heap s) -> producers_defined (heap s').
Proof.
  intros (_ & _ & F & _) H l v Hl. apply (H l). apply F. assumption.
Qed.

Lemma producers_defined_extends s s' :
  extends s s' -> producers_defined (heap s) -> producers_defined (heap s').
Proof. intros He. apply (producers_defined_step false). apply extends_step_rel, He. Qed.

Lemma triple_get (P : state -> Prop) v k (E : state -> Prop) :
  (forall s, P s -> E s) ->
  triple P (get v k) (fun x s => P s /\ member (heap s) v k = Some x) E.
Proof.
  intros HE s Hs. unfold get, bind, get_heap.
  destruct (member (heap s) v k) eqn:Hm; simpl; auto.
Qed.

Lemma get_inv v k s x s' :
  get v k s = Ret x s' -> s' = s /\ member (heap s) v k = Some x.
Proof.
  unfold get, bind, get_heap, ret, throw.
  destruct (member (heap s) v k); intros H; inversion H; auto.
Qed.

Definition defined (v : value) (_ : state) : Prop := v <> VUndefined.
Definition anything (_ : state) : Prop := True.

Lemma call_defined f :
  triple (fun s => producers_defined (heap s)) (call f) defined anything.
Proof.
  intros s Hs. unfold call, bind, get_heap, defined, anything.
  destruct f; simpl; auto.
  destruct (nth_error (heap s) l) as [[| |[v | vs]]|] eqn:E; simpl; auto.
  - eapply Hs; eauto.
  - discriminate.
Qed.

Lemma new_array_defined (P : state -> Prop) vs : triple P (new_array vs) defined anything.
Proof. intros s _. simpl. unfold defined. discriminate. Qed.

Lemma triple_any {A} (P : state -> Prop) (m : M A) :
  triple P m (fun _ _ => True) anything.
Proof. intros s _. destruct (m s); simpl; unfold anything; auto. Qed.

Lemma triple_cut {A B} (P : state -> Prop) (m : M A) (k : A -> M B) Q E :
  (forall a, triple (fun _ => True) (k a) Q E) -> (forall s, E s) ->
  triple P (bind m k) Q E.
Proof.
  intros Hk HE s _. unfold bind. destruct (m s) as [a s1 | |]; simpl; auto.
  apply Hk. exact I.
Qed.

Lemma coerce_defined def val k :
  In k scalar_kinds ->
  val <> VUndefined ->
  triple (fun s => member (heap s) def "type" = Some (VStr k))
         (coerce def val) defined anything.
Proof.
  intros Hk Hval s Ht. unfold coerce.
  rewrite (bind_Ret _ _ s _ s (get_Ret _ _ _ _ Ht)).
  unfold bind at 1, get_heap.
  assert (D : forall A (m : M A) (f : A -> value) (g : A -> value -> value),
             (forall a, f a <> VUndefined) ->
             post (bind m (fun a => ret (f a)) s) defined anything).
  { intros A m f g Hf. unfold bind. destruct (m s); simpl; unfold defined, anything; auto. }
  simpl in Hk.
  destruct Hk as [<- | [<- | [<- | [<- | [<- | []]]]]];
    cbn [kind_is strict_equal String.eqb Ascii.eqb Bool.eqb].
  - (* number *)
    unfold bind. destruct (isNaN val s) as [nan s1 | |]; simpl; unfold anything; auto.
    destruct nan; simpl; [unfold defined; discriminate|].
    destruct (parseFloat val s1); simpl; unfold defined, anything; auto. discriminate.
  - (* boolean *)
    unfold bind. destruct (toString val s) as [txt s1 | |]; simpl; unfold anything; auto.
    destruct (JSON_parse_text txt); simpl; unfold defined, anything; auto. discriminate.
  - (* string *)
    destruct (isNone (heap s) val); [simpl; unfold defined; discriminate|].
    unfold bind. destruct (toString val s); simpl; unfold defined, anything; auto. discriminate.
  - (* array *)
    destruct (is_array (heap s) val); simpl; unfold defined; [assumption | discriminate].
  - (* enum *)
    unfold bind.
    repeat match goal with
           | |- post (match ?m with _ => _ end) _ _ =>
               destruct m; simpl; unfold anything; auto
           end.
Qed.

Lemma getValueOrDefault_defined def val k :
  (forall h, isEmpty h VUndefined = true) ->
  In k scalar_kinds ->
  triple (fun s => producers_defined (heap s) /\ member (heap s) def "type" = Some (VStr k))
         (getValueOrDefault def val) defined anything.
Proof.
  intros Hempty Hk s [Hp Ht]. unfold getValueOrDefault. unfold bind at 1, get_heap.
  destruct (isEmpty (heap s) val) eqn:He.
  - unfold bind at 1. destruct (get def "defaultValue" s) as [dv s1 | |] eqn:Hdv;
      simpl; unfold anything; auto.
    assert (s1 = s) as -> by (apply get_inv in Hdv; tauto).
    unfold bind at 1.
    destruct ((if is_function (heap s) dv then call dv else ret dv) s)
      as [defaultVal s2 | |] eqn:Hc; simpl; unfold anything; auto.
    destruct (is_undefined defaultVal) eqn:Hu; simpl.
    + assert (s2 = s /\ member (heap s2) def "type" = Some (VStr k)) as [-> Ht2].
      { destruct (is_function (heap s) dv).
        - unfold call, bind, get_heap in Hc. destruct dv; simpl in Hc; try discriminate.
          destruct (nth_error (heap s) l) as [[| |[v | vs]]|]; simpl in Hc; try discriminate.
          + inversion Hc; subst. auto.
          + inversion Hc; subst. discriminate.
        - inversion Hc; subst. auto. }
      rewrite (bind_Ret _ _ s _ s (get_Ret _ _ _ _ Ht)).
      simpl in Hk.
      destruct Hk as [<- | [<- | [<- | [<- | [<- | []]]]]];
        cbn [kind_is strict_equal String.eqb Ascii.eqb Bool.eqb]; simpl;
        unfold defined; discriminate.
    + unfold defined. destruct defaultVal; simpl in Hu; congruence.
  - destruct (is_function (heap s) val).
    + apply call_defined. assumption.
    + apply (coerce_defined def val k Hk); [|assumption].
      intros ->. rewrite Hempty in He. discriminate.
Qed.

Lemma foldM_untouched (f : alist -> string * value -> M alist) :
  (forall acc key def s acc' s',
      f acc (key, def) s = Ret acc' s' ->
      forall k', k' <> key -> alist_get acc' k' = alist_get acc k') ->
  forall l acc s acc' s' k,
    foldM f l acc s = Ret acc' s' -> ~ In k (map fst l) ->
    alist_get acc' k = alist_get acc k.
Proof.
  intros Hf. induction l as [|[k0 d0] r IH]; intros acc s acc' s' k H Hn; simpl in *.
  - inversion H; reflexivity.
  - apply bind_inv_Ret in H. destruct H as (acc1 & s1 & H1 & H2).
    rewrite (IH _ _ _ _ _ H2) by tauto.
    eapply Hf; eauto.
Qed.

(** A loop that assigns one key per schema field leaves, under every key,
    what the step for that key put there. *)
Lemma foldM_keyed (f : alist -> string * value -> M alist)
      (good : state -> value -> Prop) (Phi : value -> Prop) :
  (forall acc key def s acc' s',
      f acc (key, def) s = Ret acc' s' ->
      extends s s'
      /\ (forall k', k' <> key -> alist_get acc' k' = alist_get acc k')
      /\ (good s def -> exists v, alist_get acc' key = Some v /\ Phi v)) ->
  (forall s s' def, extends s s' -> good s def -> good s' def) ->
  forall l acc s acc' s',
    foldM f l acc s = Ret acc' s' -> NoDup (map fst l) ->
    forall key def, In (key, def) l -> good s def ->
                    exists v, alist_get acc' key = Some v /\ Phi v.
Proof.
  intros Hf Hgood. induction l as [|[k0 d0] r IH]; intros acc s acc' s' H Hnd key def Hin Hg;
    simpl in *; [contradiction|].
  apply bind_inv_Ret in H. destruct H as (acc1 & s1 & H1 & H2).
  inversion Hnd as [|? ? Hn0 Hnd']; subst.
  destruct (Hf _ _ _ _ _ _ H1) as (He & Ho & Hk).
  destruct Hin as [Heq | Hin].
  - inversion Heq; subst. destruct (Hk Hg) as (v & Hv & HP).
    exists v. split; [|assumption].
    rewrite (foldM_untouched f (fun a k d s a' s' H => proj1 (proj2 (Hf a k d s a' s' H)))
               _ _ _ _ _ key H2 Hn0).
    assumption.
  - eapply IH; eauto.
Qed.

Lemma create_field_step :
  (forall h, isEmpty h VUndefined = true) ->
  forall acc key def s acc' s',
    create_field acc (key, def) s = Ret acc' s' ->
    extends s s'
    /\ (forall k', k' <> key -> alist_get acc' k' = alist_get acc k')
    /\ (producers_defined (heap s) /\ fills (heap s) def ->
        exists v, alist_get acc' key = Some v /\ v <> VUndefined).
Proof.
  intros Hempty acc key def s acc' s' H.
  split; [eapply resp_Ret; [apply resp_ext_create_field | exact H]|].
  unfold create_field in H.
  apply bind_inv_Ret in H. destruct H as (val & s1 & Hval & H).
  assert (s1 = s) as ->.
  { destruct (is_undefined (prop acc key)).
    - apply get_inv in Hval; tauto.
    - inversion Hval; reflexivity. }
  unfold bind at 1, get_heap in H.
  destruct (ctor_of (heap s) def) as [[ | | | | |]|] eqn:Hc.
  1,5,6,7: (inversion H; subst; split; [reflexivity|];
            intros [_ [F | [F _]]]; congruence).
  - (* attr *)
    apply bind_inv_Ret in H. destruct H as (v & s2 & Hv & H). inversion H; subst.
    split; [intros; apply alist_get_set_neq; congruence|].
    intros [Hp [F | [_ (k & Hk & Ht)]]]; [congruence|].
    exists v. split; [apply alist_get_set_eq|].
    pose proof (getValueOrDefault_defined def val k Hempty Hk s (conj Hp Ht)) as G.
    rewrite Hv in G. exact G.
  - (* fragment *)
    apply bind_inv_Ret in H. destruct H as (v & s2 & Hv & H). inversion H; subst.
    split; [intros; apply alist_get_set_neq; congruence|].
    intros [_ [F | [F _]]]; congruence.
  - (* fragment array *)
    apply bind_inv_Ret in H. destruct H as (v & s2 & Hv & H). inversion H; subst.
    split; [intros; apply alist_get_set_neq; congruence|].
    intros _. exists v. split; [apply alist_get_set_eq|].
    destruct (truthy val) eqn:Tv.
    + inversion Hv; subst. intros ->. discriminate.
    + unfold new_array, bind, alloc, ret in Hv. inversion Hv. discriminate.
Qed.

Definition wf_alist (ps : alist) : Prop := NoDup (map fst ps).

Lemma alist_set_keys ps k v k' :
  In k' (map fst (alist_set ps k v)) <-> k' = k \/ In k' (map fst ps).
Proof.
  induction ps as [|[k0 v0] r IH]; simpl.
  - intuition.
  - destruct (String.eqb k0 k) eqn:E; simpl.
    + apply String.eqb_eq in E. subst. intuition.
    + rewrite IH. intuition.
Qed.

Lemma wf_alist_set ps k v : wf_alist ps -> wf_alist (alist_set ps k v).
Proof.
  unfold wf_alist. induction ps as [|[k0 v0] r IH]; simpl; intros H.
  - constructor; [intros [] | constructor].
  - inversion H as [|? ? Hn Hr]; subst.
    destruct (String.eqb k0 k) eqn:E; simpl.
    + apply String.eqb_eq in E. subst. constructor; assumption.
    + constructor; [|apply IH; assumption].
      rewrite alist_set_keys. intros [-> | Hin]; [|contradiction].
      rewrite String.eqb_refl in E. discriminate.
Qed.

Lemma wf_assign src : forall tgt, wf_alist tgt -> wf_alist (assign tgt src).
Proof.
  unfold assign. induction src as [|[k v] r IH]; intros tgt H; simpl; [assumption|].
  apply IH. apply wf_alist_set. assumption.
Qed.

Lemma alist_get_assign_other src : forall tgt k,
  ~ In k (map fst src) -> alist_get (assign tgt src) k = alist_get tgt k.
Proof.
  unfold assign. induction src as [|[k0 v0] r IH]; intros tgt k Hn; simpl in *; [reflexivity|].
  rewrite IH by tauto. apply alist_get_set_neq. intros ->. tauto.
Qed.

Lemma alist_get_In ps k v : alist_get ps k = Some v -> In k (map fst ps).
Proof.
  induction ps as [|[k0 v0] r IH]; simpl; [discriminate|].
  destruct (String.eqb k0 k) eqn:E; [apply String.eqb_eq in E; auto | auto].
Qed.

Lemma alist_get_assign src : forall tgt k v,
  wf_alist src -> alist_get src k = Some v -> alist_get (assign tgt src) k = Some v.
Proof.
  induction src as [|[k0 v0] r IH]; intros tgt k v Hwf Hg; simpl in *; [discriminate|].
  inversion Hwf as [|? ? Hn Hr]; subst.
  destruct (String.eqb k0 k) eqn:E.
  - apply String.eqb_eq in E. subst k0. inversion Hg; subst.
    change (alist_get (assign (alist_set tgt k v) r) k = Some v).
    rewrite alist_get_assign_other by assumption. apply alist_get_set_eq.
  - apply (IH (alist_set tgt k0 v0)); assumption.
Qed.

Lemma foldM_acc_inv {A B} (f : B -> A -> M B) (I : B -> Prop) :
  (forall acc x s acc' s', f acc x s = Ret acc' s' -> I acc -> I acc') ->
  forall l acc s acc' s', foldM f l acc s = Ret acc' s' -> I acc -> I acc'.
Proof.
  intros Hf. induction l as [|x r IH]; intros acc s acc' s' H HI; simpl in H.
  - inversion H; subst; assumption.
  - apply bind_inv_Ret in H. destruct H as (a1 & s1 & H1 & H2). eauto.
Qed.

Lemma create_field_wf acc kd s acc' s' :
  create_field acc kd s = Ret acc' s' -> wf_alist acc -> wf_alist acc'.
Proof.
  destruct kd as [key def]. unfold create_field. intros H Hwf.
  apply bind_inv_Ret in H. destruct H as (val & s1 & _ & H).
  unfold bind at 1, get_heap in H.
  destruct (ctor_of (heap s1) def) as [[ | | | | |]|];
    try (inversion H; subst; assumption);
    apply bind_inv_Ret in H; destruct H as (v & s2 & _ & H); inversion H; subst;
    apply wf_alist_set; assumption.
Qed.

(** What a returning call of [create] went through. *)
Lemma create_inv c props s r s' :
  create c props s = Ret r s' ->
  exists fd s1 iv s2 ext ps,
    getFieldDefs c s = Ret fd s1
    /\ foldM create_field (own_props (heap s1) fd)
             (if is_object_type (heap s) props then assign [] (own_props (heap s) props)
              else []) s1 = Ret iv s2
    /\ wf_alist iv
    /\ r = VRef (List.length (heap s2 ++ ext))
    /\ s' = mkState ((heap s2 ++ ext) ++ [Obj (CModel c) false (assign ps iv)])
                    (statics s2) (console s2).
Proof.
  unfold create. unfold bind at 1, get_heap. intros H.
  apply bind_inv_Ret in H. destruct H as (fd & s1 & Hfd & H).
  unfold bind at 1, get_heap in H.
  apply bind_inv_Ret in H. destruct H as (iv & s2 & Hiv & H).
  destruct (new_instance_spec c iv s2) as (ext & ps & E & _).
  rewrite E in H. inversion H; subst.
  exists fd, s1, iv, s2, ext, ps. repeat split; auto.
  eapply (foldM_acc_inv create_field wf_alist); [| exact Hiv |].
  - intros; eapply create_field_wf; eauto.
  - destruct (is_object_type (heap s) props); [apply wf_assign|]; constructor.
Qed.

(** What a returning call of [deserialize] went through: [null], or a call
    of the factory. *)
Lemma deserialize_inv fuel c json s r s' :
  deserialize fuel c json s = Ret r s' ->
  r = VNull \/ exists params s0, step_rel true s s0 /\ create c params s0 = Ret r s'.
Proof.
  destruct fuel as [|f]; simpl; [discriminate|]. intros H.
  apply bind_inv_Ret in H. destruct H as (j & s1 & Hj & H).
  apply bind_inv_Ret in H. destruct H as (u & s2 & Hfz & H).
  apply bind_inv_Ret in H. destruct H as (cj & s3 & Hcj & H).
  unfold deserialize_normalized in H.
  destruct (is_nullish cj); [inversion H; auto|]. right.
  apply bind_inv_Ret in H. destruct H as (fd & s4 & Hfd & H).
  unfold bind at 1, get_heap in H.
  apply bind_inv_Ret in H. destruct H as (mp & s5 & Hmp & H).
  apply bind_inv_Ret in H. destruct H as (params & s6 & Hpar & H).
  exists params, s6. split; [|assumption].
  assert (R1 : step_rel true s s1).
  { destruct json; try (inversion Hj; subst; apply step_rel_refl).
    apply extends_step_rel. eapply resp_Ret; [apply resp_ext_JSON_parse | exact Hj]. }
  assert (R2 : step_rel true s1 s2) by (eapply resp_Ret; [apply resp_step_freeze | exact Hfz]).
  assert (R3 : step_rel true s2 s3).
  { apply extends_step_rel. eapply resp_Ret; [apply resp_ext_camelizeObject | exact Hcj]. }
  assert (R4 : step_rel true s3 s4)
    by (eapply resp_Ret; [apply (resp_step_getFieldDefs true) | exact Hfd]).
  assert (R5 : step_rel true s4 s5).
  { eapply resp_Ret; [|exact Hmp].
    apply (resp_foldM _ (step_rel_refl true) (step_rel_trans true)).
    intros. apply resp_step_deserialize_field. intros. apply resp_step_deserialize. }
  assert (R6 : step_rel true s5 s6).
  { apply extends_step_rel. eapply resp_Ret; [apply resp_ext_new_object | exact Hpar]. }
  repeat (eapply step_rel_trans; [eassumption|]). apply step_rel_refl.
Qed.


(* ================================================================= *)
(** ** Plain-data trees *)

Lemma tree_mono d : forall d' n h v, (d <= d')%nat -> tree d n h v -> tree d' n h v.
Proof.
  induction d as [|d IH]; intros d' n h v Hle Ht.
  - destruct v; simpl in *; try contradiction; destruct d'; simpl; auto.
  - destruct d' as [|d']; [lia|].
    destruct v; simpl in *; auto.
    destruct Ht as [Hn Ht]. split; [assumption|].
    destruct (nth_error h l) as [[[] fr ps | fr es | b]|]; try contradiction.
    + eapply Forall_impl; [|exact Ht]. intros kv. apply IH. lia.
    + eapply Forall_impl; [|exact Ht]. intros x. apply IH. lia.
Qed.

Lemma tree_weaken d : forall n n' h v, (n' <= n)%nat -> tree d n h v -> tree d n' h v.
Proof.
  induction d as [|d IH]; intros n n' h v Hle Ht.
  - destruct v; simpl in *; auto.
  - destruct v; simpl in *; auto.
    destruct Ht as [Hn Ht]. split; [lia|].
    destruct (nth_error h l) as [[[] fr ps | fr es | b]|]; try contradiction.
    + eapply Forall_impl; [|exact Ht]. intros kv. apply IH. assumption.
    + eapply Forall_impl; [|exact Ht]. intros x. apply IH. assumption.
Qed.

(** A tree stays a tree along the frame: plain cells keep their content. *)
Lemma tree_step d : forall n s s' v,
  step_rel true s s' -> tree d n (heap s) v -> tree d n (heap s') v.
Proof.
  induction d as [|d IH]; intros n s s' v HR Ht.
  - destruct v; simpl in *; auto.
  - destruct v; simpl in *; auto.
    destruct Ht as [Hn Ht]. split; [assumption|].
    destruct (nth_error (heap s) l) as [c|] eqn:E; [|contradiction].
    pose proof HR as (_ & HC & _). destruct (HC l c E) as (c' & E' & Hev).
    rewrite E'.
    destruct c as [[] fr ps | fr es | b]; try contradiction; simpl in Hev.
    + assert (exists fr', c' = Obj CObject fr' ps) as [fr' ->].
      { destruct Hev as [-> | [_ ->]]; eauto. }
      eapply Forall_impl; [|exact Ht]. intros kv. apply IH. exact HR.
    + assert (exists fr', c' = Arr fr' es) as [fr' ->].
      { destruct Hev as [-> | [_ ->]]; eauto. }
      eapply Forall_impl; [|exact Ht]. intros x. apply IH. exact HR.
Qed.

Lemma tree_extends d n s s' v :
  extends s s' -> tree d n (heap s) v -> tree d n (heap s') v.
Proof. intros He. apply tree_step. apply extends_step_rel, He. Qed.

Lemma tree_prim d n h d' n' h' v :
  (forall l, v <> VRef l) -> tree d n h v -> tree d' n' h' v.
Proof.
  intros Hv. destruct v; try (destruct d, d'; simpl; tauto).
  exfalso. eapply Hv; reflexivity.
Qed.

Lemma Forall_alist_set (P : string * value -> Prop) ps k v :
  Forall P ps -> P (k, v) -> Forall P (alist_set ps k v).
Proof.
  intros H Hk. induction ps as [|[k0 v0] r IH]; simpl.
  - constructor; [assumption | constructor].
  - inversion H; subst. destruct (String.eqb k0 k); constructor; auto.
Qed.

Lemma tree_fresh_alloc d n s c v :
  tree d n (heap s) v ->
  tree d n (heap s ++ [c]) v.
Proof.
  revert v. induction d as [|d IH]; intros v Ht.
  - destruct v; simpl in *; auto.
  - destruct v; simpl in *; auto.
    destruct Ht as [Hn Ht]. split; [assumption|].
    destruct (nth_error (heap s) l) as [c0|] eqn:E; [|contradiction].
    rewrite nth_error_app1 by (apply nth_error_Some; congruence). rewrite E.
    destruct c0 as [[] fr ps | fr es | b]; try contradiction.
    + eapply Forall_impl; [|exact Ht]. intros kv. apply IH.
    + eapply Forall_impl; [|exact Ht]. intros x. apply IH.
Qed.

(** The key conversions copy a plain-data tree into new cells. *)
Lemma rename_keys_tree g : forall fuel d v s,
  tree d 0 (heap s) v ->
  post (rename_keys g fuel v s)
       (fun v' s' => extends s s' /\ tree d (List.length (heap s)) (heap s') v')
       (fun s' => extends s s').
Proof.
  induction fuel as [|f IH]; intros d v s Ht; simpl; [exact I|].
  unfold bind at 1, get_heap.
  destruct v; try (simpl; split; [apply extends_refl | eapply tree_prim; [|exact Ht]; congruence]).
  destruct d as [|d]; [simpl in Ht; contradiction|].
  simpl in Ht. destruct Ht as [_ Ht].
  destruct (nth_error (heap s) l) as [[[] fr ps | fr es | b]|] eqn:E; try contradiction.
  - (* a plain object *)
    eapply post_bind.
    + apply (triple_foldM
               (fun (acc : alist) s1 =>
                  extends s s1
                  /\ Forall (fun kv => tree d (List.length (heap s)) (heap s1) (snd kv)) acc)
               (fun s1 => extends s s1)).
      * intros acc kv Hin s1 [He Hacc].
        eapply post_bindE.
        -- apply (IH d (snd kv) s1). eapply tree_extends; [exact He|].
           rewrite Forall_forall in Ht. apply Ht, Hin.
        -- intros x s2 [He2 Hx]. simpl. split; [eapply extends_trans; eauto|].
           apply Forall_alist_set.
           ++ eapply Forall_impl; [|exact Hacc]. intros kv'. apply tree_extends, He2.
           ++ simpl. eapply tree_weaken; [|exact Hx]. apply extends_length, He.
        -- intros s2 He2. eapply extends_trans; eauto.
      * split; [apply extends_refl | constructor].
    + intros qs s1 [He Hqs]. simpl. split.
      * eapply extends_trans; [exact He|].
        eapply (resp_Ret extends (new_object qs) s1); [apply resp_ext_new_object | reflexivity].
      * split; [apply extends_length, He|].
        rewrite nth_error_last.
        eapply Forall_impl; [|exact Hqs]. intros kv. apply tree_fresh_alloc.
  - (* an array *)
    assert (G : forall (es0 : list value) s1,
               extends s s1 ->
               Forall (tree d 0 (heap s)) es0 ->
               post (mapM (rename_keys g f) es0 s1)
                    (fun vs s2 => extends s1 s2
                                  /\ Forall (tree d (List.length (heap s)) (heap s2)) vs)
                    (fun s2 => extends s1 s2)).
    { induction es0 as [|x r IHr]; intros s1 He Hes; simpl.
      - split; [apply extends_refl | constructor].
      - inversion Hes as [|? ? Hx Hr]; subst.
        eapply post_bindE.
        + apply (IH d x s1). eapply tree_extends; eauto.
        + intros y s2 [He2 Hy]. simpl.
          eapply post_bindE.
          * apply (IHr s2); [eapply extends_trans; eauto | assumption].
          * intros ys s3 [He3 Hys]. simpl. split; [eapply extends_trans; eauto|].
            constructor; [|assumption].
            eapply tree_weaken; [apply extends_length, He|].
            eapply tree_extends; [exact He3 | exact Hy].
          * intros s3 He3. eapply extends_trans; eauto.
        + intros s2 He2. exact He2. }
    eapply post_bindE.
    + apply (G es s (extends_refl s) Ht).
    + intros vs s1 [He Hvs]. simpl. split.
      * eapply extends_trans; [exact He|].
        eapply (resp_Ret extends (new_array vs) s1); [apply resp_ext_new_array | reflexivity].
      * split; [apply extends_length, He|].
        rewrite nth_error_last.
        eapply Forall_impl; [|exact Hvs]. intros x. apply tree_fresh_alloc.
    + auto.
Qed.

(** A parsed JSON text is built as a tree of new cells. *)
Lemma alloc_json_tree : forall j s,
  exists v s',
    alloc_json j s = Ret v s' /\ extends s s'
    /\ tree (jdepth j) (List.length (heap s)) (heap s') v.
Proof.
  fix IH 1. intros j s.
  destruct j as [ | b | n | t | xs | ps]; simpl;
    try (eexists; exists s; split; [reflexivity | split; [apply extends_refl | exact I]]).
  - (* array *)
    assert (G : forall s0,
               exists vs s1,
                 (fix go (l : list json) : M (list value) :=
                    match l with
                    | [] => ret []
                    | x :: r => v <- alloc_json x ;; vs <- go r ;; ret (v :: vs)
                    end) xs s0 = Ret vs s1
                 /\ extends s0 s1
                 /\ Forall (tree (fold_right (fun x a => Nat.max (jdepth x) a) 0 xs)
                                 (List.length (heap s0)) (heap s1)) vs).
    { induction xs as [|x r IHr]; intros s0.
      - exists [], s0. split; [reflexivity | split; [apply extends_refl | constructor]].
      - destruct (IH x s0) as (v & s1 & E1 & X1 & T1).
        destruct (IHr s1) as (vs & s2 & E2 & X2 & T2).
        exists (v :: vs), s2. split; [|split].
        + rewrite (bind_Ret _ _ _ _ _ E1). rewrite (bind_Ret _ _ _ _ _ E2). reflexivity.
        + eapply extends_trans; eauto.
        + simpl. constructor.
          * eapply tree_mono; [apply Nat.le_max_l|]. eapply tree_extends; eauto.
          * eapply Forall_impl; [|exact T2]. intros y Hy.
            eapply tree_mono; [apply Nat.le_max_r|].
            eapply tree_weaken; [apply extends_length, X1 | exact Hy]. }
    destruct (G s) as (vs & s1 & E1 & X1 & T1).
    exists (VRef (List.length (heap s1))),
      (mkState (heap s1 ++ [Arr false vs]) (statics s1) (console s1)).
    split; [|split].
    + rewrite (bind_Ret _ _ _ _ _ E1). reflexivity.
    + eapply extends_trans; [exact X1|].
      eapply (resp_Ret extends (new_array vs) s1); [apply resp_ext_new_array | reflexivity].
    + simpl. split; [apply extends_length, X1|]. rewrite nth_error_last.
      eapply Forall_impl; [|exact T1]. intros y. apply tree_fresh_alloc.
  - (* object *)
    assert (G : forall s0,
               exists qs s1,
                 (fix go (l : list (string * json)) : M alist :=
                    match l with
                    | [] => ret []
                    | (k, x) :: r => v <- alloc_json x ;; qs <- go r ;; ret ((k, v) :: qs)
                    end) ps s0 = Ret qs s1
                 /\ extends s0 s1
                 /\ Forall (fun kv =>
                              tree (fold_right (fun kx a => Nat.max (jdepth (snd kx)) a) 0 ps)
                                   (List.length (heap s0)) (heap s1) (snd kv)) qs).
    { induction ps as [|[k x] r IHr]; intros s0.
      - exists [], s0. split; [reflexivity | split; [apply extends_refl | constructor]].
      - destruct (IH x s0) as (v & s1 & E1 & X1 & T1).
        destruct (IHr s1) as (qs & s2 & E2 & X2 & T2).
        exists ((k, v) :: qs), s2. split; [|split].
        + rewrite (bind_Ret _ _ _ _ _ E1). rewrite (bind_Ret _ _ _ _ _ E2). reflexivity.
        + eapply extends_trans; eauto.
        + simpl. constructor.
          * simpl. eapply tree_mono; [apply Nat.le_max_l|]. eapply tree_extends; eauto.
          * eapply Forall_impl; [|exact T2]. intros y Hy.
            eapply tree_mono; [apply Nat.le_max_r|].
            eapply tree_weaken; [apply extends_length, X1 | exact Hy]. }
    destruct (G s) as (qs & s1 & E1 & X1 & T1).
    exists (VRef (List.length (heap s1))),
      (mkState (heap s1 ++ [Obj CObject false qs]) (statics s1) (console s1)).
    split; [|split].
    + rewrite (bind_Ret _ _ _ _ _ E1). reflexivity.
    + eapply extends_trans; [exact X1|].
      eapply (resp_Ret extends (new_object qs) s1); [apply resp_ext_new_object | reflexivity].
    + simpl. split; [apply extends_length, X1|]. rewrite nth_error_last.
      eapply Forall_impl; [|exact T1]. intros y. apply tree_fresh_alloc.
Qed.

(* ================================================================= *)
(** ** Deserialization freezes its input and nothing else of the caller's *)

Lemma step_false_kept o s s' : step_rel false s s' -> kept_except o s s'.
Proof.
  intros (_ & HC & _) l c Hl Hd _. destruct (HC l c Hl) as (c' & Hl' & Hev).
  rewrite Hl'. f_equal.
  destruct c as [ct fr ps | fr es | b]; simpl in *.
  - rewrite Hd in Hev. destruct Hev as [-> | [F _]]; [reflexivity | discriminate].
  - destruct Hev as [-> | [F _]]; [reflexivity | discriminate].
  - assumption.
Qed.

Lemma deser_inv_false s0 json d ws s s' :
  deser_inv s0 json d ws s -> step_rel false s s' -> deser_inv s0 json d ws s'.
Proof.
  intros (HK & HS & HT) HR. split; [|split].
  - intros l c Hl Hd Hne. eapply (step_false_kept json); eauto.
  - eapply step_rel_trans; [exact HS | apply step_rel_weaken, HR].
  - eapply Forall_impl; [|exact HT]. intros v. apply tree_step. apply step_rel_weaken, HR.
Qed.

Lemma deser_inv_ext s0 json d ws s s' :
  deser_inv s0 json d ws s -> extends s s' -> deser_inv s0 json d ws s'.
Proof. intros H He. eapply deser_inv_false; [exact H | apply extends_step_rel, He]. Qed.

Lemma deser_inv_nested s0 json d ws s s' val :
  deser_inv s0 json d ws s ->
  kept_except val s s' -> step_rel true s s' ->
  (forall l, val = VRef l -> (List.length (heap s0) <= l)%nat) ->
  deser_inv s0 json d ws s'.
Proof.
  intros (HK & HS & HT) HK' HS' Hfresh. split; [|split].
  - intros l c Hl Hd Hne. apply HK'; auto.
    intros <-. specialize (Hfresh l eq_refl).
    assert (l < List.length (heap s0))%nat by (apply nth_error_Some; congruence). lia.
  - eapply step_rel_trans; eauto.
  - eapply Forall_impl; [|exact HT]. intros v. apply tree_step. exact HS'.
Qed.

Lemma deser_inv_sub s0 json d ws ws' s :
  deser_inv s0 json d ws s -> incl ws' ws -> deser_inv s0 json d ws' s.
Proof.
  intros (HK & HS & HT) Hi. split; [|split]; auto.
  rewrite Forall_forall in *. auto.
Qed.

Lemma deser_inv_add s0 json d ws vs s :
  deser_inv s0 json d ws s ->
  Forall (tree d (List.length (heap s0)) (heap s)) vs ->
  deser_inv s0 json d (vs ++ ws) s.
Proof.
  intros (HK & HS & HT) Hv. split; [|split]; auto. apply Forall_app; auto.
Qed.

Lemma tree_ref_fresh d n h l : tree d n h (VRef l) -> (n <= l)%nat.
Proof. destruct d; simpl; tauto. Qed.

Lemma alist_get_some_In ps k x : alist_get ps k = Some x -> In (k, x) ps.
Proof.
  induction ps as [|[k0 v0] r IH]; simpl; [discriminate|].
  destruct (String.eqb k0 k) eqn:E.
  - apply String.eqb_eq in E. intros H; inversion H; subst; auto.
  - auto.
Qed.

Lemma indexed_In k x es : forall n, In (k, x) (indexed n es) -> In x es.
Proof.
  induction es as [|e r IH]; intros n; simpl; [tauto|].
  intros [H | H]; [inversion H; auto | right; eapply IH; eauto].
Qed.

(** What is read out of a tree is a tree. *)
Lemma tree_member d n h cj k val :
  tree d n h cj -> member h cj k = Some val -> tree d n h val.
Proof.
  intros Ht Hm.
  destruct cj as [ | | b | x | t | l | c | m]; simpl in Hm;
    try discriminate; try (inversion Hm; subst; destruct d; exact I).
  - inversion Hm; subst. destruct (String.eqb k "length"); destruct d; exact I.
  - destruct d as [|d]; [simpl in Ht; contradiction|].
    simpl in Ht. destruct Ht as [_ Ht].
    destruct (nth_error h l) as [[[] fr ps | fr es | b]|]; try contradiction.
    + inversion Hm; subst. destruct (alist_get ps k) eqn:G.
      * apply alist_get_some_In in G. rewrite Forall_forall in Ht.
        eapply tree_mono; [|apply (Ht _ G)]. lia.
      * exact I.
    + inversion Hm; subst. destruct (String.eqb k "length"); [exact I|].
      unfold prop. destruct (alist_get (indexed 0 es) k) eqn:G; [|exact I].
      apply alist_get_some_In, indexed_In in G. rewrite Forall_forall in Ht.
      eapply tree_mono; [|apply (Ht _ G)]. lia.
Qed.

Lemma tree_array_elems d n h v vs :
  tree d n h v -> array_elems h v = Some vs -> Forall (tree d n h) vs.
Proof.
  intros Ht Ha. destruct v; simpl in Ha; try discriminate.
  destruct d as [|d]; [simpl in Ht; contradiction|].
  simpl in Ht. destruct Ht as [_ Ht].
  destruct (nth_error h l) as [[[] fr ps | fr es | b]|]; try discriminate; try contradiction.
  inversion Ha; subst. eapply Forall_impl; [|exact Ht]. intros x. apply tree_mono. lia.
Qed.

Lemma triple_get_heap (P : state -> Prop) (E : state -> Prop) :
  triple P get_heap (fun h s => P s /\ h = heap s) E.
Proof. intros s Hs. simpl. auto. Qed.

Lemma triple_throw {A} (P : state -> Prop) e (Q : A -> state -> Prop) :
  triple P (throw e) Q P.
Proof. intros s Hs. exact Hs. Qed.

Lemma triple_ext {A} (P : state -> Prop) (m : M A) :
  resp extends m -> (forall s s', P s -> extends s s' -> P s') ->
  triple P m (fun _ => P) P.
Proof. intros Hm HP. apply (resp_triple extends); assumption. Qed.

Section Nested.

Variable rec : class_id -> value -> M value.
Hypothesis rec_ok : nested_ok rec.

Variables (s0 : state) (json : value) (d : nat).

Let Inv := deser_inv s0 json d.

Lemma type_deserialize_inv ws def val :
  In val ws ->
  triple (Inv ws) (type_deserialize rec def val) (fun _ => Inv ws) (Inv ws).
Proof.
  intros Hin. unfold type_deserialize.
  eapply triple_bind.
  { apply triple_ext; [apply resp_ext_get | apply deser_inv_ext]. }
  intros t. destruct t; try apply triple_throw.
  intros s HI.
  assert (Ht : tree d (List.length (heap s0)) (heap s) val).
  { destruct HI as (_ & _ & HT). rewrite Forall_forall in HT. auto. }
  eapply post_weaken.
  - apply (rec_ok c val s). exists d. eapply tree_weaken; [|exact Ht]. lia.
  - intros r s' [HK HS]. eapply deser_inv_nested; eauto.
    intros l ->. eapply tree_ref_fresh; eauto.
  - intros s' [HK HS]. eapply deser_inv_nested; eauto.
    intros l ->. eapply tree_ref_fresh; eauto.
Qed.

Lemma deserialize_field_inv ws cj obj kd :
  In cj ws ->
  triple (Inv ws) (deserialize_field rec cj obj kd) (fun _ => Inv ws) (Inv ws).
Proof.
  intros Hin. destruct kd as [key def]. unfold deserialize_field.
  eapply triple_bind.
  { apply triple_ext; [apply resp_ext_wire_key | apply deser_inv_ext]. }
  intros apiKey. eapply triple_bind; [apply triple_get; auto|].
  intros val. eapply triple_bind; [apply triple_get_heap|].
  intros h. simpl.
  assert (W : forall s, (Inv ws s /\ member (heap s) cj apiKey = Some val) /\ h = heap s ->
                        Inv ([val] ++ ws) s).
  { intros s [[HI Hm] _]. apply deser_inv_add; [exact HI|].
    constructor; [|constructor].
    destruct HI as (_ & _ & HT). rewrite Forall_forall in HT.
    eapply tree_member; [apply HT, Hin | exact Hm]. }
  assert (D : forall s, Inv ([val] ++ ws) s -> Inv ws s).
  { intros s HI. eapply deser_inv_sub; [exact HI|]. apply incl_appr, incl_refl. }
  assert (Y : forall s, (Inv ws s /\ member (heap s) cj apiKey = Some val) /\ h = heap s ->
                        Inv ws s) by (intros s [[HI _] _]; exact HI).
  destruct (ctor_of h def) as [[ | | | | |]|] eqn:Hc;
    try (apply triple_ret; exact Y).
  - (* scalar *)
    eapply triple_bind.
    { eapply triple_pre; [|exact Y].
      apply (triple_ext (Inv ws)); [apply resp_ext_getValueOrDefault | apply deser_inv_ext]. }
    intros v. apply triple_ret. auto.
  - (* fragment *)
    eapply triple_bind.
    { eapply triple_weaken;
        [apply (type_deserialize_inv ([val] ++ ws) def val); left; reflexivity
        | exact W | intros a s; apply D | exact D]. }
    intros v. apply triple_ret. auto.
  - (* fragment array *)
    destruct (array_elems h val) as [vs|] eqn:Ha.
    + assert (W' : forall s,
                 (Inv ws s /\ member (heap s) cj apiKey = Some val) /\ h = heap s ->
                 Inv (vs ++ ws) s).
      { intros s [[HI Hm] ->]. apply deser_inv_add; [exact HI|].
        eapply tree_array_elems; [|exact Ha].
        destruct HI as (_ & _ & HT). rewrite Forall_forall in HT.
        eapply tree_member; [apply HT, Hin | exact Hm]. }
      assert (D' : forall s, Inv (vs ++ ws) s -> Inv ws s).
      { intros s HI. eapply deser_inv_sub; [exact HI|]. apply incl_appr, incl_refl. }
      eapply triple_bind.
      { eapply triple_weaken;
          [apply (triple_mapM (Inv (vs ++ ws)) (fun _ => True) (Inv (vs ++ ws)))
          | exact W' | intros a s [HI _]; apply D', HI | exact D'].
        intros x Hx. eapply triple_weaken;
          [apply (type_deserialize_inv (vs ++ ws) def x); apply in_or_app; auto
          | auto | simpl; auto | auto]. }
      intros ws'. eapply triple_bind.
      { apply triple_ext; [apply resp_ext_new_array | apply deser_inv_ext]. }
      intros a. apply triple_ret. auto.
    + eapply triple_bind.
      { eapply triple_pre; [|exact Y].
        apply (triple_ext (Inv ws)); [apply resp_ext_new_array | apply deser_inv_ext]. }
      intros a. apply triple_ret. auto.
Qed.

Lemma deserialize_normalized_inv c cj :
  triple (Inv [cj]) (deserialize_normalized rec c cj) (fun _ => Inv [cj]) (Inv [cj]).
Proof.
  unfold deserialize_normalized.
  destruct (is_nullish cj); [apply triple_ret; auto|].
  eapply triple_bind.
  { apply (resp_triple (step_rel false));
      [apply resp_step_getFieldDefs | apply deser_inv_false]. }
  intros fd. eapply triple_bind.
  { apply (resp_triple (step_rel false));
      [apply (resp_get_heap _ (step_rel_refl false)) | apply deser_inv_false]. }
  intros h. eapply triple_bind.
  { apply (triple_foldM (fun _ => Inv [cj]) (Inv [cj])).
    intros acc x _. apply deserialize_field_inv. left; reflexivity. }
  intros mp. eapply triple_bind.
  { apply triple_ext; [apply resp_ext_new_object | apply deser_inv_ext]. }
  intros params.
  apply (resp_triple (step_rel false)); [apply resp_step_create | apply deser_inv_false].
Qed.

End Nested.

Lemma freeze_kept v s :
  post (freeze v s) (fun _ s' => kept_except v s s') (fun s' => kept_except v s s').
Proof.
  unfold freeze, bind, get_heap.
  assert (R : kept_except v s s) by (intros l c H _ _; exact H).
  destruct v; simpl; auto.
  destruct (nth_error (heap s) l) as [[ct fr ps | fr es | b]|] eqn:Hl; simpl; auto;
    intros l0 c0 H0 _ Hne; simpl;
    (rewrite nth_error_update_neq; [assumption | congruence]).
Qed.

(** Deserializing plain data keeps every cell that is not a descriptor as it
    was, the input itself apart. *)
Lemma deserialize_kept : forall fuel c json s,
  pojo (heap s) json ->
  post (deserialize fuel c json s)
       (fun _ s' => kept_except json s s' /\ step_rel true s s')
       (fun s' => kept_except json s s' /\ step_rel true s s').
Proof.
  induction fuel as [|f IH]; intros c json s [d Hd]; simpl; [exact I|].
  assert (Hrec : nested_ok (deserialize f)) by (intros c0 v s0 Hp; apply IH, Hp).
  (* the input, parsed when it is a text *)
  assert (P1 : post ((match json with VStr t => JSON_parse t | _ => ret json end) s)
                    (fun j s1 => exists d1,
                         extends s s1 /\ tree d1 0 (heap s1) j
                         /\ (j = json \/ forall l, j = VRef l -> (List.length (heap s) <= l)%nat))
                    (fun s1 => s1 = s)).
  { destruct json; try (simpl; exists d; split; [apply extends_refl | auto]).
    unfold JSON_parse. destruct (JSON_parse_text s0); [|reflexivity].
    destruct (alloc_json_tree j s) as (v & s1 & E & X & T). rewrite E. simpl.
    exists (jdepth j). split; [assumption|]. split.
    - eapply tree_weaken; [|exact T]. lia.
    - right. intros l ->. eapply tree_ref_fresh; eauto. }
  assert (E0 : forall s1, s1 = s -> kept_except json s s1 /\ step_rel true s s1).
  { intros s1 ->. split; [intros l c0 H _ _; exact H | apply step_rel_refl]. }
  eapply post_bindE; [exact P1 | | exact E0].
  intros j s1 (d1 & X1 & T1 & Hj).
  eapply post_bindE;
    [apply (post_and _ _ _ _ _ (freeze_kept j s1) (resp_step_freeze j s1)) | | ].
  2:{ (* freeze does not fail; the frame is kept all the same *)
      intros s2 [K2 S2]. split.
      - intros l c0 Hl Hdef Hne. apply K2; auto.
        + eapply extends_nth; eauto.
        + destruct Hj as [-> | Hj]; [assumption|].
          intros <-. specialize (Hj l eq_refl).
          assert (l < List.length (heap s))%nat by (apply nth_error_Some; congruence). lia.
      - eapply step_rel_trans; [apply extends_step_rel, X1 | exact S2]. }
  intros u s2 [K2 S2].
  assert (I2 : deser_inv s json d1 [] s2).
  { split; [|split]; [| | constructor].
    - intros l c0 Hl Hdef Hne. apply K2; auto.
      + eapply extends_nth; eauto.
      + destruct Hj as [-> | Hj]; [assumption|].
        intros <-. specialize (Hj l eq_refl).
        assert (l < List.length (heap s))%nat by (apply nth_error_Some; congruence). lia.
    - eapply step_rel_trans; [apply extends_step_rel, X1 | exact S2]. }
  assert (Out : forall s', deser_inv s json d1 [] s' ->
                           kept_except json s s' /\ step_rel true s s').
  { intros s' (A & B & _). auto. }
  unfold camelizeObject. unfold bind at 1, get_heap.
  eapply post_bindE.
  - apply (rename_keys_tree camelize (S (List.length (heap s2))) d1 j s2).
    eapply tree_step; [exact S2 | exact T1].
  - intros cj s3 [X3 T3].
    assert (I3 : deser_inv s json d1 [cj] s3).
    { apply (deser_inv_add s json d1 [] [cj]).
      - eapply deser_inv_ext; eauto.
      - constructor; [|constructor].
        eapply tree_weaken; [|exact T3].
        destruct I2 as (_ & (L & _) & _). exact L. }
    eapply post_weaken.
    + apply (deserialize_normalized_inv (deserialize f) Hrec s json d1 c cj s3 I3).
    + intros r s' HI. apply Out. eapply deser_inv_sub; [exact HI | apply incl_nil_l].
    + intros s' HI. apply Out. eapply deser_inv_sub; [exact HI | apply incl_nil_l].
  - intros s3 X3. apply Out. eapply deser_inv_ext; eauto.
Qed.

#[local] Hint Resolve resp_step_deserialize : resp_db.

Lemma post_ends {A} (m : M A) (s s' : state) (Q : state -> Prop) :
  post (m s) (fun _ => Q) Q -> ends_in m s s' -> Q s'.
Proof. intros P [[a E] | [e E]]; rewrite E in P; exact P. Qed.

(** C10 (amended).  [deserialize], called on a plain object [o], freezes
    [o] itself before anything else: the call goes on, in the store where
    [o] is frozen, with the normalization of [o] and the reading of the
    fields; however it ends, normally or not, the cell of [o] is the
    caller's object with the same properties, frozen, so that an assignment
    to a property of [o], old or new, is refused and so is the removal of
    one; and when [o] is plain data throughout
    (plain objects, arrays and primitive values), every other object of the
    caller that is not a field descriptor, the objects nested in [o] among
    them, is exactly as it was, and so no more frozen than before. *)
Theorem deserialize_freezes_its_argument :
  forall (fuel : nat) (c : class_id) (o : loc) (fr : bool) (ps : alist) (s : state),
    nth_error (heap s) o = Some (Obj CObject fr ps) ->
    deserialize (S fuel) c (VRef o) s
    = (camelizedJson <- camelizeObject (VRef o) ;;
       deserialize_normalized (deserialize fuel) c camelizedJson)
        (mkState (update (heap s) o (Obj CObject true ps)) (statics s) (console s))
    /\ (forall s', ends_in (deserialize (S fuel) c (VRef o)) s s' -> frozen_input o ps s')
    /\ (pojo (heap s) (VRef o) ->
        forall s', ends_in (deserialize (S fuel) c (VRef o)) s s' ->
                   input_frozen_only s o ps s').
Proof.
  intros fuel c o fr ps s Ho.
  set (s1 := mkState (update (heap s) o (Obj CObject true ps)) (statics s) (console s)).
  assert (Fz : freeze (VRef o) s = Ret tt s1).
  { unfold freeze, bind, get_heap. rewrite Ho. reflexivity. }
  assert (E : deserialize (S fuel) c (VRef o) s
              = (camelizedJson <- camelizeObject (VRef o) ;;
                 deserialize_normalized (deserialize fuel) c camelizedJson) s1).
  { simpl. rewrite (bind_Ret _ _ s (VRef o) s eq_refl).
    rewrite (bind_Ret _ _ s tt s1 Fz). reflexivity. }
  assert (F : post (deserialize (S fuel) c (VRef o) s)
                   (fun _ s' => nth_error (heap s') o = Some (Obj CObject true ps))
                   (fun s' => nth_error (heap s') o = Some (Obj CObject true ps))).
  { rewrite E.
    assert (H1 : nth_error (heap s1) o = Some (Obj CObject true ps))
      by (subst s1; simpl; eapply nth_error_update_eq; eauto).
    assert (R : resp (step_rel true)
                     (cj <- camelizeObject (VRef o) ;;
                      deserialize_normalized (deserialize fuel) c cj)) by step_go true.
    assert (G : forall s', step_rel true s1 s' ->
                           nth_error (heap s') o = Some (Obj CObject true ps)).
    { intros s' (_ & HC & _). destruct (HC o _ H1) as (c' & Hc' & Hev).
      simpl in Hev. rewrite Hc'. destruct Hev as [-> | [_ ->]]; reflexivity. }
    eapply post_weaken; [apply (R s1) | |]; simpl; auto. }
  assert (Refused : forall s', nth_error (heap s') o = Some (Obj CObject true ps) ->
                               forall k v, set_prop o k v s'
                                           = Throw (TypeError "Cannot assign to read only property")
                                                   s').
  { intros s' Hf k v. unfold set_prop, bind, get_heap. rewrite Hf. reflexivity. }
  assert (Kept : forall s', nth_error (heap s') o = Some (Obj CObject true ps) ->
                            forall k, alist_get ps k <> None ->
                                      delete_prop o k s'
                                      = Throw (TypeError "Cannot delete property") s').
  { intros s' Hf k Hk. unfold delete_prop, bind, get_heap. rewrite Hf.
    destruct (alist_get ps k); [reflexivity | congruence]. }
  split; [exact E|]. split.
  - intros s' He.
    assert (Hf : nth_error (heap s') o = Some (Obj CObject true ps))
      by (apply (post_ends _ s s' _ F He)).
    split; [assumption | split; [apply Refused | apply Kept]; assumption].
  - intros Hp s' He.
    assert (K := deserialize_kept (S fuel) c (VRef o) s Hp).
    assert (Hf : nth_error (heap s') o = Some (Obj CObject true ps))
      by (apply (post_ends _ s s' _ F He)).
    assert (Hk : kept_except (VRef o) s s' /\ step_rel true s s')
      by (apply (post_ends _ s s' _ K He)).
    split; [assumption|]. split; [apply Refused; assumption|].
    split; [apply Kept; assumption|].
    intros l cl Hne Hl Hd.
    assert (Hl' : nth_error (heap s') l = Some cl) by (apply (proj1 Hk); auto; congruence).
    split; [assumption|]. unfold is_frozen. rewrite Hl, Hl'. reflexivity.
Qed.

(* ================================================================= *)
(** ** More on coercion *)

Lemma kind_is_refl k : kind_is (VStr k) k = true.
Proof. unfold kind_is. simpl. apply String.eqb_refl. Qed.

(** The first branch of [getValueOrDefault], taken on an empty raw value
    when the declared default is no function. *)
Lemma getValueOrDefault_on_empty fieldDef val dv s :
  isEmpty (heap s) val = true ->
  member (heap s) fieldDef "defaultValue" = Some dv ->
  is_function (heap s) dv = false ->
  getValueOrDefault fieldDef val s
  = (if negb (is_undefined dv) then ret dv
     else
       type <- get fieldDef "type" ;;
       if kind_is type "number" then ret VNull
       else if kind_is type "boolean" then ret (VBool false)
       else if kind_is type "string" then ret (VStr EmptyString)
       else if kind_is type "enum" then ret VNull
       else if kind_is type "array" then new_array []
       else coerce fieldDef val) s.
Proof.
  intros He Hdv Hf. unfold getValueOrDefault. unfold bind at 1, get_heap. rewrite He.
  rewrite (bind_Ret _ _ s _ s (get_Ret _ _ _ _ Hdv)). rewrite Hf.
  reflexivity.
Qed.

(** The zero value of a kind, taken when nothing is declared. *)
Lemma getValueOrDefault_kind_default fieldDef val s k :
  isEmpty (heap s) val = true ->
  member (heap s) fieldDef "defaultValue" = Some VUndefined ->
  member (heap s) fieldDef "type" = Some (VStr k) ->
  (k = "number" \/ k = "enum" -> getValueOrDefault fieldDef val s = Ret VNull s)
  /\ (k = "boolean" -> getValueOrDefault fieldDef val s = Ret (VBool false) s)
  /\ (k = "string" -> getValueOrDefault fieldDef val s = Ret (VStr EmptyString) s)
  /\ (k = "array" ->
      getValueOrDefault fieldDef val s
      = Ret (VRef (List.length (heap s))) (grow s [Arr false []])).
Proof.
  intros He Hdv Hk.
  rewrite (getValueOrDefault_on_empty fieldDef val VUndefined s He Hdv eq_refl).
  cbn [negb is_undefined].
  rewrite (bind_Ret _ _ s _ s (get_Ret _ _ _ _ Hk)).
  repeat split.
  - intros [-> | ->]; reflexivity.
  - intros ->; reflexivity.
  - intros ->; reflexivity.
  - intros ->; reflexivity.
Qed.

(** X1.  An empty raw value takes the declared default as it is, with no
    coercion to the field's kind, when the descriptor declares a default
    that is not a function; with no default declared it takes the zero value
    of a known kind: [null] for number and enum, [false] for boolean, the
    empty string for string, and a new empty array for array. *)
Theorem empty_value_takes_default :
  forall (fieldDef val dv : value) (s : state),
    isEmpty (heap s) val = true ->
    member (heap s) fieldDef "defaultValue" = Some dv ->
    is_function (heap s) dv = false ->
    (dv <> VUndefined -> getValueOrDefault fieldDef val s = Ret dv s)
    /\ (dv = VUndefined ->
        forall k, member (heap s) fieldDef "type" = Some (VStr k) ->
          (k = "number" \/ k = "enum" -> getValueOrDefault fieldDef val s = Ret VNull s)
          /\ (k = "boolean" -> getValueOrDefault fieldDef val s = Ret (VBool false) s)
          /\ (k = "string" -> getValueOrDefault fieldDef val s = Ret (VStr EmptyString) s)
          /\ (k = "array" ->
              getValueOrDefault fieldDef val s
              = Ret (VRef (List.length (heap s))) (grow s [Arr false []]))).
Proof.
  intros fieldDef val dv s He Hdv Hf. split.
  - intros Hne. rewrite (getValueOrDefault_on_empty fieldDef val dv s He Hdv Hf).
    destruct dv; try reflexivity. congruence.
  - intros E k Hk. subst dv.
    apply (getValueOrDefault_kind_default fieldDef val s k He Hdv Hk).
Qed.

(** X2.  A default declared as a producer is invoked each time an empty raw
    value arrives, and what it returns is the field's value when it is
    defined; a producer of a new array gives every instance an array of its
    own. *)
Theorem empty_value_invokes_producer :
  forall (fieldDef val : value) (p : loc) (s : state),
    isEmpty (heap s) val = true ->
    member (heap s) fieldDef "defaultValue" = Some (VRef p) ->
    (forall v, nth_error (heap s) p = Some (Fn (PConst v)) -> v <> VUndefined ->
               getValueOrDefault fieldDef val s = Ret v s)
    /\ (forall vs, nth_error (heap s) p = Some (Fn (PFreshArray vs)) ->
                   getValueOrDefault fieldDef val s
                   = Ret (VRef (List.length (heap s))) (grow s [Arr false vs])).
Proof.
  intros fieldDef val p s He Hdv.
  assert (E : forall b, nth_error (heap s) p = Some (Fn b) ->
              getValueOrDefault fieldDef val s
              = (defaultVal <- call (VRef p) ;;
                 if negb (is_undefined defaultVal) then ret defaultVal
                 else
                   type <- get fieldDef "type" ;;
                   if kind_is type "number" then ret VNull
                   else if kind_is type "boolean" then ret (VBool false)
                   else if kind_is type "string" then ret (VStr EmptyString)
                   else if kind_is type "enum" then ret VNull
                   else if kind_is type "array" then new_array []
                   else coerce fieldDef val) s).
  { intros b Hb. unfold getValueOrDefault. unfold bind at 1, get_heap. rewrite He.
    rewrite (bind_Ret _ _ s _ s (get_Ret _ _ _ _ Hdv)).
    unfold is_function. rewrite Hb. reflexivity. }
  split.
  - intros v Hp Hv. rewrite (E _ Hp).
    rewrite (bind_Ret _ _ s v s).
    + destruct v; try reflexivity. congruence.
    + unfold call, bind, get_heap. rewrite Hp. reflexivity.
  - intros vs Hp. rewrite (E _ Hp).
    rewrite (bind_Ret _ _ s (VRef (List.length (heap s))) (grow s [Arr false vs])).
    + reflexivity.
    + unfold call, bind, get_heap. rewrite Hp. reflexivity.
Qed.

(** The array branch of the coercion. *)
Lemma array_coercion_branch fieldDef val s :
  member (heap s) fieldDef "type" = Some (VStr "array") ->
  isEmpty (heap s) val = false ->
  is_function (heap s) val = false ->
  getValueOrDefault fieldDef val s
  = (if is_array (heap s) val then ret val else new_array []) s.
Proof.
  intros Ht He Hf. unfold getValueOrDefault. unfold bind at 1, get_heap. rewrite He, Hf.
  unfold coerce. rewrite (bind_Ret _ _ s _ s (get_Ret _ _ _ _ Ht)).
  reflexivity.
Qed.

(** X3.  For an array-kind field a non-empty raw value that is an array is
    handed back as the same object, not a copy, so that the field shares it
    with whoever supplied it; any other non-empty value that is no producer
    is replaced by a new empty array. *)
Theorem array_coercion_shares_the_array :
  forall (fieldDef val : value) (s : state),
    member (heap s) fieldDef "type" = Some (VStr "array") ->
    isEmpty (heap s) val = false ->
    is_function (heap s) val = false ->
    (is_array (heap s) val = true -> getValueOrDefault fieldDef val s = Ret val s)
    /\ (is_array (heap s) val = false ->
        getValueOrDefault fieldDef val s
        = Ret (VRef (List.length (heap s))) (grow s [Arr false []])).
Proof.
  intros fieldDef val s Ht He Hf.
  split; intros Ha; rewrite (array_coercion_branch fieldDef val s Ht He Hf), Ha;
    reflexivity.
Qed.

Lemma to_string_VStr fuel h t : to_string (S fuel) h (VStr t) = Some t.
Proof. reflexivity. Qed.

Lemma coerce_string_text fieldDef t s :
  member (heap s) fieldDef "type" = Some (VStr "string") ->
  isNone (heap s) (VStr t) = false ->
  coerce fieldDef (VStr t) s = Ret (VStr t) s.
Proof.
  intros Ht Hn. unfold coerce.
  rewrite (bind_Ret _ _ s _ s (get_Ret _ _ _ _ Ht)).
  unfold bind at 1, get_heap. cbn [kind_is strict_equal String.eqb Ascii.eqb Bool.eqb].
  rewrite Hn. reflexivity.
Qed.

Lemma coerce_number_num fieldDef n s :
  member (heap s) fieldDef "type" = Some (VStr "number") ->
  num_is_nan n = false ->
  coerce fieldDef (VNum n) s = Ret (VNum (parseFloat_text (num_to_string n))) s.
Proof.
  intros Ht Hn. unfold coerce.
  rewrite (bind_Ret _ _ s _ s (get_Ret _ _ _ _ Ht)).
  unfold bind at 1, get_heap. cbn [kind_is strict_equal String.eqb Ascii.eqb Bool.eqb].
  unfold isNaN. unfold bind at 1, ret at 1. rewrite Hn.
  reflexivity.
Qed.

(** A value that is stable for its kind is what coercion returns for it,
    and the store is not touched. *)
Lemma getValueOrDefault_stable fieldDef kind v s :
  helpers_as_specified ->
  member (heap s) fieldDef "type" = Some (VStr kind) ->
  member (heap s) fieldDef "defaultValue" = Some VUndefined ->
  stable_value kind v ->
  getValueOrDefault fieldDef v s = Ret v s.
Proof.
  intros (E1 & E2 & E3 & E4 & E5 & N1) Ht Hd Hs.
  assert (Z : forall val, isEmpty (heap s) val = true ->
              forall k, kind = k ->
              (k = "number" \/ k = "enum" -> getValueOrDefault fieldDef val s = Ret VNull s)
              /\ (k = "boolean" -> getValueOrDefault fieldDef val s = Ret (VBool false) s)
              /\ (k = "string" -> getValueOrDefault fieldDef val s = Ret (VStr EmptyString) s)
              /\ (k = "array" ->
                  getValueOrDefault fieldDef val s
                  = Ret (VRef (List.length (heap s))) (grow s [Arr false []]))).
  { intros val He k <-.
    apply (getValueOrDefault_kind_default fieldDef val s kind He Hd Ht). }
  destruct Hs as [[-> [t ->]] | [[-> [b ->]] | [-> [-> | (n & -> & Hn & Hp & _)]]]].
  - (* string *)
    destruct (isEmpty (heap s) (VStr t)) eqn:He.
    + destruct (string_dec t EmptyString) as [-> | Hne].
      * apply (Z _ He "string" eq_refl). reflexivity.
      * rewrite E5 in He by assumption. discriminate.
    + unfold getValueOrDefault. unfold bind at 1, get_heap. rewrite He. cbn [is_function].
      destruct (string_dec t EmptyString) as [-> | Hne].
      * unfold coerce. rewrite (bind_Ret _ _ s _ s (get_Ret _ _ _ _ Ht)).
        unfold bind at 1, get_heap.
        cbn [kind_is strict_equal String.eqb Ascii.eqb Bool.eqb].
        destruct (isNone (heap s) (VStr EmptyString)); reflexivity.
      * apply coerce_string_text; auto.
  - (* boolean *)
    unfold getValueOrDefault. unfold bind at 1, get_heap. rewrite E3. cbn [is_function]. rewrite (coerce_boolean fieldDef (VBool b) s (if b then "true" else "false") Ht eq_refl).
    destruct b; reflexivity.
  - (* number, null *)
    apply (Z _ (E2 _) "number" eq_refl). left; reflexivity.
  - (* number *)
    unfold getValueOrDefault. unfold bind at 1, get_heap. rewrite E4. cbn [is_function]. rewrite (coerce_number_num fieldDef n s Ht Hn). rewrite Hp. reflexivity.
Qed.

(** X4.  [deserialize] coerces each scalar twice, in its reducer and again
    in [create].  For a string-kind or boolean-kind field without declared
    default the second coercion changes nothing: what coercion returns for
    a raw value that is no producer, coercion returns for it again. *)
Theorem coercion_is_idempotent_for_string_and_boolean :
  helpers_as_specified ->
  forall (fieldDef val v : value) (kind : string) (s s' : state),
    kind = "string" \/ kind = "boolean" ->
    member (heap s) fieldDef "type" = Some (VStr kind) ->
    member (heap s) fieldDef "defaultValue" = Some VUndefined ->
    is_function (heap s) val = false ->
    getValueOrDefault fieldDef val s = Ret v s' ->
    s' = s /\ getValueOrDefault fieldDef v s = Ret v s.
Proof.
  intros HH fieldDef val v kind s s' Hk Ht Hd Hf H.
  assert (St : stable_value kind v /\ s' = s).
  { pose proof HH as (E1 & E2 & E3 & E4 & E5 & N1).
    destruct (isEmpty (heap s) val) eqn:He.
    - pose proof (getValueOrDefault_kind_default fieldDef val s kind He Hd Ht)
        as (_ & Zb & Zs & _).
      destruct Hk as [-> | ->].
      + rewrite (Zs eq_refl) in H. inversion H; subst. split; [|reflexivity].
        left. split; [reflexivity | eauto].
      + rewrite (Zb eq_refl) in H. inversion H; subst. split; [|reflexivity].
        right; left. split; [reflexivity | eauto].
    - unfold getValueOrDefault in H. unfold bind at 1, get_heap in H.
      rewrite He, Hf in H. unfold coerce in H.
      rewrite (bind_Ret _ _ s _ s (get_Ret _ _ _ _ Ht)) in H.
      unfold bind at 1, get_heap in H.
      destruct Hk as [-> | ->];
        cbn [kind_is strict_equal String.eqb Ascii.eqb Bool.eqb] in H.
      + destruct (isNone (heap s) val).
        * inversion H; subst. split; [|reflexivity]. left. split; [reflexivity | eauto].
        * unfold toString, bind, get_heap in H.
          destruct (to_string (S (List.length (heap s))) (heap s) val); [|discriminate].
          inversion H; subst. split; [|reflexivity]. left. split; [reflexivity | eauto].
      + unfold toString, bind, get_heap in H.
        destruct (to_string (S (List.length (heap s))) (heap s) val); [|discriminate].
        simpl in H. destruct (JSON_parse_text s0); [|discriminate].
        inversion H; subst. split; [|reflexivity]. right; left. split; [reflexivity | eauto]. }
  destruct St as [St ->]. split; [reflexivity|].
  eapply getValueOrDefault_stable; eauto.
Qed.


(* ================================================================= *)
(** ** Edge cases of [deserialize], the schema cache, and what the
       operations leave alone *)

(** [deserialize] of [undefined]: what a nested record gets when the wire
    does not carry it. *)
Lemma deserialize_undefined fuel c s : deserialize (S fuel) c VUndefined s = Ret VNull s.
Proof. destruct s. reflexivity. Qed.

(** X5.  [deserialize] of [null] or [undefined], or of the JSON text
    [null], is [null]: no instance is made, the schema is not derived and
    the state is what it was. *)
Theorem deserialize_of_nothing_is_null :
  forall (fuel : nat) (c : class_id) (s : state),
    deserialize (S fuel) c VNull s = Ret VNull s
    /\ deserialize (S fuel) c VUndefined s = Ret VNull s
    /\ deserialize (S fuel) c (VStr "null") s = Ret VNull s.
Proof.
  intros fuel c s. split; [|split].
  - destruct s. reflexivity.
  - apply deserialize_undefined.
  - change (deserialize (S fuel) c (VStr "null") s)
      with ((json <- JSON_parse "null" ;;
             freeze json ;;;
             camelizedJson <- camelizeObject json ;;
             deserialize_normalized (deserialize fuel) c camelizedJson) s).
    rewrite (bind_Ret _ _ s VNull s) by reflexivity.
    destruct s. reflexivity.
Qed.

(** X6.  [deserialize] of a text that is not JSON fails with the
    [SyntaxError] of [JSON.parse], before anything is frozen, copied or
    derived: the state is what it was. *)
Theorem deserialize_of_malformed_text_fails :
  forall (fuel : nat) (c : class_id) (t : string) (s : state),
    JSON_parse_text t = None ->
    deserialize (S fuel) c (VStr t) s = Throw SyntaxError s.
Proof.
  intros fuel c t s H. simpl. unfold bind at 1, JSON_parse. rewrite H. reflexivity.
Qed.

Lemma getFieldDefs_inv c s fd s1 :
  getFieldDefs c s = Ret fd s1 ->
  (truthy (static_fieldDefs s c) = true /\ fd = static_fieldDefs s c /\ s1 = s)
  \/ (truthy (static_fieldDefs s c) = false
      /\ exists l, fd = VRef l /\ assoc_class (statics s1) c = Some (VRef l)).
Proof.
  intros H. destruct (truthy (static_fieldDefs s c)) eqn:T.
  - left. rewrite (getFieldDefs_cached _ _ T) in H. inversion H; auto.
  - right. split; [reflexivity|].
    unfold getFieldDefs in H. unfold bind at 1 in H. rewrite T in H.
    apply bind_inv_Ret in H. destruct H as (proto & s2 & _ & H).
    unfold bind at 1, get_heap in H.
    apply bind_inv_Ret in H. destruct H as (fds & s3 & _ & H).
    unfold new_object, alloc, set_static_fieldDefs, bind, ret in H.
    inversion H; subst. eexists. split; [reflexivity|].
    simpl. rewrite Nat.eqb_refl. reflexivity.
Qed.

(** X7.  The schema of a declared class is derived at most once: once
    [getFieldDefs] has returned, asking again returns the very same schema
    object and changes nothing, and so does asking after any further
    operation of the engine, which all keep to [step_rel], when the class
    holds the cache itself. *)
Theorem getFieldDefs_is_cached :
  forall (c : class_id) (s : state),
    nth_error classes c <> None ->
    post (getFieldDefs c s)
         (fun fd s1 =>
            getFieldDefs c s1 = Ret fd s1
            /\ (assoc_class (statics s1) c = Some fd ->
                forall fz s2, step_rel fz s1 s2 -> getFieldDefs c s2 = Ret fd s2))
         (fun _ => True).
Proof.
  intros c s Hc. destruct (getFieldDefs c s) as [fd s1 | |] eqn:E; simpl; auto.
  assert (T : truthy fd = true /\ static_fieldDefs s1 c = fd).
  { destruct (getFieldDefs_inv _ _ _ _ E) as [(T & -> & ->) | (_ & l & -> & Hl)].
    - auto.
    - split; [reflexivity|]. apply static_fieldDefs_own; assumption. }
  destruct T as [T Hs]. split.
  - rewrite <- Hs. apply getFieldDefs_cached. rewrite Hs. assumption.
  - intros Ho fz s2 (_ & _ & _ & Hst).
    pose proof (static_fieldDefs_own s2 c fd Hc (Hst c fd Hc Ho T)) as Hs2.
    rewrite <- Hs2. apply getFieldDefs_cached. rewrite Hs2. assumption.
Qed.

(** A property read of what is neither [null] nor [undefined] succeeds. *)
Lemma member_read h v k : is_nullish v = false -> member h v k = Some (read h v k).
Proof.
  intros Hv. unfold read. destruct (member h v k) eqn:E; [reflexivity|].
  destruct v; simpl in *; try discriminate.
  destruct (nth_error h l) as [[| |]|]; discriminate.
Qed.

(** The loop of [isEqual] on two objects that agree on the fields. *)
Lemma every_field_equal_agree a b (keys : list string) s :
  (forall k, In k keys ->
             strict_equal (read (heap s) (VRef a) k) (read (heap s) (VRef b) k) = true) ->
  every_field_equal (VRef a) (VRef b) (map VStr keys) s = Ret (VBool true) s.
Proof.
  induction keys as [|k r IH]; intros H; simpl; [reflexivity|].
  rewrite (bind_Ret _ _ s k s (toString_VStr k s)).
  rewrite (bind_Ret _ _ s _ s (get_Ret _ _ _ _ (member_read _ (VRef a) k eq_refl))).
  rewrite (bind_Ret _ _ s _ s (get_Ret _ _ _ _ (member_read _ (VRef b) k eq_refl))).
  rewrite (H k (or_introl eq_refl)). apply IH. intros; apply H; right; assumption.
Qed.

(** X8.  The comparison [isEqual] is written to make, over a given list of
    field names: it answers [true] exactly when the two objects hold
    strictly equal values under every name, so that two instances with equal
    but distinct nested objects are unequal, and so is an instance with a
    [NaN] field and itself. *)
Theorem every_field_equal_is_strict_equality_of_fields :
  forall (this toModel : value) (keys : list string) (s : state),
    is_nullish this = false -> is_nullish toModel = false ->
    every_field_equal this toModel (map VStr keys) s
    = Ret (VBool (forallb (fun k => strict_equal (read (heap s) this k)
                                                 (read (heap s) toModel k)) keys)) s.
Proof.
  intros this toModel keys s Ha Hb.
  induction keys as [|k r IH]; simpl; [reflexivity|].
  rewrite (bind_Ret _ _ s k s (toString_VStr k s)).
  rewrite (bind_Ret _ _ s _ s (get_Ret _ _ _ _ (member_read _ this k Ha))).
  rewrite (bind_Ret _ _ s _ s (get_Ret _ _ _ _ (member_read _ toModel k Hb))).
  destruct (strict_equal (read (heap s) this k) (read (heap s) toModel k)); simpl.
  - exact IH.
  - reflexivity.
Qed.

Lemma step_false_untouched s s' : step_rel false s s' -> untouched s s'.
Proof.
  intros H l cl Hl Hd. apply (step_false_kept VUndefined s s' H l cl Hl Hd). discriminate.
Qed.

Lemma step_rel_length fz s s' :
  step_rel fz s s' -> (List.length (heap s) <= List.length (heap s'))%nat.
Proof. intros (H & _); exact H. Qed.

(** What [create] returns is new. *)
Lemma create_fresh c props s r s' :
  create c props s = Ret r s' ->
  exists l ps,
    r = VRef l /\ (List.length (heap s) <= l)%nat
    /\ nth_error (heap s') l = Some (Obj (CModel c) false ps).
Proof.
  intros E.
  destruct (create_inv _ _ _ _ _ E)
    as (fd & s1 & iv & s2 & ext & ps & Hfd & Hiv & _ & -> & ->).
  exists (List.length (heap s2 ++ ext)), (assign ps iv).
  split; [reflexivity|]. split.
  - pose proof (step_rel_length _ _ _
                  (resp_Ret _ _ _ _ _ (resp_step_getFieldDefs false c) Hfd)) as L1.
    assert (X : extends s1 s2).
    { eapply resp_Ret; [|exact Hiv].
      apply (resp_foldM _ extends_refl extends_trans).
      intros; apply resp_ext_create_field. }
    apply extends_length in X. rewrite length_app. lia.
  - simpl. apply nth_error_last.
Qed.

(** X9.  [create] returns an object that did not exist before, an unfrozen
    instance of the class it was called on, and, whether it returns or
    fails, leaves every object that is not a descriptor as it was: the
    initial values are copied out of [props], which is neither written nor
    frozen. *)
Theorem create_returns_a_new_instance :
  forall (c : class_id) (props : value) (s : state),
    (forall r s', create c props s = Ret r s' ->
                  exists l ps,
                    r = VRef l /\ (List.length (heap s) <= l)%nat
                    /\ nth_error (heap s') l = Some (Obj (CModel c) false ps)
                    /\ untouched s s')
    /\ (forall e s', create c props s = Throw e s' -> untouched s s').
Proof.
  intros c props s. pose proof (resp_step_create false c props s) as R. split.
  - intros r s' E. rewrite E in R. simpl in R.
    destruct (create_fresh _ _ _ _ _ E) as (l & ps & Hr & Hl & Hc).
    exists l, ps. split; [assumption|]. split; [assumption|]. split; [assumption|].
    apply step_false_untouched; assumption.
  - intros e s' E. rewrite E in R. simpl in R.
    apply step_false_untouched; assumption.
Qed.

Lemma constructor_of_inv this s c s' :
  constructor_of this s = Ret c s' ->
  s' = s /\ member (heap s) this "constructor" = Some (VClass c).
Proof.
  unfold constructor_of. intros H.
  apply bind_inv_Ret in H. destruct H as (k & s1 & Hk & H).
  apply get_inv in Hk. destruct Hk as [-> Hk].
  destruct k; inversion H; subst; auto.
Qed.

(** What a returning call of [clone] went through. *)
Lemma clone_inv f this s r s' :
  clone (S f) this s = Ret r s' ->
  exists c fd s1 json s2,
    member (heap s) this "constructor" = Some (VClass c)
    /\ getFieldDefs c s = Ret fd s1
    /\ foldM (clone_field (clone f) this) (own_props (heap s1) fd) [] s1 = Ret json s2
    /\ create c (VRef (List.length (heap s2))) (grow s2 [Obj CObject false json])
       = Ret r s'.
Proof.
  simpl. intros H.
  apply bind_inv_Ret in H. destruct H as (c & s0 & Hc & H).
  apply constructor_of_inv in Hc. destruct Hc as [-> Hc].
  apply bind_inv_Ret in H. destruct H as (fd & s1 & Hfd & H).
  unfold bind at 1, get_heap in H.
  apply bind_inv_Ret in H. destruct H as (json & s2 & Hj & H).
  exists c, fd, s1, json, s2. repeat split; assumption.
Qed.

(** What [clone] returns is new, and of the class of the original. *)
Lemma clone_fresh fuel this s r s' :
  clone fuel this s = Ret r s' ->
  exists c l ps,
    member (heap s) this "constructor" = Some (VClass c)
    /\ r = VRef l /\ (List.length (heap s) <= l)%nat
    /\ nth_error (heap s') l = Some (Obj (CModel c) false ps).
Proof.
  intros E. destruct fuel as [|f]; [discriminate|].
  destruct (clone_inv _ _ _ _ _ E) as (c & fd & s1 & json & s2 & Hc & Hfd & Hj & Hcr).
  destruct (create_fresh _ _ _ _ _ Hcr) as (l & ps & -> & Hl & Hn).
  exists c, l, ps. split; [assumption|]. split; [reflexivity|]. split; [|assumption].
  pose proof (step_rel_length _ _ _
                (resp_Ret _ _ _ _ _ (resp_step_getFieldDefs false c) Hfd)) as L1.
  assert (X : step_rel false s1 s2).
  { eapply resp_Ret; [|exact Hj].
    apply (resp_foldM _ (step_rel_refl false) (step_rel_trans false)).
    intros; apply resp_step_clone_field. intros; apply resp_step_clone. }
  apply step_rel_length in X. simpl in Hl. rewrite length_app in Hl. simpl in Hl. lia.
Qed.

(** X10.  [clone] returns an object that did not exist before, an unfrozen
    instance of the class of the original, and, whether it returns or
    fails, leaves every object that is not a descriptor as it was: the
    original and everything it refers to are neither written nor frozen. *)
Theorem clone_returns_a_new_instance :
  forall (fuel : nat) (this : value) (s : state),
    (forall r s', clone fuel this s = Ret r s' ->
                  exists c l ps,
                    member (heap s) this "constructor" = Some (VClass c)
                    /\ r = VRef l /\ (List.length (heap s) <= l)%nat
                    /\ nth_error (heap s') l = Some (Obj (CModel c) false ps)
                    /\ untouched s s')
    /\ (forall e s', clone fuel this s = Throw e s' -> untouched s s').
Proof.
  intros fuel this s. pose proof (resp_step_clone fuel this s) as R. split.
  - intros r s' E. rewrite E in R. simpl in R.
    destruct (clone_fresh _ _ _ _ _ E) as (c & l & ps & Hc & Hr & Hl & Hn).
    exists c, l, ps. split; [assumption|]. split; [assumption|]. split; [assumption|].
    split; [assumption|]. apply step_false_untouched; assumption.
  - intros e s' E. rewrite E in R. simpl in R.
    apply step_false_untouched; assumption.
Qed.

(* ================================================================= *)
(** ** What [serialize] writes *)

Lemma toString_inv v s t s' : toString v s = Ret t s' -> s' = s.
Proof.
  unfold toString, bind, get_heap.
  destruct (to_string (S (List.length (heap s))) (heap s) v); intros H; inversion H; auto.
Qed.

Lemma wire_key_inv def key s a s' : wire_key def key s = Ret a s' -> s' = s.
Proof.
  unfold wire_key. intros H.
  apply bind_inv_Ret in H. destruct H as (x & s1 & Hx & H).
  apply toString_inv in H. subst s'.
  destruct (truthy def).
  - apply get_inv in Hx. exact (proj1 Hx).
  - inversion Hx; auto.
Qed.

(** One step of the reducer: the accumulator is handed on as it is, or one
    key is written, the wire key of a field that is not left out. *)
Lemma serialize_field_keys rec this obj key def s obj' s' :
  serialize_field rec this obj (key, def) s = Ret obj' s' ->
  obj' = obj
  \/ exists a ser v,
      wire_key def key s = Ret a s
      /\ member (heap s) def "serialize" = Some ser
      /\ strict_equal ser (VBool false) = false
      /\ obj' = alist_set obj a v.
Proof.
  unfold serialize_field. intros H.
  apply bind_inv_Ret in H. destruct H as (a & s1 & Ha & H).
  pose proof (wire_key_inv _ _ _ _ _ Ha) as ->.
  apply bind_inv_Ret in H. destruct H as (ser & s2 & Hs & H).
  apply get_inv in Hs. destruct Hs as [-> Hs].
  destruct (strict_equal ser (VBool false)) eqn:Es.
  - inversion H; subst; auto.
  - right.
    apply bind_inv_Ret in H. destruct H as (val & s3 & _ & H).
    unfold bind at 1, get_heap in H.
    apply bind_inv_Ret in H. destruct H as (v & s4 & _ & H).
    inversion H; subst. exists a, ser, v. auto.
Qed.

Lemma serialize_fold_keys rec this : forall l acc s acc' s',
  foldM (serialize_field rec this) l acc s = Ret acc' s' ->
  forall k, In k (map fst acc') ->
    In k (map fst acc)
    \/ exists key def ser s1,
        In (key, def) l
        /\ wire_key def key s1 = Ret k s1
        /\ member (heap s1) def "serialize" = Some ser
        /\ strict_equal ser (VBool false) = false.
Proof.
  induction l as [|[key def] r IH]; intros acc s acc' s' H k Hk; simpl in H.
  - inversion H; subst; auto.
  - apply bind_inv_Ret in H. destruct H as (acc1 & s1 & H1 & H2).
    destruct (IH _ _ _ _ H2 k Hk) as [Hin | (key' & def' & ser & s0 & Hin & Hrest)].
    + destruct (serialize_field_keys _ _ _ _ _ _ _ _ H1)
        as [-> | (a & ser & v & Ha & Hs & Hne & ->)]; [auto|].
      apply alist_set_keys in Hin. destruct Hin as [-> | Hin]; [|auto].
      right. exists key, def, ser, s. split; [left; reflexivity | auto].
    + right. exists key', def', ser, s0. split; [right; assumption | assumption].
Qed.

Lemma rename_fold_keys g f : forall (l : alist) acc s qs s2,
  foldM (fun acc kv => x <- rename_keys g f (snd kv) ;; ret (alist_set acc (g (fst kv)) x))
        l acc s = Ret qs s2 ->
  forall k, In k (map fst qs) ->
    In k (map fst acc) \/ exists k0, In k0 (map fst l) /\ k = g k0.
Proof.
  induction l as [|[k0 v0] r IH]; intros acc s qs s2 H k Hk; simpl in H.
  - inversion H; subst; auto.
  - apply bind_inv_Ret in H. destruct H as (acc1 & s1 & H1 & H2).
    apply bind_inv_Ret in H1. destruct H1 as (x & s1' & _ & H1).
    inversion H1; subst.
    destruct (IH _ _ _ _ H2 k Hk) as [Hin | (k1 & Hin & ->)].
    + apply alist_set_keys in Hin. simpl in Hin. destruct Hin as [-> | Hin]; [|auto].
      right. exists k0. split; [left; reflexivity | reflexivity].
    + right. exists k1. split; [right; assumption | reflexivity].
Qed.

(** The copy a key renaming makes of a plain object: a new unfrozen plain
    object, whose keys are renamed keys of the original. *)
Lemma rename_keys_object g f r fr ps s v s' :
  nth_error (heap s) r = Some (Obj CObject fr ps) ->
  rename_keys g (S f) (VRef r) s = Ret v s' ->
  exists qs s2,
    extends s s2
    /\ v = VRef (List.length (heap s2))
    /\ s' = grow s2 [Obj CObject false qs]
    /\ forall k, In k (map fst qs) -> exists k0, In k0 (map fst ps) /\ k = g k0.
Proof.
  intros Hr H. simpl in H. unfold bind at 1, get_heap in H. rewrite Hr in H.
  apply bind_inv_Ret in H. destruct H as (qs & s2 & Hq & H).
  inversion H; subst. exists qs, s2. split; [|split; [reflexivity | split; [reflexivity|]]].
  - eapply resp_Ret; [|exact Hq]. ext_go.
  - intros k Hk. destruct (rename_fold_keys _ _ _ _ _ _ _ Hq k Hk) as [[] | ?]; assumption.
Qed.

(** What a returning call of [serialize] went through. *)
Lemma serialize_inv f this options s r s' :
  serialize (S f) this options s = Ret r s' ->
  exists opts s0 c fd s1 result s2,
    extends s s0
    /\ member (heap s0) this "constructor" = Some (VClass c)
    /\ getFieldDefs c s0 = Ret fd s1
    /\ foldM (serialize_field (fun v => serialize f v opts) this)
             (own_props (heap s1) fd) [] s1 = Ret result s2
    /\ classifyObject (VRef (List.length (heap s2))) (grow s2 [Obj CObject false result])
       = Ret r s'.
Proof.
  simpl. unfold bind at 1, get_heap. intros H.
  apply bind_inv_Ret in H. destruct H as (opts & s0 & Ho & H).
  apply bind_inv_Ret in H. destruct H as (c & s0' & Hc & H).
  apply constructor_of_inv in Hc. destruct Hc as [-> Hc].
  apply bind_inv_Ret in H. destruct H as (fd & s1 & Hfd & H).
  unfold bind at 1, get_heap in H.
  apply bind_inv_Ret in H. destruct H as (result & s2 & Hres & H).
  exists opts, s0, c, fd, s1, result, s2. repeat split; try assumption.
  - destruct (is_object_type (heap s) options); inversion Ho; subst; reflexivity.
  - destruct (is_object_type (heap s) options).
    + inversion Ho; subst. exists []. rewrite app_nil_r. split; [reflexivity | constructor].
    + inversion Ho; subst. exists [Obj CObject false []].
      split; [reflexivity | constructor; [reflexivity | constructor]].
Qed.

(** X12.  [serialize] returns an object that did not exist before, an
    unfrozen plain object, and, whether it returns or fails, leaves every
    object that is not a descriptor as it was: the instance, its nested
    instances and their arrays are neither written nor frozen. *)
Theorem serialize_returns_a_new_object :
  forall (fuel : nat) (this options : value) (s : state),
    (forall r s', serialize fuel this options s = Ret r s' ->
                  exists l qs,
                    r = VRef l /\ (List.length (heap s) <= l)%nat
                    /\ nth_error (heap s') l = Some (Obj CObject false qs)
                    /\ untouched s s')
    /\ (forall e s', serialize fuel this options s = Throw e s' -> untouched s s').
Proof.
  intros fuel this options s. pose proof (resp_step_serialize fuel this options s) as R.
  split.
  - intros r s' E. rewrite E in R. simpl in R.
    destruct fuel as [|f]; [discriminate|].
    destruct (serialize_inv _ _ _ _ _ _ E)
      as (opts & s0 & c & fd & s1 & result & s2 & H0 & Hc & Hfd & Hres & Hcl).
    unfold classifyObject in Hcl. unfold bind at 1, get_heap in Hcl.
    destruct (rename_keys_object classify _ (List.length (heap s2)) false result
              (grow s2 [Obj CObject false result]) _ _
                (nth_error_last _ _) Hcl) as (qs & s3 & H3 & -> & -> & _).
    exists (List.length (heap s3)), qs. split; [reflexivity|]. split; [|split].
    + apply extends_length in H0, H3.
      pose proof (step_rel_length _ _ _
                    (resp_Ret _ _ _ _ _ (resp_step_getFieldDefs false c) Hfd)) as L1.
      assert (X : step_rel false s1 s2).
      { eapply resp_Ret; [|exact Hres].
        apply (resp_foldM _ (step_rel_refl false) (step_rel_trans false)).
        intros; apply resp_step_serialize_field. intros; apply resp_step_serialize. }
      apply step_rel_length in X. simpl in H3. rewrite length_app in H3. simpl in H3. lia.
    + simpl. apply nth_error_last.
    + apply step_false_untouched; assumption.
  - intros e s' E. rewrite E in R. simpl in R.
    apply step_false_untouched; assumption.
Qed.

(** X24.  What [serialize] writes for a single-fragment field that is
    included on write: [null] when the field holds nothing (a falsy value);
    what the value's own [serialize] returns when it has one; and, when the
    value has none and the declared type has none either, [null] again,
    after a warning on the console that names the field, the instance and
    the value. *)
Theorem serialize_fragment_field :
  forall rec (this : value) (obj : alist) (key : string) (def : value) (s : state)
         (w : string) (ser val : value),
    ctor_of (heap s) def = Some CFragmentFieldDef ->
    wire_key def key s = Ret w s ->
    member (heap s) def "serialize" = Some ser ->
    strict_equal ser (VBool false) = false ->
    member (heap s) this key = Some val ->
    (truthy val = false ->
     serialize_field rec this obj (key, def) s = Ret (alist_set obj w VNull) s)
    /\ (forall m, truthy val = true -> member (heap s) val "serialize" = Some m ->
                  truthy m = true ->
                  serialize_field rec this obj (key, def) s
                  = (v <- call_member "serialize" rec val m ;; ret (alist_set obj w v)) s)
    /\ (forall m t st sv,
           truthy val = true -> member (heap s) val "serialize" = Some m ->
           truthy m = false ->
           member (heap s) def "type" = Some t ->
           (truthy t = false \/ exists ts, member (heap s) t "serialize" = Some ts
                                           /\ truthy ts = false) ->
           toString this s = Ret st s -> toString val s = Ret sv s ->
           serialize_field rec this obj (key, def) s
           = Ret (alist_set obj w VNull)
                 (mkState (heap s) (statics s)
                          (console s ++ [cat ["Unable to to serialize "; key; " in "; st;
                                              " with value "; sv]]))).
Proof.
  intros rec this obj key def s w ser val Hc Hk Hser Hne Hv.
  assert (E : serialize_field rec this obj (key, def) s
              = (v <- (if truthy val then
                         m <- get val "serialize" ;;
                         if truthy m then call_member "serialize" rec val m
                         else
                           t <- get def "type" ;;
                           ts <- (if truthy t then get t "serialize" else ret t) ;;
                           if truthy ts then call ts
                           else
                             st <- toString this ;;
                             sv <- toString val ;;
                             warn (cat ["Unable to to serialize "; key; " in "; st;
                                        " with value "; sv]) ;;;
                             ret VNull
                       else ret VNull) ;;
                 ret (alist_set obj w v)) s).
  { unfold serialize_field.
    rewrite (bind_Ret _ _ s _ s Hk).
    rewrite (bind_Ret _ _ s _ s (get_Ret _ _ _ _ Hser)). rewrite Hne.
    rewrite (bind_Ret _ _ s _ s (get_Ret _ _ _ _ Hv)).
    unfold bind at 1, get_heap. rewrite Hc. reflexivity. }
  split; [|split].
  - intros Hf. rewrite E, Hf. reflexivity.
  - intros m Tv Hm Tm. rewrite E, Tv.
    unfold bind at 1. rewrite (bind_Ret _ _ s _ s (get_Ret _ _ _ _ Hm)). rewrite Tm.
    reflexivity.
  - intros m t st sv Tv Hm Tm Htype Hts Hst Hsv. rewrite E, Tv.
    unfold bind at 1. rewrite (bind_Ret _ _ s _ s (get_Ret _ _ _ _ Hm)). rewrite Tm.
    rewrite (bind_Ret _ _ s _ s (get_Ret _ _ _ _ Htype)).
    assert (Z : exists ts, (if truthy t then get t "serialize" else ret t) s = Ret ts s
                           /\ truthy ts = false).
    { destruct Hts as [Tt | (ts & Hts & Tts)].
      - exists t. rewrite Tt. split; reflexivity.
      - case_eq (truthy t); intros Tt.
        + exists ts. split; [apply get_Ret; assumption | assumption].
        + exists t. split; [reflexivity | assumption]. }
    destruct Z as (ts & Ets & Tts).
    rewrite (bind_Ret _ _ s _ s Ets). rewrite Tts.
    rewrite (bind_Ret _ _ s _ s Hst). rewrite (bind_Ret _ _ s _ s Hsv).
    reflexivity.
Qed.

(* ================================================================= *)
(** ** What a clone shares with the original *)

Section Traced.

Variable f : alist -> string * value -> M alist.
Variable R : state -> state -> Prop.
Hypothesis R_refl : forall s, R s s.
Hypothesis R_trans : forall s1 s2 s3, R s1 s2 -> R s2 s3 -> R s1 s3.
Variable key : string.
Variable def : value.
Variable good : state -> Prop.
Variable Pre : state -> option value -> Prop.
Variable Phi : state -> value -> Prop.

Hypothesis f_step :
  forall acc k d s acc' s',
    f acc (k, d) s = Ret acc' s' ->
    R s s'
    /\ (forall k', k' <> k -> alist_get acc' k' = alist_get acc k')
    /\ (k = key -> d = def -> good s -> Pre s (alist_get acc key) ->
        exists v, alist_get acc' key = Some v /\ Phi s' v).
Hypothesis good_stable : forall s s', R s s' -> good s -> good s'.
Hypothesis Pre_stable : forall s s' x, R s s' -> Pre s x -> Pre s' x.
Hypothesis Phi_stable : forall s s' v, R s s' -> Phi s v -> Phi s' v.

Lemma foldM_moves : forall l acc s acc' s',
  foldM f l acc s = Ret acc' s' -> R s s'.
Proof.
  induction l as [|[k0 d0] r IH]; intros acc s acc' s' H; simpl in H.
  - inversion H; subst. apply R_refl.
  - apply bind_inv_Ret in H. destruct H as (acc1 & s1 & H1 & H2).
    eapply R_trans; [exact (proj1 (f_step _ _ _ _ _ _ H1)) | eauto].
Qed.

(** A loop that writes one key per schema entry leaves, under [key], what
    the step for [key] put there. *)
Lemma foldM_traced : forall l acc s acc' s',
  foldM f l acc s = Ret acc' s' -> NoDup (map fst l) ->
  In (key, def) l -> good s -> Pre s (alist_get acc key) ->
  exists v, alist_get acc' key = Some v /\ Phi s' v.
Proof.
  induction l as [|[k0 d0] r IH]; intros acc s acc' s' H Hnd Hin Hg Hp;
    simpl in *; [contradiction|].
  apply bind_inv_Ret in H. destruct H as (acc1 & s1 & H1 & H2).
  inversion Hnd as [|? ? Hn0 Hnd']; subst.
  destruct (f_step _ _ _ _ _ _ H1) as (HR & Ho & Hk).
  destruct Hin as [Heq | Hin].
  - inversion Heq; subst. destruct (Hk eq_refl eq_refl Hg Hp) as (v & Hv & HP).
    exists v. split.
    + rewrite (foldM_untouched f
                 (fun a k d s a' s' H => proj1 (proj2 (f_step a k d s a' s' H)))
                 _ _ _ _ _ key H2 Hn0).
      assumption.
    + eapply Phi_stable; [|exact HP]. eapply foldM_moves; eauto.
  - eapply IH; eauto.
    rewrite Ho.
    + eapply Pre_stable; eauto.
    + intros ->. apply Hn0. apply (in_map fst _ _ Hin).
Qed.

End Traced.

Lemma untouched_member s s' l cl k :
  untouched s s' -> nth_error (heap s) l = Some cl -> is_def_cell cl = false ->
  member (heap s') (VRef l) k = member (heap s) (VRef l) k.
Proof. intros U Hl Hd. simpl. rewrite (U l cl Hl Hd), Hl. reflexivity. Qed.

(** A descriptor keeps its constructor and every option but [key]. *)
Lemma step_rel_def fz s s' d ct :
  step_rel fz s s' -> ctor_of (heap s) d = Some ct -> is_def_ctor ct = true ->
  ctor_of (heap s') d = Some ct
  /\ forall k, k <> "key" -> member (heap s') d k = member (heap s) d k.
Proof.
  intros (_ & HC & _) Hc Hd. destruct d; simpl in Hc; try discriminate.
  destruct (nth_error (heap s) l) as [[ct0 fr ps | |]|] eqn:E; try discriminate.
  inversion Hc; subst ct0.
  destruct (HC _ _ E) as (c' & E' & Hev). simpl in Hev. rewrite Hd in Hev.
  destruct Hev as (fr' & ps' & -> & _ & _ & Hk).
  simpl. rewrite E', E. split; [reflexivity|].
  intros k Hne. rewrite (Hk k Hne). reflexivity.
Qed.

Lemma schema_cached_step fz s s' c f0 schema :
  step_rel fz s s' -> schema_cached s c f0 schema -> schema_cached s' c f0 schema.
Proof.
  intros HR (Hc & Hs & (fr & Hf) & Hn). split; [assumption|]. split; [|split; [|assumption]].
  - destruct HR as (_ & _ & _ & HS). apply (HS c (VRef f0) Hc Hs). reflexivity.
  - destruct HR as (_ & HC & _). destruct (HC _ _ Hf) as (c' & Hc' & Hev).
    simpl in Hev. destruct Hev as [-> | [_ ->]]; eauto.
Qed.

Lemma schema_cached_get s c f0 schema :
  schema_cached s c f0 schema ->
  getFieldDefs c s = Ret (VRef f0) s /\ own_props (heap s) (VRef f0) = schema.
Proof.
  intros (Hc & Hs & (fr & Hf) & _). split.
  - pose proof (static_fieldDefs_own s c (VRef f0) Hc Hs) as E.
    rewrite <- E. apply getFieldDefs_cached. rewrite E. reflexivity.
  - simpl. rewrite Hf. reflexivity.
Qed.

Lemma schema_cached_grow s c f0 schema ext :
  schema_cached s c f0 schema -> schema_cached (grow s ext) c f0 schema.
Proof.
  intros (Hc & Hs & (fr & Hf) & Hn). split; [assumption|]. split; [assumption|].
  split; [|assumption]. exists fr. simpl.
  rewrite nth_error_app1; [assumption|]. apply nth_error_Some. congruence.
Qed.

Lemma clone_field_other rec this acc k d s acc' s' :
  clone_field rec this acc (k, d) s = Ret acc' s' ->
  (forall k', k' <> k -> alist_get acc' k' = alist_get acc k') /\ (wf_alist acc -> wf_alist acc').
Proof.
  unfold clone_field. unfold bind at 1, get_heap. intros H.
  apply bind_inv_Ret in H. destruct H as (x & s1 & _ & H). inversion H; subst.
  split.
  - intros k' Hne. apply alist_get_set_neq. congruence.
  - apply wf_alist_set.
Qed.

Lemma create_field_other acc k d s acc' s' :
  create_field acc (k, d) s = Ret acc' s' ->
  extends s s' /\ (forall k', k' <> k -> alist_get acc' k' = alist_get acc k').
Proof.
  intros H. split; [eapply resp_Ret; [apply resp_ext_create_field | exact H]|].
  unfold create_field in H.
  apply bind_inv_Ret in H. destruct H as (val & s1 & _ & H).
  unfold bind at 1, get_heap in H.
  destruct (ctor_of (heap s1) d) as [[ | | | | |]|];
    try (inversion H; subst; reflexivity);
    apply bind_inv_Ret in H; destruct H as (v & s2 & _ & H); inversion H; subst;
    intros k' Hne; apply alist_get_set_neq; congruence.
Qed.

(** What a returning call of [clone] went through, on an instance of a
    class that holds its cached schema. *)
Lemma clone_run f i s r s' c fri psi f0 schema :
  schema_cached s c f0 schema ->
  nth_error (heap s) i = Some (Obj (CModel c) fri psi) ->
  alist_get psi "constructor" = None ->
  clone (S f) (VRef i) s = Ret r s' ->
  exists json s2 iv s5 ext ps0,
    foldM (clone_field (clone f) (VRef i)) schema [] s = Ret json s2
    /\ step_rel false s s2
    /\ foldM create_field schema (assign [] json) (grow s2 [Obj CObject false json])
       = Ret iv s5
    /\ extends (grow s2 [Obj CObject false json]) s5
    /\ wf_alist json /\ wf_alist iv
    /\ r = VRef (List.length (heap s5 ++ ext))
    /\ s' = mkState ((heap s5 ++ ext) ++ [Obj (CModel c) false (assign ps0 iv)])
                    (statics s5) (console s5).
Proof.
  intros Hsc Hi Hno H.
  destruct (clone_inv _ _ _ _ _ H) as (c0 & fd & s1 & json & s2 & Hc & Hfd & Hj & Hcr).
  simpl in Hc. rewrite Hi, Hno in Hc. simpl in Hc. inversion Hc; subst c0.
  destruct (schema_cached_get _ _ _ _ Hsc) as [G Ho]. rewrite G in Hfd.
  inversion Hfd; subst fd s1. rewrite Ho in Hj.
  assert (X : step_rel false s s2).
  { eapply resp_Ret; [|exact Hj].
    apply (resp_foldM _ (step_rel_refl false) (step_rel_trans false)).
    intros; apply resp_step_clone_field. intros; apply resp_step_clone. }
  assert (W : wf_alist json).
  { apply (foldM_acc_inv (clone_field (clone f) (VRef i)) wf_alist) with (2 := Hj).
    - intros acc [k d] s0 acc' s0' Hs. apply (proj2 (clone_field_other _ _ _ _ _ _ _ _ Hs)).
    - constructor. }
  pose proof (schema_cached_grow _ _ _ _ [Obj CObject false json]
                (schema_cached_step _ _ _ _ _ _ X Hsc)) as Hsc3.
  destruct (schema_cached_get _ _ _ _ Hsc3) as [G3 Ho3].
  destruct (create_inv _ _ _ _ _ Hcr)
    as (fd & s4 & iv & s5 & ext & ps0 & Hfd' & Hiv & Wiv & -> & ->).
  rewrite G3 in Hfd'. inversion Hfd'; subst fd s4. rewrite Ho3 in Hiv.
  assert (Ot : is_object_type (heap (grow s2 [Obj CObject false json]))
                              (VRef (List.length (heap s2))) = true).
  { simpl. rewrite nth_error_last. reflexivity. }
  rewrite Ot in Hiv.
  assert (Op : own_props (heap (grow s2 [Obj CObject false json]))
                         (VRef (List.length (heap s2))) = json).
  { simpl. rewrite nth_error_last. reflexivity. }
  rewrite Op in Hiv.
  assert (E5 : extends (grow s2 [Obj CObject false json]) s5).
  { eapply resp_Ret; [|exact Hiv]. apply (resp_foldM _ extends_refl extends_trans).
    intros; apply resp_ext_create_field. }
  exists json, s2, iv, s5, ext, ps0.
  split; [assumption|]. split; [assumption|]. split; [assumption|].
  split; [assumption|]. split; [assumption|]. split; [assumption|].
  split; reflexivity.
Qed.

Lemma untouched_refl s : untouched s s.
Proof. intros l cl H _. exact H. Qed.

Lemma untouched_trans s1 s2 s3 : untouched s1 s2 -> untouched s2 s3 -> untouched s1 s3.
Proof. intros U1 U2 l cl H Hd. apply (U2 l cl); [apply (U1 l cl)|]; assumption. Qed.

Lemma extends_untouched s s' : extends s s' -> untouched s s'.
Proof. intros He l cl H _. eapply extends_nth; eauto. Qed.

Lemma grow_untouched s ext : untouched s (grow s ext).
Proof.
  intros l cl H _. simpl. rewrite nth_error_app1; [assumption|].
  apply nth_error_Some. congruence.
Qed.

(** How a field travels through [clone]: what the reducer puts under [key]
    satisfies [Phi], and the factory hands on a value with [Phi] as it is;
    then the clone holds, under [key], a value with [Phi]. *)
Lemma clone_transfer (Phi : state -> value -> Prop) f i s r s' c fri psi f0 schema key def :
  (forall s0 s0' v, untouched s0 s0' -> Phi s0 v -> Phi s0' v) ->
  (forall acc s0 acc' s0',
      step_rel false s s0 ->
      clone_field (clone f) (VRef i) acc (key, def) s0 = Ret acc' s0' ->
      exists v, alist_get acc' key = Some v /\ Phi s0' v) ->
  (forall acc v s0 acc' s0',
      step_rel false s s0 -> Phi s0 v -> alist_get acc key = Some v ->
      create_field acc (key, def) s0 = Ret acc' s0' ->
      alist_get acc' key = Some v) ->
  schema_cached s c f0 schema ->
  nth_error (heap s) i = Some (Obj (CModel c) fri psi) ->
  alist_get psi "constructor" = None ->
  In (key, def) schema ->
  clone (S f) (VRef i) s = Ret r s' ->
  exists v, member (heap s') r key = Some v /\ Phi s' v.
Proof.
  intros Pst H1 H2 Hsc Hi Hno Hin H.
  destruct (clone_run _ _ _ _ _ _ _ _ _ _ Hsc Hi Hno H)
    as (json & s2 & iv & s5 & ext & ps0 & Hj & X & Hiv & E5 & W & Wiv & -> & ->).
  pose proof Hsc as (_ & _ & _ & Hnd).
  (* the reducer *)
  destruct (foldM_traced (clone_field (clone f) (VRef i)) (step_rel false)
              (step_rel_refl false) (step_rel_trans false) key def
              (fun s0 => step_rel false s s0) (fun _ _ => True) Phi) with
      (l := schema) (acc := @nil (string * value)) (s := s) (acc' := json) (s' := s2)
    as (v & Hv & Pv); auto.
  { intros acc k d s0 acc' s0' Hs. split; [|split].
    - eapply resp_Ret; [|exact Hs]. apply resp_step_clone_field.
      intros; apply resp_step_clone.
    - apply (proj1 (clone_field_other _ _ _ _ _ _ _ _ Hs)).
    - intros -> -> Hg _. eapply H1; eauto. }
  { intros s0 s0' HR Hg. eapply step_rel_trans; eauto. }
  { intros s0 s0' w HR. apply Pst. apply step_false_untouched; assumption. }
  { apply step_rel_refl. }
  (* the factory *)
  set (s3 := grow s2 [Obj CObject false json]) in *.
  assert (X3 : step_rel false s s3).
  { eapply step_rel_trans; [exact X|]. apply extends_step_rel.
    split; [reflexivity|]. exists [Obj CObject false json].
    split; [reflexivity | constructor; [reflexivity | constructor]]. }
  destruct (foldM_traced create_field extends extends_refl extends_trans key def
              (fun s0 => step_rel false s s0 /\ Phi s0 v)
              (fun _ x => x = Some v) (fun _ w => w = v)) with
      (l := schema) (acc := assign [] json) (s := s3) (acc' := iv) (s' := s5)
    as (w & Hw & ->); auto.
  { intros acc k d s0 acc' s0' Hs.
    destruct (create_field_other _ _ _ _ _ _ Hs) as [He Ho].
    split; [assumption|]. split; [assumption|].
    intros -> -> [Hg HP] Hacc. exists v. split; [|reflexivity]. eapply H2; eauto. }
  { intros s0 s0' He [Hg HP]. split.
    - eapply step_rel_trans; [exact Hg|]. apply extends_step_rel; assumption.
    - eapply Pst; [|exact HP]. apply extends_untouched; assumption. }
  { split; [assumption|]. eapply Pst; [|exact Pv]. apply grow_untouched. }
  { apply alist_get_assign; assumption. }
  exists v. split.
  - simpl. rewrite nth_error_last. rewrite (alist_get_assign iv ps0 key v Wiv Hw). reflexivity.
  - eapply Pst; [|exact Pv].
    eapply untouched_trans; [apply grow_untouched|].
    eapply untouched_trans; [apply extends_untouched; exact E5|].
    intros l cl Hl _. simpl. rewrite <- app_assoc.
    rewrite nth_error_app1; [assumption|]. apply nth_error_Some. congruence.
Qed.

Lemma getValueOrDefault_passes fieldDef val s t :
  isEmpty (heap s) val = false ->
  is_function (heap s) val = false ->
  member (heap s) fieldDef "type" = Some (VClass t) ->
  getValueOrDefault fieldDef val s = Ret val s.
Proof.
  intros He Hf Ht. unfold getValueOrDefault. unfold bind at 1, get_heap. rewrite He, Hf.
  unfold coerce. rewrite (bind_Ret _ _ s _ s (get_Ret _ _ _ _ Ht)). reflexivity.
Qed.

Lemma create_field_given acc key def s acc' s' v ct :
  alist_get acc key = Some v -> is_undefined v = false ->
  ctor_of (heap s) def = Some ct -> (ct = CAttrFieldDef \/ ct = CFragmentFieldDef) ->
  getValueOrDefault def v s = Ret v s ->
  create_field acc (key, def) s = Ret acc' s' ->
  alist_get acc' key = Some v.
Proof.
  intros Ha Hu Hc Hct Hg H. unfold create_field, prop in H. rewrite Ha, Hu in H.
  unfold bind at 1, ret at 1 in H. unfold bind at 1, get_heap in H. rewrite Hc in H.
  assert (E : (x <- getValueOrDefault def v ;; ret (alist_set acc key x)) s = Ret acc' s').
  { destruct Hct as [-> | ->]; exact H. }
  rewrite (bind_Ret _ _ _ _ _ Hg) in E. inversion E; subst.
  apply alist_get_set_eq.
Qed.

(** X14.  [clone] copies nested records: for an instance of a class that
    holds its cached schema, a fragment field that holds a record instance
    holds, in the clone, a record instance of the same class that did not
    exist before, and the original's nested instance is left as it was. *)
Theorem clone_copies_nested_instances :
  (forall h l c0 fr ps, nth_error h l = Some (Obj (CModel c0) fr ps) ->
                        isEmpty h (VRef l) = false) ->
  forall (f : nat) (i : loc) (s : state) (r : value) (s' : state)
         (c : class_id) (fri : bool) (psi : alist) (f0 : loc) (schema : alist)
         (key : string) (def : value) (t : class_id)
         (n : loc) (c' : class_id) (frn : bool) (psn : alist),
    schema_cached s c f0 schema ->
    nth_error (heap s) i = Some (Obj (CModel c) fri psi) ->
    alist_get psi "constructor" = None ->
    In (key, def) schema ->
    ctor_of (heap s) def = Some CFragmentFieldDef ->
    member (heap s) def "type" = Some (VClass t) ->
    alist_get psi key = Some (VRef n) ->
    nth_error (heap s) n = Some (Obj (CModel c') frn psn) ->
    alist_get psn "constructor" = None ->
    alist_get psn "clone" = None ->
    clone (S f) (VRef i) s = Ret r s' ->
    exists n' ps',
      member (heap s') r key = Some (VRef n')
      /\ n' <> n
      /\ (List.length (heap s) <= n')%nat
      /\ nth_error (heap s') n' = Some (Obj (CModel c') false ps')
      /\ nth_error (heap s') n = Some (Obj (CModel c') frn psn).
Proof.
  intros Hempty f i s r s' c fri psi f0 schema key def t n c' frn psn
         Hsc Hi Hno Hin Hc Ht Hk Hn Hnc Hncl H.
  destruct (clone_transfer
              (fun s0 v => exists n' ps', v = VRef n' /\ (List.length (heap s) <= n')%nat
                                          /\ nth_error (heap s0) n'
                                             = Some (Obj (CModel c') false ps'))
              f i s r s' c fri psi f0 schema key def) as (v & Hv & n' & ps' & -> & Hl & Hn');
    auto.
  - intros s0 s0' v U (n' & ps' & -> & Hl & Hn'). exists n', ps'.
    split; [reflexivity|]. split; [assumption|]. apply (U _ _ Hn'). reflexivity.
  - (* the reducer clones the nested instance *)
    intros acc s0 acc' s0' X Hs.
    pose proof (step_false_untouched _ _ X) as U.
    destruct (step_rel_def _ _ _ _ _ X Hc eq_refl) as [Hc0 _].
    unfold clone_field in Hs. unfold bind at 1, get_heap in Hs. rewrite Hc0 in Hs.
    apply bind_inv_Ret in Hs. destruct Hs as (x & s1 & Hx & Hs). inversion Hs; subst.
    rewrite alist_get_set_eq.
    assert (M1 : member (heap s0) (VRef i) key = Some (VRef n)).
    { rewrite (untouched_member _ _ _ _ key U Hi eq_refl). simpl. rewrite Hi, Hk. reflexivity. }
    assert (M2 : member (heap s0) (VRef n) "clone" = Some (VMethod "clone")).
    { rewrite (untouched_member _ _ _ _ "clone" U Hn eq_refl). simpl. rewrite Hn, Hncl.
      reflexivity. }
    assert (M3 : member (heap s0) (VRef n) "constructor" = Some (VClass c')).
    { rewrite (untouched_member _ _ _ _ "constructor" U Hn eq_refl). simpl. rewrite Hn, Hnc.
      reflexivity. }
    rewrite (bind_Ret _ _ _ _ _ (get_Ret _ _ _ _ M1)) in Hx.
    unfold clone_value in Hx. cbn [truthy] in Hx.
    rewrite (bind_Ret _ _ _ _ _ (get_Ret _ _ _ _ M2)) in Hx.
    cbn [truthy] in Hx. unfold call_member in Hx.
    change (strict_equal (VMethod "clone") (VMethod "clone")) with true in Hx.
    cbv iota in Hx.
    destruct (clone_fresh _ _ _ _ _ Hx) as (c0 & l & ps & Hc0' & -> & Hl & Hcell).
    assert (c0 = c') as -> by congruence.
    exists (VRef l). split; [reflexivity|]. exists l, ps.
    split; [reflexivity|]. split; [|assumption].
    pose proof (step_rel_length _ _ _ X). lia.
  - (* the factory hands the new instance on *)
    intros acc v s0 acc' s0' X (n' & ps' & -> & Hl & Hn') Hacc Hs.
    destruct (step_rel_def _ _ _ _ _ X Hc eq_refl) as [Hc0 Hm0].
    eapply create_field_given; eauto.
    apply (getValueOrDefault_passes _ _ _ t).
    + eapply Hempty; eauto.
    + simpl. rewrite Hn'. reflexivity.
    + rewrite Hm0; [assumption | discriminate].
  - exists n', ps'. split; [assumption|]. split; [|split; [assumption | split; [assumption|]]].
    + assert (n < List.length (heap s))%nat by (apply nth_error_Some; congruence). lia.
    + apply (step_false_untouched s s'
               (resp_Ret _ _ _ _ _ (resp_step_clone (S f) (VRef i)) H) _ _ Hn).
      reflexivity.
Qed.

(** X15.  [clone] does not copy the array of an array-kind attribute: for
    an instance of a class that holds its cached schema, an array-kind
    field that holds an array (which [isEmpty] does not take for empty)
    holds, in the clone, the very same array object, so that a change to
    the array through one of them shows through the other. *)
Theorem clone_shares_array_attributes :
  forall (f : nat) (i : loc) (s : state) (r : value) (s' : state)
         (c : class_id) (fri : bool) (psi : alist) (f0 : loc) (schema : alist)
         (key : string) (def : value) (a : loc) (fra : bool) (es : list value),
    (forall h, nth_error h a = Some (Arr fra es) -> isEmpty h (VRef a) = false) ->
    schema_cached s c f0 schema ->
    nth_error (heap s) i = Some (Obj (CModel c) fri psi) ->
    alist_get psi "constructor" = None ->
    In (key, def) schema ->
    ctor_of (heap s) def = Some CAttrFieldDef ->
    member (heap s) def "type" = Some (VStr "array") ->
    alist_get psi key = Some (VRef a) ->
    nth_error (heap s) a = Some (Arr fra es) ->
    clone (S f) (VRef i) s = Ret r s' ->
    member (heap s') r key = Some (VRef a)
    /\ nth_error (heap s') a = Some (Arr fra es).
Proof.
  intros f i s r s' c fri psi f0 schema key def a fra es
         Hempty Hsc Hi Hno Hin Hc Ht Hk Ha H.
  destruct (clone_transfer
              (fun s0 v => v = VRef a /\ nth_error (heap s0) a = Some (Arr fra es))
              f i s r s' c fri psi f0 schema key def) as (v & Hv & -> & Ha'); auto.
  - intros s0 s0' v U [-> Ha0]. split; [reflexivity|]. apply (U _ _ Ha0). reflexivity.
  - (* the reducer hands the reference on *)
    intros acc s0 acc' s0' X Hs.
    pose proof (step_false_untouched _ _ X) as U.
    destruct (step_rel_def _ _ _ _ _ X Hc eq_refl) as [Hc0 _].
    unfold clone_field in Hs. unfold bind at 1, get_heap in Hs. rewrite Hc0 in Hs.
    apply bind_inv_Ret in Hs. destruct Hs as (x & s1 & Hx & Hs). inversion Hs; subst.
    rewrite alist_get_set_eq.
    apply get_inv in Hx. destruct Hx as [-> Hx].
    rewrite (untouched_member _ _ _ _ key U Hi eq_refl) in Hx. simpl in Hx.
    rewrite Hi, Hk in Hx. inversion Hx; subst.
    exists (VRef a). split; [reflexivity|]. split; [reflexivity|].
    apply (U _ _ Ha). reflexivity.
  - (* and so does the factory *)
    intros acc v s0 acc' s0' X [-> Ha0] Hacc Hs.
    destruct (step_rel_def _ _ _ _ _ X Hc eq_refl) as [Hc0 Hm0].
    eapply create_field_given; eauto.
    rewrite (array_coercion_branch def (VRef a) s0).
    + unfold is_array. simpl. rewrite Ha0. reflexivity.
    + rewrite Hm0; [assumption | discriminate].
    + apply Hempty; assumption.
    + simpl. rewrite Ha0. reflexivity.
Qed.

(* ================================================================= *)
(** ** The wire round trip of a flat record *)

Lemma alist_set_fresh ps k v : ~ In k (map fst ps) -> alist_set ps k v = ps ++ [(k, v)].
Proof.
  induction ps as [|[k0 v0] r IH]; simpl; intros Hn; [reflexivity|].
  destruct (String.eqb k0 k) eqn:E.
  - apply String.eqb_eq in E. exfalso. apply Hn. left. exact E.
  - rewrite IH; [reflexivity|]. intros F. apply Hn. right. exact F.
Qed.

Lemma assign_app : forall l tgt, NoDup (map fst (tgt ++ l)) -> assign tgt l = tgt ++ l.
Proof.
  unfold assign. induction l as [|[k v] r IH]; intros tgt Hn; simpl.
  - rewrite app_nil_r. reflexivity.
  - rewrite alist_set_fresh.
    + rewrite IH; rewrite <- app_assoc; [reflexivity | exact Hn].
    + rewrite map_app in Hn. simpl in Hn. apply NoDup_remove_2 in Hn.
      intros F. apply Hn. apply in_or_app. left; assumption.
Qed.

Lemma assign_nil l : NoDup (map fst l) -> assign [] l = l.
Proof. intros H. apply (assign_app l []). exact H. Qed.

Lemma In_alist_get (l : alist) k v :
  NoDup (map fst l) -> In (k, v) l -> alist_get l k = Some v.
Proof.
  induction l as [|[k0 v0] r IH]; simpl; intros Hn Hin; [contradiction|].
  inversion Hn as [|? ? Hn0 Hr]; subst.
  destruct Hin as [E | Hin].
  - inversion E; subst. rewrite String.eqb_refl. reflexivity.
  - destruct (String.eqb k0 k) eqn:E.
    + apply String.eqb_eq in E. subst. exfalso. apply Hn0. apply (in_map fst _ _ Hin).
    + auto.
Qed.

Lemma NoDup_map_on {A B} (g : A -> B) (l : list A) :
  (forall x y, In x l -> In y l -> g x = g y -> x = y) -> NoDup l -> NoDup (map g l).
Proof.
  induction l as [|a r IH]; simpl; intros Hg Hn; [constructor|].
  inversion Hn as [|? ? Ha Hr]; subst. constructor.
  - intros F. apply in_map_iff in F. destruct F as (y & Hy & Hin).
    apply Ha. rewrite <- (Hg y a); auto.
  - apply IH; auto.
Qed.

Lemma renamed_keys g vals schema : map fst (renamed g vals schema) = map g (map fst schema).
Proof. unfold renamed. rewrite !map_map. reflexivity. Qed.

Lemma renamed_get g vals schema k :
  NoDup (map g (map fst schema)) -> In k (map fst schema) ->
  alist_get (renamed g vals schema) (g k) = Some (vals k).
Proof.
  intros Hn Hin. apply In_alist_get; [rewrite renamed_keys; assumption|].
  apply in_map_iff in Hin. destruct Hin as ([k0 d] & <- & Hin).
  unfold renamed. apply in_map_iff. exists (k0, d). auto.
Qed.

Lemma renamed_renamed g g' vals schema :
  map (fun kv => (g' (fst kv), snd kv)) (renamed g vals schema)
  = renamed (fun k => g' (g k)) vals schema.
Proof. unfold renamed. rewrite map_map. reflexivity. Qed.

Lemma renamed_ext g g' vals schema :
  (forall k, In k (map fst schema) -> g k = g' k) ->
  renamed g vals schema = renamed g' vals schema.
Proof.
  intros H. unfold renamed. apply map_ext_in. intros [k d] Hin.
  simpl. rewrite H; [reflexivity|]. apply (in_map fst _ _ Hin).
Qed.

(** A loop whose steps leave the state alone and write one key each. *)
Lemma foldM_pure {A} (f : alist -> A -> M alist) (kv : A -> string * value) s :
  forall l acc,
    (forall acc x, In x l -> f acc x s = Ret (alist_set acc (fst (kv x)) (snd (kv x))) s) ->
    foldM f l acc s = Ret (assign acc (map kv l)) s.
Proof.
  induction l as [|x r IH]; intros acc Hf; simpl; [reflexivity|].
  rewrite (bind_Ret _ _ _ _ _ (Hf acc x (or_introl eq_refl))).
  apply IH. intros; apply Hf; right; assumption.
Qed.

(** A loop whose steps leave the state alone and keep an invariant of the
    accumulator. *)
Lemma foldM_kept {A} (f : alist -> A -> M alist) (I : alist -> Prop) s :
  forall l acc,
    (forall acc x, In x l -> I acc -> exists acc', f acc x s = Ret acc' s /\ I acc') ->
    I acc -> exists acc', foldM f l acc s = Ret acc' s /\ I acc'.
Proof.
  induction l as [|x r IH]; intros acc Hf HI; simpl; [eauto|].
  destruct (Hf acc x (or_introl eq_refl) HI) as (a1 & E1 & I1).
  rewrite (bind_Ret _ _ _ _ _ E1). apply IH; [|assumption].
  intros; apply Hf; [right|]; assumption.
Qed.

(** The copy a key renaming makes of a flat plain object. *)
Lemma rename_keys_flat g n r0 fr (L : alist) s :
  nth_error (heap s) r0 = Some (Obj CObject fr L) ->
  (forall k v, In (k, v) L -> forall l, v <> VRef l) ->
  rename_keys g (S (S n)) (VRef r0) s
  = Ret (VRef (List.length (heap s)))
        (grow s [Obj CObject false (assign [] (map (fun kv => (g (fst kv), snd kv)) L))]).
Proof.
  intros Hr Hp.
  change (rename_keys g (S (S n)) (VRef r0) s)
    with ((h <- get_heap ;;
           match nth_error h r0 with
           | Some (Obj CObject _ ps) =>
               qs <- foldM (fun acc kv =>
                              x <- rename_keys g (S n) (snd kv) ;;
                              ret (alist_set acc (g (fst kv)) x)) ps [] ;;
               new_object qs
           | Some (Arr _ es) => vs <- mapM (rename_keys g (S n)) es ;; new_array vs
           | _ => ret (VRef r0)
           end) s).
  unfold bind at 1, get_heap. rewrite Hr.
  rewrite (bind_Ret _ _ s (assign [] (map (fun kv => (g (fst kv), snd kv)) L)) s).
  - reflexivity.
  - apply (foldM_pure _ (fun kv => (g (fst kv), snd kv))).
    intros acc [k v] Hin. simpl fst. simpl snd.
    pose proof (Hp k v Hin) as Hv.
    destruct v; try reflexivity. exfalso. apply (Hv l). reflexivity.
Qed.

Lemma stable_value_prim kind v : stable_value kind v -> forall l, v <> VRef l.
Proof.
  intros [[_ [t ->]] | [[_ [b ->]] | [_ [-> | (n & -> & _)]]]] l; discriminate.
Qed.

Lemma stable_value_equal kind v : stable_value kind v -> strict_equal v v = true.
Proof.
  intros [[_ [t ->]] | [[_ [b ->]] | [_ [-> | (n & -> & _ & _ & E)]]]]; simpl.
  - apply String.eqb_refl.
  - destruct b; reflexivity.
  - reflexivity.
  - exact E.
Qed.

Lemma stable_value_defined kind v : stable_value kind v -> is_undefined v = false.
Proof.
  intros [[_ [t ->]] | [[_ [b ->]] | [_ [-> | (n & -> & _)]]]]; reflexivity.
Qed.

Lemma grow_member s ext v k :
  (forall l, v = VRef l -> nth_error (heap s) l <> None) ->
  member (heap (grow s ext)) v k = member (heap s) v k.
Proof.
  intros H. destruct v; try reflexivity. simpl.
  rewrite nth_error_app1; [reflexivity|]. apply nth_error_Some. apply H. reflexivity.
Qed.

Lemma plain_scalar_grow s ext def kind :
  plain_scalar (heap s) def kind -> plain_scalar (heap (grow s ext)) def kind.
Proof.
  intros (Hc & Ht & Ha & Hs & Hd).
  assert (A : forall l, def = VRef l -> nth_error (heap s) l <> None).
  { intros l ->. simpl in Hc. destruct (nth_error (heap s) l); discriminate. }
  unfold plain_scalar. rewrite !grow_member by assumption.
  split; [|auto]. destruct def; try discriminate. simpl in *.
  rewrite nth_error_app1; [assumption|]. apply nth_error_Some. apply A. reflexivity.
Qed.

Lemma wire_key_plain def key s :
  member (heap s) def "apiKey" = Some VUndefined -> truthy def = true ->
  wire_key def key s = Ret key s.
Proof.
  intros Ha Ht. unfold wire_key. rewrite Ht.
  rewrite (bind_Ret _ _ _ _ _ (get_Ret _ _ _ _ Ha)). reflexivity.
Qed.

Lemma plain_scalar_truthy h def kind : plain_scalar h def kind -> truthy def = true.
Proof. intros (Hc & _). destruct def; simpl in Hc; try discriminate. reflexivity. Qed.

(** The reducer of [serialize] on a plain scalar field. *)
Lemma serialize_field_scalar rec this acc key def kind v s :
  plain_scalar (heap s) def kind ->
  member (heap s) this key = Some v ->
  serialize_field rec this acc (key, def) s = Ret (alist_set acc key v) s.
Proof.
  intros P Hv. pose proof (plain_scalar_truthy _ _ _ P) as T.
  destruct P as (Hc & Ht & Ha & Hs & Hd).
  unfold serialize_field.
  rewrite (bind_Ret _ _ _ _ _ (wire_key_plain def key s Ha T)).
  rewrite (bind_Ret _ _ _ _ _ (get_Ret _ _ _ _ Hs)).
  cbn [strict_equal].
  rewrite (bind_Ret _ _ _ _ _ (get_Ret _ _ _ _ Hv)).
  unfold bind at 1, get_heap. rewrite Hc. reflexivity.
Qed.

(** The reducer of [deserialize] on a plain scalar field. *)
Lemma deserialize_field_scalar rec cj acc key def kind v s :
  helpers_as_specified ->
  plain_scalar (heap s) def kind ->
  member (heap s) cj key = Some v ->
  stable_value kind v ->
  deserialize_field rec cj acc (key, def) s = Ret (alist_set acc key v) s.
Proof.
  intros HH P Hv St. pose proof (plain_scalar_truthy _ _ _ P) as T.
  destruct P as (Hc & Ht & Ha & Hs & Hd).
  unfold deserialize_field.
  rewrite (bind_Ret _ _ _ _ _ (wire_key_plain def key s Ha T)).
  rewrite (bind_Ret _ _ _ _ _ (get_Ret _ _ _ _ Hv)).
  unfold bind at 1, get_heap. rewrite Hc.
  rewrite (bind_Ret _ _ _ _ _ (getValueOrDefault_stable def kind v s HH Ht Hd St)).
  reflexivity.
Qed.

(** The loop of [create] on a plain scalar field that was given a value. *)
Lemma create_field_scalar acc key def kind v s :
  helpers_as_specified ->
  plain_scalar (heap s) def kind ->
  alist_get acc key = Some v ->
  stable_value kind v ->
  create_field acc (key, def) s = Ret (alist_set acc key v) s.
Proof.
  intros HH (Hc & Ht & Ha & Hs & Hd) Hv St.
  unfold create_field, prop. rewrite Hv, (stable_value_defined _ _ St).
  unfold bind at 1, ret at 1. unfold bind at 1, get_heap. rewrite Hc.
  rewrite (bind_Ret _ _ _ _ _ (getValueOrDefault_stable def kind v s HH Ht Hd St)).
  reflexivity.
Qed.

Lemma alist_get_set_same ps k v k' :
  alist_get ps k = Some v -> alist_get (alist_set ps k v) k' = alist_get ps k'.
Proof.
  intros H. destruct (string_dec k' k) as [-> | Hne].
  - rewrite alist_get_set_eq. symmetry. assumption.
  - apply alist_get_set_neq. congruence.
Qed.

Lemma alist_set_idle (l : alist) k v : alist_get l k = Some v -> alist_set l k v = l.
Proof.
  induction l as [|[k0 v0] r IH]; simpl; [discriminate|].
  destruct (String.eqb k0 k) eqn:Ek; intros Hg.
  - apply String.eqb_eq in Ek. inversion Hg; subst. reflexivity.
  - rewrite IH by assumption. reflexivity.
Qed.

Lemma nth_grow_last s x : nth_error (heap (grow s [x])) (List.length (heap s)) = Some x.
Proof. apply nth_error_last. Qed.

Lemma length_grow1 s x : List.length (heap (grow s [x])) = S (List.length (heap s)).
Proof. simpl. rewrite length_app. simpl. lia. Qed.

Lemma scalar_instance_grow s ext i c psi schema :
  scalar_instance s i c psi schema -> scalar_instance (grow s ext) i c psi schema.
Proof.
  intros ((fri & Hi) & Hno & Hf). split; [|split; [assumption|]].
  - exists fri. apply (grow_untouched s ext _ _ Hi). reflexivity.
  - intros key def Hin. destruct (Hf key def Hin) as (kind & v & P & Hv & St).
    exists kind, v. split; [apply plain_scalar_grow; assumption | auto].
Qed.

Section RoundTrip.

Hypothesis helpers : helpers_as_specified.

Variable c : class_id.
Variable i f0 : loc.
Variable psi schema : alist.

Hypothesis names_return :
  forall k, In k (map fst schema) -> camelize (classify k) = k.

Let vals : string -> value := prop psi.
Let same : string -> string := fun k => k.
Let L0 : alist := renamed same vals schema.
Let L1 : alist := renamed classify vals schema.

Let ready : state -> Prop := flat_record c i f0 psi schema.

Lemma ready_grow t ext : ready t -> ready (grow t ext).
Proof.
  intros [A B]. split; [apply schema_cached_grow | apply scalar_instance_grow]; assumption.
Qed.

Lemma ready_field t key def :
  ready t -> In (key, def) schema ->
  exists kind, plain_scalar (heap t) def kind
               /\ alist_get psi key = Some (vals key) /\ stable_value kind (vals key).
Proof.
  intros [_ (_ & _ & Hf)] Hin. destruct (Hf key def Hin) as (kind & v & P & Hv & St).
  exists kind. unfold vals, prop. rewrite Hv. auto.
Qed.

Lemma ready_nodup t : ready t -> NoDup (map fst schema).
Proof. intros [(_ & _ & _ & H) _]. exact H. Qed.

Lemma ready_this t key :
  ready t -> In key (map fst schema) ->
  member (heap t) (VRef i) key = Some (vals key).
Proof.
  intros R Hin. apply in_map_iff in Hin. destruct Hin as ([k d] & <- & Hin).
  destruct (ready_field t k d R Hin) as (kind & _ & Hv & _).
  destruct R as [_ ((fri & Hi) & _)]. simpl. rewrite Hi, Hv. reflexivity.
Qed.

Lemma L0_keys : map fst L0 = map fst schema.
Proof. unfold L0. rewrite renamed_keys. apply map_id. Qed.

Lemma L0_get t key :
  ready t -> In key (map fst schema) -> alist_get L0 key = Some (vals key).
Proof.
  intros R Hin. apply (renamed_get same vals schema key); [|assumption].
  unfold same. rewrite map_id. apply (ready_nodup t R).
Qed.

Lemma L0_prim t k v : ready t -> In (k, v) L0 -> forall l, v <> VRef l.
Proof.
  intros R Hin. unfold L0, renamed in Hin. apply in_map_iff in Hin.
  destruct Hin as ([k0 d] & E & Hin). inversion E; subst.
  destruct (ready_field t k0 d R Hin) as (kind & _ & _ & St).
  apply (stable_value_prim kind). assumption.
Qed.

Lemma L1_prim t k v : ready t -> In (k, v) L1 -> forall l, v <> VRef l.
Proof.
  intros R Hin. unfold L1, renamed in Hin. apply in_map_iff in Hin.
  destruct Hin as ([k0 d] & E & Hin). inversion E; subst.
  destruct (ready_field t k0 d R Hin) as (kind & _ & _ & St).
  apply (stable_value_prim kind). assumption.
Qed.

Lemma classify_distinct t : ready t -> NoDup (map classify (map fst schema)).
Proof.
  intros R. apply NoDup_map_on; [|apply (ready_nodup t R)].
  intros x y Hx Hy E. rewrite <- (names_return x Hx), <- (names_return y Hy), E.
  reflexivity.
Qed.

Lemma assign_L0 t : ready t -> assign [] L0 = L0.
Proof. intros R. apply assign_nil. rewrite L0_keys. apply (ready_nodup t R). Qed.

Lemma classified_L0 t :
  ready t -> assign [] (map (fun kv => (classify (fst kv), snd kv)) L0) = L1.
Proof.
  intros R. unfold L0. rewrite renamed_renamed. apply assign_nil.
  unfold L1. rewrite renamed_keys. apply (classify_distinct t R).
Qed.

Lemma camelized_L1 t :
  ready t -> assign [] (map (fun kv => (camelize (fst kv), snd kv)) L1) = L0.
Proof.
  intros R. unfold L1. rewrite renamed_renamed.
  rewrite (renamed_ext _ same vals schema names_return).
  apply (assign_L0 t R).
Qed.

(** [serialize], past its defaulting of [options]. *)
Lemma serialize_flat rec t :
  ready t ->
  (c0 <- constructor_of (VRef i) ;;
   fieldDefs <- getFieldDefs c0 ;;
   h <- get_heap ;;
   result <- foldM (serialize_field rec (VRef i)) (own_props h fieldDefs) [] ;;
   r <- new_object result ;;
   classifyObject r) t
  = Ret (VRef (S (List.length (heap t))))
        (grow (grow t [Obj CObject false L0]) [Obj CObject false L1]).
Proof.
  intros R. pose proof R as [Hsc ((fri & Hi) & Hno & _)].
  destruct (schema_cached_get _ _ _ _ Hsc) as [G Ho].
  rewrite (bind_Ret _ _ t c t).
  2:{ unfold constructor_of. rewrite (bind_Ret _ _ t (VClass c) t); [reflexivity|].
      apply get_Ret. simpl. rewrite Hi, Hno. reflexivity. }
  rewrite (bind_Ret _ _ _ _ _ G). unfold bind at 1, get_heap. rewrite Ho.
  rewrite (bind_Ret _ _ t L0 t).
  2:{ rewrite (foldM_pure _ (fun kd => (same (fst kd), vals (fst kd)))).
      - fold (renamed same vals schema). fold L0. rewrite (assign_L0 t R). reflexivity.
      - intros acc [k d] Hin. simpl fst.
        destruct (ready_field t k d R Hin) as (kind & P & _ & _).
        apply (serialize_field_scalar _ _ _ _ _ kind); [assumption|].
        apply ready_this; [assumption|]. apply (in_map fst _ _ Hin). }
  unfold new_object at 1. unfold bind at 1. unfold bind at 1, alloc. unfold ret at 1.
  fold (grow t [Obj CObject false L0]).
  unfold classifyObject. unfold bind at 1, get_heap.
  rewrite length_grow1.
  rewrite (rename_keys_flat classify _ (List.length (heap t)) false L0).
  - rewrite (classified_L0 t R). rewrite length_grow1. reflexivity.
  - simpl. apply nth_error_last.
  - intros k v. apply (L0_prim t k v R).
Qed.

(** [deserialize] of what [serialize_flat] returns. *)
Lemma deserialize_flat fuel t :
  ready t ->
  let w := List.length (heap t) in
  exists r t',
    deserialize (S fuel) c (VRef w) (grow t [Obj CObject false L1]) = Ret (VRef r) t'
    /\ (List.length (heap t) <= r)%nat
    /\ untouched t t'
    /\ forall key, In key (map fst schema) ->
                   member (heap t') (VRef r) key = Some (vals key).
Proof.
  intros R w.
  set (t2 := grow t [Obj CObject true L1]).
  set (t3 := grow t2 [Obj CObject false L0]).
  set (t4 := grow t3 [Obj CObject false L0]).
  assert (R2 : ready t2) by (apply ready_grow; assumption).
  assert (R3 : ready t3) by (apply ready_grow; assumption).
  assert (R4 : ready t4) by (apply ready_grow; assumption).
  destruct (new_instance_spec c L0 t4) as (ext & ps & E & _).
  exists (List.length (heap t4 ++ ext)),
         (mkState ((heap t4 ++ ext) ++ [Obj (CModel c) false (assign ps L0)])
                  (statics t4) (console t4)).
  split; [|split; [|split]].
  - change (deserialize (S fuel) c (VRef w) (grow t [Obj CObject false L1]))
      with ((json <- ret (VRef w) ;;
             freeze json ;;;
             camelizedJson <- camelizeObject json ;;
             deserialize_normalized (deserialize fuel) c camelizedJson)
              (grow t [Obj CObject false L1])).
    unfold bind at 1, ret at 1.
    rewrite (bind_Ret _ _ _ tt t2).
    2:{ unfold freeze, bind, get_heap. unfold w. rewrite nth_grow_last.
        unfold store, grow. cbn [heap statics console]. rewrite update_last. reflexivity. }
    rewrite (bind_Ret _ _ t2 (VRef (List.length (heap t2))) t3).
    2:{ unfold camelizeObject. unfold bind at 1, get_heap. unfold t2 at 1.
        rewrite length_grow1.
        rewrite (rename_keys_flat camelize _ w true L1).
        - rewrite (camelized_L1 t R). reflexivity.
        - simpl. apply nth_error_last.
        - intros k v. apply (L1_prim t k v R). }
    unfold deserialize_normalized. cbn [is_nullish].
    destruct (schema_cached_get _ _ _ _ (proj1 R3)) as [G3 Ho3].
    rewrite (bind_Ret _ _ _ _ _ G3). unfold bind at 1, get_heap. rewrite Ho3.
    rewrite (bind_Ret _ _ t3 L0 t3).
    2:{ rewrite (foldM_pure _ (fun kd => (same (fst kd), vals (fst kd)))).
        - fold (renamed same vals schema). fold L0. rewrite (assign_L0 t R). reflexivity.
        - intros acc [k d] Hin. simpl fst.
          destruct (ready_field t3 k d R3 Hin) as (kind & P & _ & St).
          apply (deserialize_field_scalar _ _ _ _ _ kind); try assumption.
          unfold t3. simpl. rewrite nth_error_last.
          rewrite (L0_get t k R (in_map fst _ _ Hin)). reflexivity. }
    rewrite (bind_Ret _ _ t3 (VRef (List.length (heap t3))) t4) by reflexivity.
    unfold create. unfold bind at 1, get_heap.
    assert (Ot : is_object_type (heap t4) (VRef (List.length (heap t3))) = true).
    { unfold t4. simpl. rewrite nth_error_last. reflexivity. }
    assert (Op : own_props (heap t4) (VRef (List.length (heap t3))) = L0).
    { unfold t4. simpl. rewrite nth_error_last. reflexivity. }
    rewrite Ot, Op, (assign_L0 t R).
    destruct (schema_cached_get _ _ _ _ (proj1 R4)) as [G4 Ho4].
    rewrite (bind_Ret _ _ _ _ _ G4). unfold bind at 1, get_heap. rewrite Ho4.
    rewrite (bind_Ret _ _ t4 L0 t4).
    2:{ destruct (foldM_kept create_field (fun acc => acc = L0) t4 schema L0)
          as (acc' & Ea & ->); [| reflexivity | exact Ea].
        intros acc [k d] Hin ->.
        destruct (ready_field t4 k d R4 Hin) as (kind & P & _ & St).
        pose proof (L0_get t k R (in_map fst _ _ Hin)) as Hg.
        exists L0. split; [|reflexivity].
        rewrite (create_field_scalar L0 k d kind (vals k) t4 helpers P Hg St).
        rewrite (alist_set_idle _ _ _ Hg). reflexivity. }
    exact E.
  - unfold t4, t3, t2. simpl. rewrite !length_app. simpl. lia.
  - intros l cl Hl _. simpl.
    assert (l < List.length (heap t))%nat by (apply nth_error_Some; congruence).
    rewrite nth_error_app1 by (rewrite !length_app; simpl; lia).
    rewrite nth_error_app1 by (rewrite !length_app; simpl; lia).
    unfold t4, t3, t2. simpl.
    rewrite nth_error_app1 by (rewrite !length_app; simpl; lia).
    rewrite nth_error_app1 by (rewrite !length_app; simpl; lia).
    rewrite nth_error_app1 by lia. assumption.
  - intros key Hin. simpl. rewrite nth_error_last.
    rewrite (alist_get_assign L0 ps key (vals key)); [reflexivity | |].
    + unfold wf_alist. rewrite L0_keys. apply (ready_nodup t R).
    + apply (L0_get t key R Hin).
Qed.

End RoundTrip.

(** The round trip of a flat record, step by step: [serialize] returns,
    [deserialize] of what it returns gives a new instance, nothing that is
    not a descriptor has changed, and both instances hold, under every
    field name, the value of the original. *)
Lemma flat_round_trip :
  helpers_as_specified ->
  forall (f f' : nat) (options : value) (c : class_id) (i f0 : loc)
         (psi schema : alist) (s : state),
    (forall k, In k (map fst schema) -> camelize (classify k) = k) ->
    schema_cached s c f0 schema ->
    scalar_instance s i c psi schema ->
    exists w s1 r s2,
      serialize (S f) (VRef i) options s = Ret w s1
      /\ deserialize (S f') c w s1 = Ret (VRef r) s2
      /\ r <> i
      /\ untouched s s2
      /\ (forall key, In key (map fst schema) ->
                      member (heap s2) (VRef r) key = Some (prop psi key))
      /\ (forall key, In key (map fst schema) ->
                      member (heap s) (VRef i) key = Some (prop psi key)).
Proof.
  intros HH f f' options c i f0 psi schema s Hnames Hsc Hinst.
  assert (R : flat_record c i f0 psi schema s) by (split; assumption).
  set (L0 := renamed (fun k => k) (prop psi) schema).
  set (L1 := renamed classify (prop psi) schema).
  assert (T : exists t opts,
             flat_record c i f0 psi schema t /\ untouched s t
             /\ serialize (S f) (VRef i) options s
                = (c0 <- constructor_of (VRef i) ;;
                   fieldDefs <- getFieldDefs c0 ;;
                   h <- get_heap ;;
                   result <- foldM (serialize_field (fun v => serialize f v opts) (VRef i))
                                   (own_props h fieldDefs) [] ;;
                   r <- new_object result ;;
                   classifyObject r) t).
  { cbn [serialize]. unfold bind at 1, get_heap.
    destruct (is_object_type (heap s) options).
    - exists s, options. split; [assumption|]. split; [apply untouched_refl | reflexivity].
    - exists (grow s [Obj CObject false []]), (VRef (List.length (heap s))).
      split; [|split; [apply grow_untouched | reflexivity]].
      destruct R as [A B]. split.
      + apply schema_cached_grow; assumption.
      + apply scalar_instance_grow; assumption. }
  destruct T as (t & opts & Rt & Ut & Es).
  rewrite (serialize_flat c i f0 psi schema Hnames _ t Rt) in Es.
  fold L0 in Es. fold L1 in Es.
  set (t1 := grow t [Obj CObject false L0]) in *.
  assert (R1 : flat_record c i f0 psi schema t1).
  { destruct Rt as [A B]. split.
    - apply schema_cached_grow; assumption.
    - apply scalar_instance_grow; assumption. }
  destruct (deserialize_flat HH c i f0 psi schema Hnames f' t1 R1)
    as (r & t' & Ed & Hr & U1 & Hm).
  cbv zeta in Ed. fold L1 in Ed.
  assert (Ew : S (List.length (heap t)) = List.length (heap t1)).
  { unfold t1. rewrite length_grow1. reflexivity. }
  rewrite Ew in Es.
  destruct Hinst as ((fri & Hi) & Hno & Hf).
  assert (U : untouched s t').
  { eapply untouched_trans; [exact Ut|].
    eapply untouched_trans; [apply (grow_untouched t [Obj CObject false L0])|]. exact U1. }
  assert (Mi : forall key, In key (map fst schema) ->
                           member (heap s) (VRef i) key = Some (prop psi key)).
  { intros key Hin. apply in_map_iff in Hin. destruct Hin as ([k d] & <- & Hin).
    destruct (Hf k d Hin) as (kind & v & _ & Hv & _).
    simpl. rewrite Hi. unfold prop. rewrite Hv. reflexivity. }
  exists (VRef (List.length (heap t1))), (grow t1 [Obj CObject false L1]), r, t'.
  split; [exact Es|]. split; [exact Ed|]. split; [|split; [exact U|split; [exact Hm|exact Mi]]].
  intros E. subst r.
  assert (i < List.length (heap s))%nat by (apply nth_error_Some; congruence).
  assert (i < List.length (heap t1))%nat.
  { apply nth_error_Some.
    pose proof (grow_untouched t [Obj CObject false L0] i _ (Ut _ _ Hi eq_refl) eq_refl)
      as G.
    fold t1 in G. congruence. }
  lia.
Qed.

(** X16.  A flat record survives the wire.  For an instance of a class that
    holds its cached schema, all of whose fields are string, number or
    boolean attributes without wire-key override, declared default or
    [serialize: false], and hold a value of their kind (a number that
    prints and parses back to itself, or [null]), with case conversions
    that return every field name ([camelize (classify k) = k]) and
    [isEmpty] and [isNone] as specified: [serialize] returns, [deserialize]
    of its result returns a new instance, every schema field of which holds
    the value the original holds, and the field-by-field comparison of the
    two answers [true]. *)
Theorem flat_record_survives_the_wire :
  helpers_as_specified ->
  forall (f f' : nat) (options : value) (c : class_id) (i f0 : loc)
         (psi schema : alist) (s : state),
    (forall k, In k (map fst schema) -> camelize (classify k) = k) ->
    schema_cached s c f0 schema ->
    scalar_instance s i c psi schema ->
    exists w s1 r s2,
      serialize (S f) (VRef i) options s = Ret w s1
      /\ deserialize (S f') c w s1 = Ret r s2
      /\ r <> VRef i
      /\ (forall key, In key (map fst schema) ->
                      member (heap s2) r key = member (heap s) (VRef i) key)
      /\ every_field_equal r (VRef i) (map VStr (map fst schema)) s2
         = Ret (VBool true) s2.
Proof.
  intros HH f f' options c i f0 psi schema s Hnames Hsc Hinst.
  destruct (flat_round_trip HH f f' options c i f0 psi schema s Hnames Hsc Hinst)
    as (w & s1 & r & s2 & Es & Ed & Hne & U & Hr & Hi).
  destruct Hinst as ((fri & Hcell) & _ & Hf).
  exists w, s1, (VRef r), s2.
  split; [exact Es|]. split; [exact Ed|]. split; [congruence|]. split.
  - intros key Hin. rewrite (Hr key Hin), (Hi key Hin). reflexivity.
  - apply every_field_equal_agree. intros k Hin. unfold read.
    rewrite (Hr k Hin).
    rewrite (untouched_member s s2 i _ k U Hcell eq_refl), (Hi k Hin).
    apply in_map_iff in Hin. destruct Hin as ([k0 d] & <- & Hin).
    destruct (Hf k0 d Hin) as (kind & v & _ & Hv & St).
    simpl fst. unfold prop. rewrite Hv. apply (stable_value_equal kind). assumption.
Qed.


(* ================================================================= *)
(** ** What the factory copies *)


(** What a returning call of [create] went through, for a class that holds
    its cached schema. *)
Lemma create_run c props s r s' f0 schema :
  schema_cached s c f0 schema ->
  create c props s = Ret r s' ->
  exists iv s2 ext ps0,
    foldM create_field schema
          (if is_object_type (heap s) props then assign [] (own_props (heap s) props) else [])
          s = Ret iv s2
    /\ extends s s2
    /\ wf_alist iv
    /\ r = VRef (List.length (heap s2 ++ ext))
    /\ s' = mkState ((heap s2 ++ ext) ++ [Obj (CModel c) false (assign ps0 iv)])
                    (statics s2) (console s2).
Proof.
  intros Hsc H.
  destruct (create_inv _ _ _ _ _ H)
    as (fd & s1 & iv & s2 & ext & ps0 & Hfd & Hiv & Wiv & -> & ->).
  destruct (schema_cached_get _ _ _ _ Hsc) as [G Ho].
  rewrite G in Hfd. inversion Hfd; subst fd s1. rewrite Ho in Hiv.
  exists iv, s2, ext, ps0. split; [assumption|]. split; [|split; [assumption|]].
  - eapply resp_Ret; [|exact Hiv]. apply (resp_foldM _ extends_refl extends_trans).
    intros; apply resp_ext_create_field.
  - split; reflexivity.
Qed.

Lemma initial_values_lack props (h : heap_t) key :
  ~ In key (map fst (own_props h props)) ->
  alist_get (if is_object_type h props then assign [] (own_props h props) else []) key = None.
Proof.
  intros Hn. destruct (is_object_type h props); [|reflexivity].
  rewrite alist_get_assign_other by assumption. reflexivity.
Qed.

Lemma extends_def s s' d ct k :
  extends s s' -> ctor_of (heap s) d = Some ct ->
  ctor_of (heap s') d = Some ct /\ member (heap s') d k = member (heap s) d k.
Proof.
  intros He Hc. split; [eapply extends_ctor_of; eauto|].
  destruct d; simpl in Hc; try discriminate.
  destruct (nth_error (heap s) l) as [cl|] eqn:E; [|discriminate].
  simpl. rewrite (extends_nth _ _ _ _ He E), E. reflexivity.
Qed.



(* ================================================================= *)
(** ** Fields that [create] receives no value for *)

Lemma getValueOrDefault_undefined_fragment fieldDef t s :
  isEmpty (heap s) VUndefined = true ->
  member (heap s) fieldDef "defaultValue" = Some VUndefined ->
  member (heap s) fieldDef "type" = Some (VClass t) ->
  getValueOrDefault fieldDef VUndefined s = Ret VUndefined s.
Proof.
  intros He Hd Ht. unfold getValueOrDefault. unfold bind at 1, get_heap. rewrite He.
  rewrite (bind_Ret _ _ _ _ _ (get_Ret _ _ _ _ Hd)).
  cbn [is_function]. unfold bind at 1, ret at 1. cbn [negb is_undefined].
  rewrite (bind_Ret _ _ _ _ _ (get_Ret _ _ _ _ Ht)).
  cbn [kind_is strict_equal]. unfold coerce.
  rewrite (bind_Ret _ _ _ _ _ (get_Ret _ _ _ _ Ht)). reflexivity.
Qed.

(** The field of the returned instance holds what the step of the loop for
    that field wrote, when [props] brought nothing under its name. *)
Lemma create_absent (Phi : state -> value -> Prop) c props s r s' f0 schema key def :
  schema_cached s c f0 schema ->
  In (key, def) schema ->
  ~ In key (map fst (own_props (heap s) props)) ->
  (forall s0 tail v, Phi s0 v ->
                     Phi (mkState (heap s0 ++ tail) (statics s0) (console s0)) v) ->
  (forall s0 s0' v, extends s0 s0' -> Phi s0 v -> Phi s0' v) ->
  (forall acc s0 acc' s0',
      extends s s0 -> alist_get acc key = None ->
      create_field acc (key, def) s0 = Ret acc' s0' ->
      exists v, alist_get acc' key = Some v /\ Phi s0' v) ->
  create c props s = Ret r s' ->
  exists v, member (heap s') r key = Some v /\ Phi s' v.
Proof.
  intros Hsc Hin Hno Hgrow Hext Hstep H.
  destruct (create_run _ _ _ _ _ _ _ Hsc H) as (iv & s2 & ext & ps0 & Hiv & E2 & Wiv & -> & ->).
  pose proof Hsc as (_ & _ & _ & Hnd).
  destruct (foldM_traced create_field extends extends_refl extends_trans key def
              (fun s0 => extends s s0) (fun _ x => x = None) Phi) with
      (l := schema)
      (acc := if is_object_type (heap s) props
              then assign [] (own_props (heap s) props) else [])
      (s := s) (acc' := iv) (s' := s2)
    as (v & Hv & HP); auto.
  - intros acc k d s0 acc' s0' Hs.
    destruct (create_field_other _ _ _ _ _ _ Hs) as [He Hoth].
    split; [assumption|]. split; [assumption|].
    intros -> -> Hg Hacc. eapply Hstep; eauto.
  - intros s0 s0' He Hg. eapply extends_trans; eauto.
  - apply extends_refl.
  - apply initial_values_lack. assumption.
  - exists v. split.
    + simpl. rewrite nth_error_last. rewrite (alist_get_assign iv ps0 key v Wiv Hv).
      reflexivity.
    + rewrite <- app_assoc. apply Hgrow. assumption.
Qed.

(** C9 (code bug).  What [create] puts in a field that [props] brings no
    value for and whose descriptor declares no default, for a class that
    holds its cached schema and a field name that objects do not inherit:
    [null] for a number or an enum, [false] for a boolean, the empty string
    for a string, a new empty array for an array and for a fragment array,
    and, for a single fragment, nothing: the field is [undefined] on the
    instance, where [deserialize] puts [null] and where the comment of
    [getValueOrDefault] promises a default for the type. *)
Theorem create_resolves_absent_inputs :
  (forall h, isEmpty h VUndefined = true) ->
  forall (c : class_id) (props : value) (s : state) (r : value) (s' : state)
         (f0 : loc) (schema : alist) (key : string) (def : value),
    schema_cached s c f0 schema ->
    In (key, def) schema ->
    member (heap s) def "defaultValue" = Some VUndefined ->
    ~ In key (map fst (own_props (heap s) props)) ->
    inherited_name key = false ->
    create c props s = Ret r s' ->
    (ctor_of (heap s) def = Some CAttrFieldDef ->
     forall k, member (heap s) def "type" = Some (VStr k) ->
       (k = "number" \/ k = "enum" -> member (heap s') r key = Some VNull)
       /\ (k = "boolean" -> member (heap s') r key = Some (VBool false))
       /\ (k = "string" -> member (heap s') r key = Some (VStr EmptyString))
       /\ (k = "array" ->
           exists l, member (heap s') r key = Some (VRef l)
                     /\ (List.length (heap s) <= l)%nat
                     /\ nth_error (heap s') l = Some (Arr false [])))
    /\ (ctor_of (heap s) def = Some CFragmentArrayFieldDef ->
        exists l, member (heap s') r key = Some (VRef l)
                  /\ (List.length (heap s) <= l)%nat
                  /\ nth_error (heap s') l = Some (Arr false []))
    /\ (ctor_of (heap s) def = Some CFragmentFieldDef ->
        forall t, member (heap s) def "type" = Some (VClass t) ->
                  member (heap s') r key = Some VUndefined).
Proof.
  intros Hempty c props s r s' f0 schema key def Hsc Hin Hd Hno Hown H.
  (* the step of the loop, up to the dispatch on the descriptor *)
  assert (St : forall ct acc s0 acc' s0',
             ctor_of (heap s) def = Some ct ->
             extends s s0 -> alist_get acc key = None ->
             create_field acc (key, def) s0 = Ret acc' s0' ->
             ctor_of (heap s0) def = Some ct
             /\ (forall k, member (heap s0) def k = member (heap s) def k)
             /\ match ct with
                | CAttrFieldDef | CFragmentFieldDef =>
                    (v <- getValueOrDefault def VUndefined ;; ret (alist_set acc key v)) s0
                | CFragmentArrayFieldDef =>
                    (v <- new_array [] ;; ret (alist_set acc key v)) s0
                | _ => Ret acc s0
                end = Ret acc' s0').
  { intros ct acc s0 acc' s0' Hc Hg Hacc Hs.
    destruct (extends_def s s0 def _ "defaultValue" Hg Hc) as [Hc0 Hd0].
    split; [assumption|]. split.
    - intros k. apply (proj2 (extends_def s s0 def _ k Hg Hc)).
    - rewrite Hd in Hd0.
      unfold create_field, prop in Hs. rewrite Hacc in Hs. cbn [is_undefined] in Hs.
      rewrite (bind_Ret _ _ _ _ _ (get_Ret _ _ _ _ Hd0)) in Hs.
      unfold bind at 1, get_heap in Hs. rewrite Hc0 in Hs.
      destruct ct; exact Hs. }
  assert (Const : forall v0 : value,
             (forall acc s0 acc' s0',
                 extends s s0 -> alist_get acc key = None ->
                 create_field acc (key, def) s0 = Ret acc' s0' ->
                 exists v, alist_get acc' key = Some v /\ v = v0) ->
             member (heap s') r key = Some v0).
  { intros v0 Hstep.
    destruct (create_absent (fun _ v => v = v0) c props s r s' f0 schema key def
                Hsc Hin Hno) as (v & Hv & ->); auto. }
  assert (Fresh : (forall acc s0 acc' s0',
                      extends s s0 -> alist_get acc key = None ->
                      create_field acc (key, def) s0 = Ret acc' s0' ->
                      acc' = alist_set acc key (VRef (List.length (heap s0)))
                      /\ s0' = grow s0 [Arr false []]) ->
                  exists l, member (heap s') r key = Some (VRef l)
                            /\ (List.length (heap s) <= l)%nat
                            /\ nth_error (heap s') l = Some (Arr false [])).
  { intros Hstep.
    destruct (create_absent
                (fun s0 v => exists l, v = VRef l /\ (List.length (heap s) <= l)%nat
                                       /\ nth_error (heap s0) l = Some (Arr false []))
                c props s r s' f0 schema key def Hsc Hin Hno)
      as (v & Hv & l & -> & Hl & Hcell); eauto.
    - intros s0 tail v (l & -> & Hl & Hcell). exists l.
      split; [reflexivity|]. split; [assumption|].
      simpl. rewrite nth_error_app1; [assumption|]. apply nth_error_Some. congruence.
    - intros s0 s0' v He (l & -> & Hl & Hcell). exists l.
      split; [reflexivity|]. split; [assumption|]. eapply extends_nth; eauto.
    - intros acc s0 acc' s0' Hg Hacc Hs.
      destruct (Hstep _ _ _ _ Hg Hacc Hs) as [-> ->].
      exists (VRef (List.length (heap s0))). split; [apply alist_get_set_eq|].
      exists (List.length (heap s0)). split; [reflexivity|].
      split; [apply extends_length; assumption|]. simpl. apply nth_error_last. }
  split; [|split].
  - intros Hc k Hk.
    assert (G : forall acc s0 acc' s0',
               extends s s0 -> alist_get acc key = None ->
               create_field acc (key, def) s0 = Ret acc' s0' ->
               isEmpty (heap s0) VUndefined = true
               /\ member (heap s0) def "defaultValue" = Some VUndefined
               /\ member (heap s0) def "type" = Some (VStr k)
               /\ (v <- getValueOrDefault def VUndefined ;; ret (alist_set acc key v)) s0
                  = Ret acc' s0').
    { intros acc s0 acc' s0' Hg Hacc Hs.
      destruct (St _ _ _ _ _ Hc Hg Hacc Hs) as (_ & Hm & E).
      split; [apply Hempty|]. split; [rewrite Hm; assumption|].
      split; [rewrite Hm; assumption | exact E]. }
    split; [|split; [|split]].
    + intros Hn. apply Const. intros acc s0 acc' s0' Hg Hacc Hs.
      destruct (G _ _ _ _ Hg Hacc Hs) as (He0 & Hd0 & Hk0 & E).
      rewrite (bind_Ret _ _ s0 VNull s0) in E.
      * inversion E; subst. exists VNull. split; [apply alist_get_set_eq | reflexivity].
      * apply (proj1 (getValueOrDefault_kind_default def VUndefined s0 k He0 Hd0 Hk0) Hn).
    + intros Hn. apply Const. intros acc s0 acc' s0' Hg Hacc Hs.
      destruct (G _ _ _ _ Hg Hacc Hs) as (He0 & Hd0 & Hk0 & E).
      rewrite (bind_Ret _ _ s0 (VBool false) s0) in E.
      * inversion E; subst. exists (VBool false).
        split; [apply alist_get_set_eq | reflexivity].
      * apply (proj1 (proj2 (getValueOrDefault_kind_default def VUndefined s0 k He0 Hd0 Hk0))
                     Hn).
    + intros Hn. apply Const. intros acc s0 acc' s0' Hg Hacc Hs.
      destruct (G _ _ _ _ Hg Hacc Hs) as (He0 & Hd0 & Hk0 & E).
      rewrite (bind_Ret _ _ s0 (VStr EmptyString) s0) in E.
      * inversion E; subst. exists (VStr EmptyString).
        split; [apply alist_get_set_eq | reflexivity].
      * apply (proj1 (proj2 (proj2 (getValueOrDefault_kind_default
                                       def VUndefined s0 k He0 Hd0 Hk0))) Hn).
    + intros Hn. apply Fresh. intros acc s0 acc' s0' Hg Hacc Hs.
      destruct (G _ _ _ _ Hg Hacc Hs) as (He0 & Hd0 & Hk0 & E).
      rewrite (bind_Ret _ _ s0 (VRef (List.length (heap s0))) (grow s0 [Arr false []])) in E.
      * inversion E; subst. split; reflexivity.
      * apply (proj2 (proj2 (proj2 (getValueOrDefault_kind_default
                                       def VUndefined s0 k He0 Hd0 Hk0))) Hn).
  - intros Hc. apply Fresh. intros acc s0 acc' s0' Hg Hacc Hs.
    destruct (St _ _ _ _ _ Hc Hg Hacc Hs) as (_ & _ & E).
    unfold new_array, bind, alloc, ret in E. inversion E; subst. split; reflexivity.
  - intros Hc t Ht. apply Const. intros acc s0 acc' s0' Hg Hacc Hs.
    destruct (St _ _ _ _ _ Hc Hg Hacc Hs) as (_ & Hm & E).
    rewrite (bind_Ret _ _ s0 VUndefined s0) in E.
    + inversion E; subst. exists VUndefined. split; [apply alist_get_set_eq | reflexivity].
    + apply (getValueOrDefault_undefined_fragment def t s0 (Hempty _)).
      * rewrite Hm; assumption.
      * rewrite Hm; assumption.
Qed.

(* ================================================================= *)
(** ** Nested records that the wire does not carry *)

Lemma deserialize_field_other rec cj acc k d s acc' s' :
  deserialize_field rec cj acc (k, d) s = Ret acc' s' ->
  (forall k', k' <> k -> alist_get acc' k' = alist_get acc k')
  /\ (wf_alist acc -> wf_alist acc').
Proof.
  unfold deserialize_field. intros H.
  apply bind_inv_Ret in H. destruct H as (a & s1 & _ & H).
  apply bind_inv_Ret in H. destruct H as (val & s2 & _ & H).
  unfold bind at 1, get_heap in H.
  assert (G : acc' = acc \/ exists v, acc' = alist_set acc k v).
  { destruct (ctor_of (heap s2) d) as [[ | | | | |]|]; try (inversion H; subst; auto; fail).
    - apply bind_inv_Ret in H. destruct H as (v & s3 & _ & H). inversion H; eauto.
    - apply bind_inv_Ret in H. destruct H as (v & s3 & _ & H). inversion H; eauto.
    - destruct (array_elems (heap s2) val).
      + apply bind_inv_Ret in H. destruct H as (ws & s3 & _ & H).
        apply bind_inv_Ret in H. destruct H as (v & s4 & _ & H). inversion H; eauto.
      + apply bind_inv_Ret in H. destruct H as (v & s3 & _ & H). inversion H; eauto. }
  destruct G as [-> | [v ->]]; split; auto.
  - intros k' Hne. apply alist_get_set_neq. congruence.
  - apply wf_alist_set.
Qed.

(** What a returning call of [deserialize] went through, on a plain object
    and a class that holds its cached schema. *)
Lemma deserialize_run f c o s r s' fro ps f0 schema :
  schema_cached s c f0 schema ->
  nth_error (heap s) o = Some (Obj CObject fro ps) ->
  deserialize (S f) c (VRef o) s = Ret r s' ->
  exists qs s2 mp s5 iv s7 ext ps0,
    step_rel true s s2
    /\ (forall k, In k (map fst qs) -> exists k0, In k0 (map fst ps) /\ k = camelize k0)
    /\ foldM (deserialize_field (deserialize f) (VRef (List.length (heap s2)))) schema []
             (grow s2 [Obj CObject false qs]) = Ret mp s5
    /\ step_rel true (grow s2 [Obj CObject false qs]) s5
    /\ foldM create_field schema (assign [] mp) (grow s5 [Obj CObject false mp]) = Ret iv s7
    /\ wf_alist mp /\ wf_alist iv
    /\ r = VRef (List.length (heap s7 ++ ext))
    /\ s' = mkState ((heap s7 ++ ext) ++ [Obj (CModel c) false (assign ps0 iv)])
                    (statics s7) (console s7).
Proof.
  intros Hsc Ho H.
  change (deserialize (S f) c (VRef o) s)
    with ((json <- ret (VRef o) ;;
           freeze json ;;;
           camelizedJson <- camelizeObject json ;;
           deserialize_normalized (deserialize f) c camelizedJson) s) in H.
  unfold bind at 1, ret at 1 in H.
  apply bind_inv_Ret in H. destruct H as (u & s1 & Hfz & H).
  assert (E1 : s1 = mkState (update (heap s) o (Obj CObject true ps)) (statics s) (console s)).
  { unfold freeze, bind, get_heap in Hfz. rewrite Ho in Hfz. inversion Hfz. reflexivity. }
  assert (X1 : step_rel true s s1) by (eapply resp_Ret; [apply resp_step_freeze | exact Hfz]).
  apply bind_inv_Ret in H. destruct H as (cj & s3 & Hcj & H).
  unfold camelizeObject in Hcj. unfold bind at 1, get_heap in Hcj.
  assert (Ho1 : nth_error (heap s1) o = Some (Obj CObject true ps)).
  { subst s1. simpl. eapply nth_error_update_eq. exact Ho. }
  destruct (rename_keys_object camelize _ o true ps s1 _ _ Ho1 Hcj)
    as (qs & s2 & X2 & -> & -> & Hk).
  assert (X12 : step_rel true s s2).
  { eapply step_rel_trans; [exact X1|]. apply extends_step_rel. assumption. }
  set (s3 := grow s2 [Obj CObject false qs]) in *.
  assert (X3 : step_rel true s s3).
  { eapply step_rel_trans; [exact X12|]. apply extends_step_rel.
    split; [reflexivity|]. exists [Obj CObject false qs].
    split; [reflexivity | constructor; [reflexivity | constructor]]. }
  unfold deserialize_normalized in H. cbn [is_nullish] in H.
  destruct (schema_cached_get _ _ _ _ (schema_cached_step _ _ _ _ _ _ X3 Hsc)) as [G3 Ho3].
  rewrite (bind_Ret _ _ _ _ _ G3) in H. unfold bind at 1, get_heap in H. rewrite Ho3 in H.
  apply bind_inv_Ret in H. destruct H as (mp & s5 & Hmp & H).
  assert (X5 : step_rel true s3 s5).
  { eapply resp_Ret; [|exact Hmp].
    apply (resp_foldM _ (step_rel_refl true) (step_rel_trans true)).
    intros. apply resp_step_deserialize_field. intros. apply resp_step_deserialize. }
  assert (W : wf_alist mp).
  { apply (foldM_acc_inv (deserialize_field (deserialize f) (VRef (List.length (heap s2))))
                         wf_alist) with (2 := Hmp).
    - intros acc [k d] s0 acc' s0' Hs.
      apply (proj2 (deserialize_field_other _ _ _ _ _ _ _ _ Hs)).
    - constructor. }
  rewrite (bind_Ret _ _ s5 (VRef (List.length (heap s5))) (grow s5 [Obj CObject false mp]))
    in H by reflexivity.
  set (s6 := grow s5 [Obj CObject false mp]) in *.
  assert (X6 : step_rel true s s6).
  { eapply step_rel_trans; [exact X3|]. eapply step_rel_trans; [exact X5|].
    apply extends_step_rel.
    split; [reflexivity|]. exists [Obj CObject false mp].
    split; [reflexivity | constructor; [reflexivity | constructor]]. }
  destruct (schema_cached_get _ _ _ _ (schema_cached_step _ _ _ _ _ _ X6 Hsc)) as [G6 Ho6].
  destruct (create_inv _ _ _ _ _ H)
    as (fd & s4 & iv & s7 & ext & ps0 & Hfd' & Hiv & Wiv & -> & ->).
  rewrite G6 in Hfd'. inversion Hfd'; subst fd s4. rewrite Ho6 in Hiv.
  assert (Ot : is_object_type (heap s6) (VRef (List.length (heap s5))) = true).
  { unfold s6. simpl. rewrite nth_error_last. reflexivity. }
  assert (Op : own_props (heap s6) (VRef (List.length (heap s5))) = mp).
  { unfold s6. simpl. rewrite nth_error_last. reflexivity. }
  rewrite Ot, Op in Hiv.
  exists qs, s2, mp, s5, iv, s7, ext, ps0.
  split; [assumption|]. split; [assumption|]. split; [assumption|]. split; [assumption|].
  split; [assumption|]. split; [assumption|]. split; [assumption|]. split; reflexivity.
Qed.

Lemma getValueOrDefault_null_fragment fieldDef t s :
  isEmpty (heap s) VNull = true ->
  member (heap s) fieldDef "defaultValue" = Some VUndefined ->
  member (heap s) fieldDef "type" = Some (VClass t) ->
  getValueOrDefault fieldDef VNull s = Ret VNull s.
Proof.
  intros He Hd Ht. unfold getValueOrDefault. unfold bind at 1, get_heap. rewrite He.
  rewrite (bind_Ret _ _ _ _ _ (get_Ret _ _ _ _ Hd)).
  cbn [is_function]. unfold bind at 1, ret at 1. cbn [negb is_undefined].
  rewrite (bind_Ret _ _ _ _ _ (get_Ret _ _ _ _ Ht)).
  cbn [kind_is strict_equal]. unfold coerce.
  rewrite (bind_Ret _ _ _ _ _ (get_Ret _ _ _ _ Ht)). reflexivity.
Qed.

(** X18.  A fragment that the wire does not carry becomes [null].  For a
    class that holds its cached schema and a fragment field of it without
    wire-key override or declared default, under a name that objects do not
    inherit: when the input is a plain object none of whose keys camelizes
    to the field's name, the instance that [deserialize] returns holds
    [null] in that field (where [create] called without a value for it would
    leave the field [undefined]). *)
Theorem deserialize_sets_absent_fragment_to_null :
  (forall h, isEmpty h VNull = true) ->
  forall (f : nat) (c : class_id) (o : loc) (s : state) (r : value) (s' : state)
         (fro : bool) (ps : alist) (f0 : loc) (schema : alist)
         (key : string) (def : value) (t : class_id),
    schema_cached s c f0 schema ->
    nth_error (heap s) o = Some (Obj CObject fro ps) ->
    In (key, def) schema ->
    ctor_of (heap s) def = Some CFragmentFieldDef ->
    member (heap s) def "type" = Some (VClass t) ->
    member (heap s) def "apiKey" = Some VUndefined ->
    member (heap s) def "defaultValue" = Some VUndefined ->
    (forall k, In k (map fst ps) -> camelize k <> key) ->
    inherited_name key = false ->
    deserialize (S (S f)) c (VRef o) s = Ret r s' ->
    member (heap s') r key = Some VNull.
Proof.
  intros Hempty f c o s r s' fro ps f0 schema key def t
         Hsc Ho Hin Hc Ht Ha Hd Habs Hown H.
  destruct (deserialize_run _ _ _ _ _ _ _ _ _ _ Hsc Ho H)
    as (qs & s2 & mp & s5 & iv & s7 & ext & ps0
        & X2 & Hk & Hmp & X5 & Hiv & W & Wiv & -> & ->).
  pose proof Hsc as (_ & _ & _ & Hnd).
  set (s3 := grow s2 [Obj CObject false qs]) in *.
  assert (X3 : step_rel true s s3).
  { eapply step_rel_trans; [exact X2|]. apply extends_step_rel.
    split; [reflexivity|]. exists [Obj CObject false qs].
    split; [reflexivity | constructor; [reflexivity | constructor]]. }
  assert (Hq : alist_get qs key = None).
  { destruct (alist_get qs key) eqn:E; [|reflexivity].
    apply alist_get_In in E. destruct (Hk _ E) as (k0 & Hk0 & ->).
    exfalso. apply (Habs k0 Hk0). reflexivity. }
  (* the reducer *)
  destruct (foldM_traced (deserialize_field (deserialize (S f)) (VRef (List.length (heap s2))))
              (step_rel true) (step_rel_refl true) (step_rel_trans true) key def
              (fun s0 => step_rel true s3 s0) (fun _ _ => True) (fun _ v => v = VNull)) with
      (l := schema) (acc := @nil (string * value)) (s := s3) (acc' := mp) (s' := s5)
    as (v & Hv & ->); auto.
  { intros acc k d s0 acc' s0' Hs. split; [|split].
    - eapply resp_Ret; [|exact Hs]. apply resp_step_deserialize_field.
      intros; apply resp_step_deserialize.
    - apply (proj1 (deserialize_field_other _ _ _ _ _ _ _ _ Hs)).
    - intros -> -> Hg _.
      assert (X0 : step_rel true s s0) by (eapply step_rel_trans; eauto).
      destruct (step_rel_def _ _ _ _ _ X0 Hc eq_refl) as [Hc0 Hm0].
      assert (T : truthy def = true) by (destruct def; simpl in Hc; try discriminate; reflexivity).
      assert (Ha0 : member (heap s0) def "apiKey" = Some VUndefined)
        by (rewrite Hm0; [assumption | discriminate]).
      assert (Ht0 : member (heap s0) def "type" = Some (VClass t))
        by (rewrite Hm0; [assumption | discriminate]).
      assert (Mc : member (heap s0) (VRef (List.length (heap s2))) key = Some VUndefined).
      { destruct Hg as (_ & HC & _).
        destruct (HC (List.length (heap s2)) _ (nth_grow_last s2 _)) as (c' & Hc' & Hev).
        simpl in Hev. simpl. rewrite Hc'.
        destruct Hev as [-> | [_ ->]]; rewrite Hq; reflexivity. }
      unfold deserialize_field in Hs.
      rewrite (bind_Ret _ _ _ _ _ (wire_key_plain def key s0 Ha0 T)) in Hs.
      rewrite (bind_Ret _ _ _ _ _ (get_Ret _ _ _ _ Mc)) in Hs.
      unfold bind at 1, get_heap in Hs. rewrite Hc0 in Hs.
      unfold type_deserialize in Hs.
      rewrite (bind_Ret _ _ s0 VNull s0) in Hs.
      + inversion Hs; subst. exists VNull. split; [apply alist_get_set_eq | reflexivity].
      + rewrite (bind_Ret _ _ _ _ _ (get_Ret _ _ _ _ Ht0)).
        apply deserialize_undefined. }
  { intros s0 s0' HR Hg. eapply step_rel_trans; eauto. }
  { apply step_rel_refl. }
  (* the factory *)
  set (s6 := grow s5 [Obj CObject false mp]) in *.
  assert (X6 : step_rel true s s6).
  { eapply step_rel_trans; [exact X3|]. eapply step_rel_trans; [exact X5|].
    apply extends_step_rel.
    split; [reflexivity|]. exists [Obj CObject false mp].
    split; [reflexivity | constructor; [reflexivity | constructor]]. }
  destruct (foldM_traced create_field extends extends_refl extends_trans key def
              (fun s0 => step_rel true s s0)
              (fun _ x => x = Some VNull) (fun _ w => w = VNull)) with
      (l := schema) (acc := assign [] mp) (s := s6) (acc' := iv) (s' := s7)
    as (w & Hw & ->); auto.
  { intros acc k d s0 acc' s0' Hs.
    destruct (create_field_other _ _ _ _ _ _ Hs) as [He Hoth].
    split; [assumption|]. split; [assumption|].
    intros -> -> Hg Hacc. exists VNull. split; [|reflexivity].
    destruct (step_rel_def _ _ _ _ _ Hg Hc eq_refl) as [Hc0 Hm0].
    eapply create_field_given; eauto.
    apply (getValueOrDefault_null_fragment def t s0).
    - apply Hempty.
    - rewrite Hm0; [assumption | discriminate].
    - rewrite Hm0; [assumption | discriminate]. }
  { intros s0 s0' He Hg. eapply step_rel_trans; [exact Hg|].
    apply extends_step_rel; assumption. }
  { apply alist_get_assign; assumption. }
  simpl. rewrite nth_error_last. rewrite (alist_get_assign iv ps0 key VNull Wiv Hw).
  reflexivity.
Qed.

(** X20.  A fragment array that the wire does not carry as an array becomes
    a new empty array.  For a class that holds its cached schema and a
    fragment-array field of it without wire-key override: when the input is
    a plain object none of whose keys camelizes to the field's name, the
    instance that [deserialize] returns holds in that field an empty array
    that did not exist before. *)
Theorem deserialize_sets_absent_fragment_array_to_empty :
  forall (f : nat) (c : class_id) (o : loc) (s : state) (r : value) (s' : state)
         (fro : bool) (ps : alist) (f0 : loc) (schema : alist)
         (key : string) (def : value),
    schema_cached s c f0 schema ->
    nth_error (heap s) o = Some (Obj CObject fro ps) ->
    In (key, def) schema ->
    ctor_of (heap s) def = Some CFragmentArrayFieldDef ->
    member (heap s) def "apiKey" = Some VUndefined ->
    (forall k, In k (map fst ps) -> camelize k <> key) ->
    deserialize (S f) c (VRef o) s = Ret r s' ->
    exists l fr,
      member (heap s') r key = Some (VRef l)
      /\ (List.length (heap s) <= l)%nat
      /\ nth_error (heap s') l = Some (Arr fr []).
Proof.
  intros f c o s r s' fro ps f0 schema key def Hsc Ho Hin Hc Ha Habs H.
  destruct (deserialize_run _ _ _ _ _ _ _ _ _ _ Hsc Ho H)
    as (qs & s2 & mp & s5 & iv & s7 & ext & ps0
        & X2 & Hk & Hmp & X5 & Hiv & W & Wiv & -> & ->).
  pose proof Hsc as (_ & _ & _ & Hnd).
  set (s3 := grow s2 [Obj CObject false qs]) in *.
  assert (X3 : step_rel true s s3).
  { eapply step_rel_trans; [exact X2|]. apply extends_step_rel.
    split; [reflexivity|]. exists [Obj CObject false qs].
    split; [reflexivity | constructor; [reflexivity | constructor]]. }
  assert (Hq : alist_get qs key = None).
  { destruct (alist_get qs key) eqn:E; [|reflexivity].
    apply alist_get_In in E. destruct (Hk _ E) as (k0 & Hk0 & ->).
    exfalso. apply (Habs k0 Hk0). reflexivity. }
  set (Phi := fun (s0 : state) (v : value) =>
                exists l fr, v = VRef l /\ (List.length (heap s) <= l)%nat
                             /\ nth_error (heap s0) l = Some (Arr fr [])).
  assert (Pst : forall fz s0 s0' v, step_rel fz s0 s0' -> Phi s0 v -> Phi s0' v).
  { intros fz s0 s0' v (_ & HC & _) (l & fr & -> & Hl & Hcell).
    destruct (HC _ _ Hcell) as (c' & Hc' & Hev). simpl in Hev.
    destruct Hev as [-> | [_ ->]]; exists l; eauto. }
  (* the reducer *)
  destruct (foldM_traced (deserialize_field (deserialize f) (VRef (List.length (heap s2))))
              (step_rel true) (step_rel_refl true) (step_rel_trans true) key def
              (fun s0 => step_rel true s3 s0) (fun _ _ => True) Phi) with
      (l := schema) (acc := @nil (string * value)) (s := s3) (acc' := mp) (s' := s5)
    as (v & Hv & Pv); auto.
  { intros acc k d s0 acc' s0' Hs. split; [|split].
    - eapply resp_Ret; [|exact Hs]. apply resp_step_deserialize_field.
      intros; apply resp_step_deserialize.
    - apply (proj1 (deserialize_field_other _ _ _ _ _ _ _ _ Hs)).
    - intros -> -> Hg _.
      assert (X0 : step_rel true s s0) by (eapply step_rel_trans; eauto).
      destruct (step_rel_def _ _ _ _ _ X0 Hc eq_refl) as [Hc0 Hm0].
      assert (T : truthy def = true) by (destruct def; simpl in Hc; try discriminate; reflexivity).
      assert (Ha0 : member (heap s0) def "apiKey" = Some VUndefined)
        by (rewrite Hm0; [assumption | discriminate]).
      assert (Mc : member (heap s0) (VRef (List.length (heap s2))) key = Some VUndefined).
      { destruct Hg as (_ & HC & _).
        destruct (HC (List.length (heap s2)) _ (nth_grow_last s2 _)) as (c' & Hc' & Hev).
        simpl in Hev. simpl. rewrite Hc'.
        destruct Hev as [-> | [_ ->]]; rewrite Hq; reflexivity. }
      unfold deserialize_field in Hs.
      rewrite (bind_Ret _ _ _ _ _ (wire_key_plain def key s0 Ha0 T)) in Hs.
      rewrite (bind_Ret _ _ _ _ _ (get_Ret _ _ _ _ Mc)) in Hs.
      unfold bind at 1, get_heap in Hs. rewrite Hc0 in Hs.
      cbn [array_elems] in Hs.
      unfold new_array, bind, alloc, ret in Hs. inversion Hs; subst.
      exists (VRef (List.length (heap s0))). split; [apply alist_get_set_eq|].
      exists (List.length (heap s0)), false. split; [reflexivity|]. split.
      + pose proof (step_rel_length _ _ _ X0). lia.
      + simpl. apply nth_error_last. }
  { intros s0 s0' HR Hg. eapply step_rel_trans; eauto. }
  { intros s0 s0' w HR. apply (Pst true). assumption. }
  { apply step_rel_refl. }
  (* the factory *)
  set (s6 := grow s5 [Obj CObject false mp]) in *.
  assert (E6 : extends s5 s6).
  { split; [reflexivity|]. exists [Obj CObject false mp].
    split; [reflexivity | constructor; [reflexivity | constructor]]. }
  assert (X6 : step_rel true s s6).
  { eapply step_rel_trans; [exact X3|]. eapply step_rel_trans; [exact X5|].
    apply extends_step_rel. assumption. }
  destruct (foldM_traced create_field extends extends_refl extends_trans key def
              (fun s0 => step_rel true s s0)
              (fun _ x => x = Some v) (fun _ w => w = v)) with
      (l := schema) (acc := assign [] mp) (s := s6) (acc' := iv) (s' := s7)
    as (w & Hw & ->); auto.
  { intros acc k d s0 acc' s0' Hs.
    destruct (create_field_other _ _ _ _ _ _ Hs) as [He Hoth].
    split; [assumption|]. split; [assumption|].
    intros -> -> Hg Hacc. exists v. split; [|reflexivity].
    destruct (step_rel_def _ _ _ _ _ Hg Hc eq_refl) as [Hc0 _].
    destruct Pv as (l & fr & -> & _).
    unfold create_field, prop in Hs. rewrite Hacc in Hs. cbn [is_undefined] in Hs.
    unfold bind at 1, ret at 1 in Hs. unfold bind at 1, get_heap in Hs. rewrite Hc0 in Hs.
    cbn [truthy] in Hs. inversion Hs; subst. apply alist_get_set_eq. }
  { intros s0 s0' He Hg. eapply step_rel_trans; [exact Hg|].
    apply extends_step_rel; assumption. }
  { apply alist_get_assign; assumption. }
  assert (E7 : extends s6 s7).
  { eapply resp_Ret; [|exact Hiv]. apply (resp_foldM _ extends_refl extends_trans).
    intros; apply resp_ext_create_field. }
  destruct (Pst true s5 s7 v (extends_step_rel true _ _ (extends_trans _ _ _ E6 E7)) Pv)
    as (l & fr & -> & Hl & Hcell).
  exists l, fr. split; [|split; [assumption|]].
  - simpl. rewrite nth_error_last. rewrite (alist_get_assign iv ps0 key (VRef l) Wiv Hw).
    reflexivity.
  - simpl. rewrite <- app_assoc. rewrite nth_error_app1; [assumption|].
    apply nth_error_Some. congruence.
Qed.

(* ================================================================= *)
(** ** What schema derivation yields *)

Lemma descriptor_inits_plain k v r :
  descriptor_inits ((k, plain v) :: r) = descriptor_inits r.
Proof. reflexivity. Qed.

Lemma descriptor_inits_desc k fi r :
  is_descriptor_init fi = true ->
  descriptor_inits ((k, fi) :: r) = (k, fi) :: descriptor_inits r.
Proof. intros H. unfold descriptor_inits. simpl. rewrite H. reflexivity. Qed.

Lemma init_field_fresh fi s :
  is_descriptor_init fi = true ->
  init_field fi s = Ret (VRef (List.length (heap s))) (grow s [fresh_cell fi]).
Proof. destruct fi; intros H; try discriminate; reflexivity. Qed.

Lemma proto_props_desc k fi r base :
  is_descriptor_init fi = true ->
  proto_props base ((k, fi) :: r) = (k, VRef base) :: proto_props (S base) r.
Proof. destruct fi; intros H; try discriminate; reflexivity. Qed.

Lemma schema_of_desc k fi r base :
  is_descriptor_init fi = true ->
  schema_of base ((k, fi) :: r) = (k, VRef base) :: schema_of (S base) r.
Proof. destruct fi; intros H; try discriminate; reflexivity. Qed.

Lemma proto_props_keys fs : forall base, map fst (proto_props base fs) = map fst fs.
Proof.
  induction fs as [|[k fi] r IH]; intros base; simpl; [reflexivity|].
  destruct fi; simpl; rewrite IH; reflexivity.
Qed.

Lemma schema_of_keys fs : forall base,
  map fst (schema_of base fs) = map fst (descriptor_inits fs).
Proof.
  induction fs as [|[k fi] r IH]; intros base; [reflexivity|].
  destruct fi; try (rewrite schema_of_desc, descriptor_inits_desc by reflexivity;
                    simpl; rewrite IH; reflexivity).
  rewrite descriptor_inits_plain. simpl. apply IH.
Qed.

(** The field initialisers, run. *)
Lemma init_fields_exact fs : forall acc s,
  NoDup (map fst acc ++ map fst fs) ->
  foldM (fun acc kf => v <- init_field (snd kf) ;; ret (alist_set acc (fst kf) v)) fs acc s
  = Ret (acc ++ proto_props (List.length (heap s)) fs)
        (grow s (map (fun kf => fresh_cell (snd kf)) (descriptor_inits fs))).
Proof.
  induction fs as [|[k fi] r IH]; intros acc s Hn.
  - simpl. rewrite app_nil_r. unfold grow. rewrite app_nil_r. destruct s; reflexivity.
  - assert (Hk : ~ In k (map fst acc)).
    { simpl in Hn. apply NoDup_remove_2 in Hn. intros F. apply Hn.
      apply in_or_app. left; assumption. }
    assert (Hn' : forall v, NoDup (map fst (acc ++ [(k, v)]) ++ map fst r)).
    { intros v. rewrite map_app. simpl. rewrite <- app_assoc. exact Hn. }
    destruct (is_descriptor_init fi) eqn:D.
    + change (foldM _ ((k, fi) :: r) acc s)
        with ((acc' <- (v <- init_field fi ;; ret (alist_set acc k v)) ;;
               foldM (fun acc kf => v <- init_field (snd kf) ;; ret (alist_set acc (fst kf) v))
                     r acc') s).
      rewrite (bind_Ret _ _ s (acc ++ [(k, VRef (List.length (heap s)))])
                        (grow s [fresh_cell fi])).
      2:{ rewrite (bind_Ret _ _ _ _ _ (init_field_fresh fi s D)).
          unfold ret. rewrite alist_set_fresh by assumption. reflexivity. }
      rewrite IH by apply Hn'.
      rewrite proto_props_desc, descriptor_inits_desc by assumption.
      rewrite length_grow1. rewrite <- app_assoc. simpl.
      unfold grow. simpl. rewrite <- app_assoc. reflexivity.
    + destruct fi; try discriminate.
      change (foldM _ ((k, plain v) :: r) acc s)
        with ((acc' <- (x <- ret v ;; ret (alist_set acc k x)) ;;
               foldM (fun acc kf => v <- init_field (snd kf) ;; ret (alist_set acc (fst kf) v))
                     r acc') s).
      rewrite (bind_Ret _ _ s (acc ++ [(k, v)]) s).
      2:{ unfold bind, ret. rewrite alist_set_fresh by assumption. reflexivity. }
      rewrite IH by apply Hn'.
      rewrite descriptor_inits_plain. simpl. rewrite <- app_assoc. reflexivity.
Qed.

(** The loop of [getFieldDefs] over the properties the initialisers laid
    out: every descriptor gets its key and enters the schema. *)
Lemma collect_exact fs : forall H tail acc st co,
  plain_inits_are_primitive fs ->
  NoDup (map fst acc ++ map fst fs) ->
  foldM (fun acc kd =>
           let '(key, def) := kd in
           h <- get_heap ;;
           if is_FieldDef h def then
             match def with
             | VRef d => set_prop d "key" (VStr key)
             | _ => ret tt
             end ;;;
             ret (alist_set acc key def)
           else ret acc)
        (proto_props (List.length H) fs) acc
        (mkState (H ++ map (fun kf => fresh_cell (snd kf)) (descriptor_inits fs) ++ tail)
                 st co)
  = Ret (acc ++ schema_of (List.length H) fs)
        (mkState (H ++ map (fun kf => keyed_cell (fst kf) (snd kf)) (descriptor_inits fs)
                    ++ tail) st co).
Proof.
  induction fs as [|[k fi] r IH]; intros H tail acc st co Hp Hn.
  - simpl. rewrite app_nil_r. reflexivity.
  - assert (Hk : ~ In k (map fst acc)).
    { simpl in Hn. apply NoDup_remove_2 in Hn. intros F. apply Hn.
      apply in_or_app. left; assumption. }
    assert (Hn' : forall v, NoDup (map fst (acc ++ [(k, v)]) ++ map fst r)).
    { intros v. rewrite map_app. simpl. rewrite <- app_assoc. exact Hn. }
    assert (Hp' : plain_inits_are_primitive r).
    { intros k0 v0 Hin. apply (Hp k0 v0). right; assumption. }
    destruct (is_descriptor_init fi) eqn:D.
    + rewrite proto_props_desc, schema_of_desc, descriptor_inits_desc by assumption.
      cbn [map fst snd foldM].
      assert (Hc : nth_error (H ++ (fresh_cell fi
                                    :: map (fun kf => fresh_cell (snd kf))
                                           (descriptor_inits r))
                                ++ tail) (List.length H) = Some (fresh_cell fi)).
      { rewrite nth_error_app2 by lia. rewrite Nat.sub_diag. reflexivity. }
      rewrite (bind_Ret _ _ _ (acc ++ [(k, VRef (List.length H))])
                 (mkState ((H ++ [keyed_cell k fi])
                             ++ map (fun kf => fresh_cell (snd kf)) (descriptor_inits r)
                             ++ tail) st co)).
      2:{ unfold bind at 1, get_heap. cbn [heap]. unfold is_FieldDef, ctor_of.
          rewrite Hc.
          assert (Dc : match init_ctor fi with
                       | CAttrFieldDef | CFragmentFieldDef | CFragmentArrayFieldDef => true
                       | _ => false
                       end = true) by (destruct fi; try discriminate; reflexivity).
          unfold fresh_cell at 1. rewrite Dc.
          unfold set_prop, bind, get_heap, store, ret. cbn [heap statics console].
          rewrite Hc. unfold fresh_cell at 1.
          rewrite alist_set_fresh by assumption. f_equal. f_equal.
          rewrite <- app_assoc. simpl.
          clear. induction H as [|x H IH]; simpl; [reflexivity|]. rewrite IH. reflexivity. }
      pose proof (IH (H ++ [keyed_cell k fi]) tail (acc ++ [(k, VRef (List.length H))]) st co
                     Hp' (Hn' _)) as E.
      rewrite length_app in E. simpl in E. rewrite Nat.add_1_r in E.
      rewrite E. rewrite <- !app_assoc. reflexivity.
    + destruct fi; try discriminate. simpl proto_props. simpl schema_of.
      rewrite descriptor_inits_plain. cbn [foldM].
      rewrite (bind_Ret _ _ _ acc
                 (mkState (H ++ map (fun kf => fresh_cell (snd kf)) (descriptor_inits r)
                             ++ tail) st co)).
      * apply IH; [assumption|]. simpl in Hn. apply NoDup_remove_1 in Hn. exact Hn.
      * unfold bind at 1, get_heap.
        assert (F : forall h, is_FieldDef h v = false).
        { intros h. destruct v; try reflexivity.
          exfalso. apply (Hp k (VRef l) (or_introl eq_refl) l). reflexivity. }
        rewrite F. reflexivity.
Qed.

(** Where the schema entries point. *)
Lemma schema_of_cells fs : forall H tail key def,
  In (key, def) (schema_of (List.length H) fs) ->
  exists d fi,
    def = VRef d /\ In (key, fi) (descriptor_inits fs)
    /\ nth_error (H ++ map (fun kf => keyed_cell (fst kf) (snd kf)) (descriptor_inits fs)
                    ++ tail) d = Some (keyed_cell key fi).
Proof.
  induction fs as [|[k fi] r IH]; intros H tail key def Hin; [contradiction|].
  destruct (is_descriptor_init fi) eqn:D.
  - rewrite schema_of_desc in Hin by assumption.
    rewrite descriptor_inits_desc by assumption.
    destruct Hin as [E | Hin].
    + inversion E; subst. exists (List.length H), fi.
      split; [reflexivity|]. split; [left; reflexivity|].
      rewrite nth_error_app2 by lia. rewrite Nat.sub_diag. reflexivity.
    + specialize (IH (H ++ [keyed_cell k fi]) tail key def).
      rewrite length_app in IH. simpl in IH. rewrite Nat.add_1_r in IH.
      destruct (IH Hin) as (d & fi' & -> & Hin' & Hc).
      exists d, fi'. split; [reflexivity|]. split; [right; assumption|].
      rewrite <- app_assoc in Hc. exact Hc.
  - destruct fi; try discriminate. simpl in Hin. rewrite descriptor_inits_plain.
    apply IH. assumption.
Qed.

(* ================================================================= *)
(** ** The keys [serialize] writes *)

Lemma to_string_of_primitive f h v :
  (forall l, v <> VRef l) -> to_string (S f) h v = to_string 1 [] v.
Proof. intros H. destruct v; try reflexivity. exfalso. apply (H l). reflexivity. Qed.

(** The reducer of [serialize], traced: a key of the result is the wire key
    of a field that is not left out, read in a state the loop went
    through. *)
Lemma serialize_fold_keys_from rec this :
  (forall v, resp (step_rel false) (rec v)) ->
  forall l acc s acc' s',
    foldM (serialize_field rec this) l acc s = Ret acc' s' ->
    forall k, In k (map fst acc') ->
      In k (map fst acc)
      \/ exists key def ser s1,
          In (key, def) l
          /\ step_rel false s s1
          /\ wire_key def key s1 = Ret k s1
          /\ member (heap s1) def "serialize" = Some ser
          /\ strict_equal ser (VBool false) = false.
Proof.
  intros Hrec.
  induction l as [|[key def] r IH]; intros acc s acc' s' H k Hk; simpl in H.
  - inversion H; subst; auto.
  - apply bind_inv_Ret in H. destruct H as (acc1 & s1 & H1 & H2).
    assert (X1 : step_rel false s s1).
    { apply (resp_Ret (step_rel false) (serialize_field rec this acc (key, def)) s acc1 s1);
        [apply resp_step_serialize_field; exact Hrec | exact H1]. }
    destruct (IH _ _ _ _ H2 k Hk) as [Hin | (key' & def' & ser & s0 & Hin & X0 & Hrest)].
    + destruct (serialize_field_keys _ _ _ _ _ _ _ _ H1)
        as [-> | (a & ser & v & Ha & Hs & Hne & ->)]; [auto|].
      apply alist_set_keys in Hin. destruct Hin as [-> | Hin]; [|auto].
      right. exists key, def, ser, s. split; [left; reflexivity|].
      split; [apply step_rel_refl|]. auto.
    + right. exists key', def', ser, s0. split; [right; assumption|].
      split; [eapply step_rel_trans; eauto | assumption].
Qed.

(** X11.  The object [serialize] returns has no key other than the
    reclassified wire key of a field of the schema whose [serialize] option
    is not [false]: a field declared with [serialize: false] contributes no
    key.  For an instance of a class that holds its cached schema, whose
    entries are descriptors: every key of the returned object is [classify]
    of the wire key of some schema field whose [serialize] option, as the
    descriptor holds it when the call starts, is not [false]; the wire key
    is the text of the descriptor's [apiKey] when that is truthy, and the
    field's name otherwise. *)
Theorem serialize_writes_included_fields_only :
  forall (fuel : nat) (this options : value) (s : state) (r : value) (s' : state)
         (c : class_id) (f0 : loc) (schema : alist),
    member (heap s) this "constructor" = Some (VClass c) ->
    schema_cached s c f0 schema ->
    (forall key def, In (key, def) schema -> is_FieldDef (heap s) def = true) ->
    serialize fuel this options s = Ret r s' ->
    exists l qs,
      r = VRef l
      /\ nth_error (heap s') l = Some (Obj CObject false qs)
      /\ forall k, In k (map fst qs) ->
           exists key def ak ser a,
             In (key, def) schema
             /\ member (heap s) def "apiKey" = Some ak
             /\ member (heap s) def "serialize" = Some ser
             /\ strict_equal ser (VBool false) = false
             /\ k = classify a
             /\ (forall t, wire_name ak key = Some t -> a = t).
Proof.
  intros fuel this options s r s' c f0 schema Hc Hsc Hdefs E.
  destruct fuel as [|f]; [discriminate|].
  destruct (serialize_inv _ _ _ _ _ _ E)
    as (opts & s0 & c' & fd & s1 & result & s2 & H0 & Hc' & Hfd & Hres & Hcl).
  assert (Hc0 : member (heap s0) this "constructor" = Some (VClass c)).
  { apply (extends_member s s0 _ _ _ H0 Hc). intros l -> F.
    simpl in Hc. rewrite F in Hc. discriminate. }
  rewrite Hc0 in Hc'. inversion Hc'; subst c'.
  assert (X0 : step_rel false s s0) by (apply extends_step_rel; assumption).
  destruct (schema_cached_get _ _ _ _ (schema_cached_step _ _ _ _ _ _ X0 Hsc)) as [G Ho].
  rewrite G in Hfd. inversion Hfd; subst fd s1. rewrite Ho in Hres.
  unfold classifyObject in Hcl. unfold bind at 1, get_heap in Hcl.
  destruct (rename_keys_object classify _ (List.length (heap s2)) false result
              (grow s2 [Obj CObject false result]) _ _
              (nth_error_last _ _) Hcl) as (qs & s3 & _ & -> & -> & Hk).
  exists (List.length (heap s3)), qs. split; [reflexivity|]. split.
  - simpl. apply nth_error_last.
  - intros k Hin. destruct (Hk k Hin) as (a & Ha & ->).
    destruct (serialize_fold_keys_from (fun v => serialize f v opts) this
                (fun v => resp_step_serialize f v opts) _ _ _ _ _ Hres a Ha)
      as [[] | (key & def & ser & s4 & Hin' & X4 & Hw & Hs & Hne)].
    assert (X : step_rel false s s4) by (eapply step_rel_trans; eauto).
    pose proof (Hdefs key def Hin') as Hd. unfold is_FieldDef in Hd.
    destruct (ctor_of (heap s) def) as [ct|] eqn:Hct; [|discriminate].
    assert (Hdc : is_def_ctor ct = true) by (destruct ct; try discriminate; reflexivity).
    destruct (step_rel_def _ _ _ _ _ X Hct Hdc) as [Hct4 Hm].
    unfold wire_key in Hw. rewrite (ctor_of_truthy _ _ _ Hct4) in Hw.
    apply bind_inv_Ret in Hw. destruct Hw as (ak & s5 & Hak & Hts).
    apply get_inv in Hak. destruct Hak as [-> Hak].
    exists key, def, ak, ser, a.
    split; [assumption|].
    split; [rewrite <- Hm; [assumption | discriminate]|].
    split; [rewrite <- Hm; [assumption | discriminate]|].
    split; [assumption|]. split; [reflexivity|].
    intros t Hwn.
    unfold toString, bind, get_heap in Hts.
    assert (Hp : forall l, (if truthy ak then ak else VStr key) <> VRef l).
    { intros l. destruct ak; simpl; try discriminate.
      - destruct b; discriminate.
      - destruct (num_truthy n); discriminate.
      - destruct (negb (String.eqb s1 EmptyString)); discriminate. }
    rewrite (to_string_of_primitive _ _ _ Hp) in Hts.
    assert (Hwn' : to_string 1 [] (if truthy ak then ak else VStr key) = Some t).
    { destruct ak; try exact Hwn. discriminate. }
    rewrite Hwn' in Hts. inversion Hts. reflexivity.
Qed.
(* ================================================================= *)
(** ** What [clone] copies, field by field *)

Lemma clone_keeps_stable_scalar :
  helpers_as_specified ->
  forall (f : nat) (i : loc) (s : state) (r : value) (s' : state)
         (c : class_id) (fri : bool) (psi : alist) (f0 : loc) (schema : alist)
         (key : string) (def : value) (kind : string) (v : value),
    schema_cached s c f0 schema ->
    nth_error (heap s) i = Some (Obj (CModel c) fri psi) ->
    alist_get psi "constructor" = None ->
    In (key, def) schema ->
    ctor_of (heap s) def = Some CAttrFieldDef ->
    member (heap s) def "type" = Some (VStr kind) ->
    member (heap s) def "defaultValue" = Some VUndefined ->
    alist_get psi key = Some v ->
    stable_value kind v ->
    clone (S f) (VRef i) s = Ret r s' ->
    member (heap s') r key = Some v.
Proof.
  intros HH f i s r s' c fri psi f0 schema key def kind v
         Hsc Hi Hno Hin Hc Ht Hd Hk St H.
  destruct (clone_transfer (fun _ w => w = v)
              f i s r s' c fri psi f0 schema key def) as (w & Hw & ->); auto.
  - intros acc s0 acc' s0' X Hs.
    pose proof (step_false_untouched _ _ X) as U.
    destruct (step_rel_def _ _ _ _ _ X Hc eq_refl) as [Hc0 _].
    unfold clone_field in Hs. unfold bind at 1, get_heap in Hs. rewrite Hc0 in Hs.
    apply bind_inv_Ret in Hs. destruct Hs as (x & s1 & Hx & Hs). inversion Hs; subst.
    rewrite alist_get_set_eq.
    apply get_inv in Hx. destruct Hx as [-> Hx].
    rewrite (untouched_member _ _ _ _ key U Hi eq_refl) in Hx. simpl in Hx.
    rewrite Hi, Hk in Hx. inversion Hx; subst. eexists. split; reflexivity.
  - intros acc w s0 acc' s0' X -> Hacc Hs.
    destruct (step_rel_def _ _ _ _ _ X Hc eq_refl) as [Hc0 Hm0].
    eapply create_field_given; eauto.
    + apply (stable_value_defined kind). assumption.
    + apply (getValueOrDefault_stable def kind v s0 HH).
      * rewrite Hm0; [assumption | discriminate].
      * rewrite Hm0; [assumption | discriminate].
      * assumption.
Qed.

(** A record of the store, cloned through [clone_value]. *)
Lemma clone_value_record f e ce s0 w s1 :
  plain_record (heap s0) e ce ->
  clone_value (clone f) e s0 = Ret w s1 ->
  clone f e s0 = Ret w s1 /\ step_rel false s0 s1 /\ copy_of_record s0 s1 e w.
Proof.
  intros (l & fr & ps & -> & Hl & Hnc & Hncl) H.
  assert (M2 : member (heap s0) (VRef l) "clone" = Some (VMethod "clone")).
  { simpl. rewrite Hl, Hncl. reflexivity. }
  unfold clone_value in H. cbn [truthy] in H.
  rewrite (bind_Ret _ _ _ _ _ (get_Ret _ _ _ _ M2)) in H.
  cbn [truthy] in H. unfold call_member in H.
  change (strict_equal (VMethod "clone") (VMethod "clone")) with true in H.
  cbv iota in H.
  split; [exact H|]. split.
  - eapply resp_Ret; [apply resp_step_clone | exact H].
  - destruct (clone_fresh _ _ _ _ _ H) as (c0 & l' & ps' & Hc0 & -> & Hlen & Hcell).
    simpl in Hc0. rewrite Hl, Hnc in Hc0. simpl in Hc0. inversion Hc0; subst c0.
    exists ce, l'. split; [exists l, fr, ps; auto|]. split; [reflexivity|].
    split; [assumption|]. exists ps'. assumption.
Qed.

Lemma plain_record_untouched s s' e ce :
  untouched s s' -> plain_record (heap s) e ce -> plain_record (heap s') e ce.
Proof.
  intros U (l & fr & ps & -> & Hl & Hnc & Hncl). exists l, fr, ps.
  split; [reflexivity|]. split; [apply (U _ _ Hl); reflexivity | auto].
Qed.

Lemma copy_of_record_later s s1 s2 e w :
  untouched s1 s2 -> copy_of_record s s1 e w -> copy_of_record s s2 e w.
Proof.
  intros U (ce & l' & Hp & -> & Hlen & ps' & Hcell). exists ce, l'.
  split; [assumption|]. split; [reflexivity|]. split; [assumption|].
  exists ps'. apply (U _ _ Hcell). reflexivity.
Qed.

Lemma copy_of_record_from s0 s s1 e w :
  untouched s0 s -> (List.length (heap s0) <= List.length (heap s))%nat ->
  (exists ce, plain_record (heap s0) e ce) ->
  copy_of_record s s1 e w -> copy_of_record s0 s1 e w.
Proof.
  intros U Hlen (ce0 & l0 & fr0 & ps0 & E0 & Hl0 & Hnc0 & Hncl0)
         (ce & l' & (l & fr & ps & E & Hl & Hnc & Hncl) & -> & Hl' & ps' & Hcell).
  subst e. inversion E; subst l0.
  pose proof (U _ _ Hl0 eq_refl) as Hl0'. rewrite Hl0' in Hl. inversion Hl; subst.
  exists ce, l'. split; [exists l, fr, ps; auto|]. split; [reflexivity|].
  split; [lia|]. exists ps'. assumption.
Qed.

(** The elements of a fragment array, cloned one by one. *)
Lemma mapM_clone_records f : forall es s0 ws s1,
  Forall (fun e => exists ce, plain_record (heap s0) e ce) es ->
  mapM (clone_value (clone f)) es s0 = Ret ws s1 ->
  step_rel false s0 s1 /\ Forall2 (copy_of_record s0 s1) es ws.
Proof.
  induction es as [|e es IH]; intros s0 ws s1 Hall H.
  - simpl in H. inversion H; subst. split; [apply step_rel_refl | constructor].
  - cbn [mapM] in H.
    apply bind_inv_Ret in H. destruct H as (w & sa & Hw & H).
    apply bind_inv_Ret in H. destruct H as (ws' & sb & Hws & H).
    inversion H; subst.
    inversion Hall as [|? ? (ce & He) Hrest]; subst.
    destruct (clone_value_record f e ce s0 w sa He Hw) as (_ & Xa & Ca).
    pose proof (step_false_untouched _ _ Xa) as Ua.
    assert (Hall' : Forall (fun e0 => exists ce0, plain_record (heap sa) e0 ce0) es).
    { eapply Forall_impl; [|exact Hrest]. intros e0 (ce0 & H0). exists ce0.
      eapply plain_record_untouched; eauto. }
    destruct (IH sa ws' s1 Hall' Hws) as (Xb & Cb).
    pose proof (step_false_untouched _ _ Xb) as Ub.
    split; [eapply step_rel_trans; eauto|].
    constructor.
    + eapply copy_of_record_later; eauto.
    + clear - Cb Hrest Ua Xa.
      induction Cb as [|e0 w0 es0 ws0 C0 _ IHC]; [constructor|].
      inversion Hrest; subst. constructor; [|apply IHC; assumption].
      apply (copy_of_record_from s0 sa s1 e0 w0 Ua (step_rel_length _ _ _ Xa));
        assumption.
Qed.

Lemma plain_scalar_step fz s s' def kind :
  step_rel fz s s' -> plain_scalar (heap s) def kind -> plain_scalar (heap s') def kind.
Proof.
  intros X (Hc & Ht & Ha & Hs & Hd).
  destruct (step_rel_def _ _ _ _ _ X Hc eq_refl) as [Hc' Hm].
  split; [assumption|].
  split; [rewrite Hm; [assumption | discriminate]|].
  split; [rewrite Hm; [assumption | discriminate]|].
  split; rewrite Hm; try assumption; discriminate.
Qed.

Lemma scalar_instance_step s s' n c psn schema :
  step_rel false s s' -> scalar_instance s n c psn schema -> scalar_instance s' n c psn schema.
Proof.
  intros X ((fr & Hn) & Hno & Hf). split; [|split; [assumption|]].
  - exists fr. apply (step_false_untouched _ _ X _ _ Hn). reflexivity.
  - intros key def Hin. destruct (Hf key def Hin) as (kind & v & P & Hv & St).
    exists kind, v. split; [eapply plain_scalar_step; eauto | auto].
Qed.

(** The clone of a flat record holds, under every field name, the value of
    the original. *)
Lemma clone_of_flat_record :
  helpers_as_specified ->
  forall (f : nat) (n : loc) (t : state) (v : value) (t' : state)
         (c' : class_id) (g0 : loc) (psn schema' : alist),
    schema_cached t c' g0 schema' ->
    scalar_instance t n c' psn schema' ->
    clone f (VRef n) t = Ret v t' ->
    forall k, In k (map fst schema') -> member (heap t') v k = Some (prop psn k).
Proof.
  intros HH f n t v t' c' g0 psn schema' Hsc ((fr & Hn) & Hno & Hf) H k Hin.
  destruct f as [|f]; [discriminate|].
  apply in_map_iff in Hin. destruct Hin as ([k0 d] & <- & Hin).
  destruct (Hf k0 d Hin) as (kind & x & (Hc & Ht & _ & _ & Hd) & Hx & St).
  simpl fst. unfold prop. rewrite Hx.
  apply (clone_keeps_stable_scalar HH f n t v t' c' fr psn g0 schema' k0 d kind x); assumption.
Qed.


End Engine.

(* ================================================================= *)
(** ** The sample record types, run *)

Ltac conjs := intros; repeat match goal with |- _ /\ _ => split end.
Ltac by_running := conjs; vm_compute; reflexivity.
Ltac run := vm_compute; reflexivity.
Ltac distinct := repeat constructor; simpl; intuition discriminate.

(** Discharges [schema_cached] at a sample state. *)
Ltac cached :=
  split; [vm_compute; discriminate |
  split; [run | split; [eexists; run | distinct]]].

Local Abbreviation demo_create := (create demo_classes isEmpty_model isNone_model false).
Local Abbreviation demo_deserialize :=
  (deserialize demo_classes camelize_key isEmpty_model isNone_model false).
Local Abbreviation demo_serialize := (serialize demo_classes classify_key).
Local Abbreviation demo_clone := (clone demo_classes isEmpty_model isNone_model false).
Local Abbreviation demo_getFieldDefs := (getFieldDefs demo_classes).
Local Abbreviation demo_coerce :=
  (getValueOrDefault demo_classes isEmpty_model isNone_model false).

(** Scenario A of the specification. *)
Example deserialize_Address :
  let input := cat ["{"; quoted "country"; ":"; quoted "Australia"; ",";
                    quoted "postcode"; ":"; quoted "2000"; "}"] in
  let run := demo_deserialize 2 Address_id (VStr input) in
  exists r, result_of run demo_state = Some r
            /\ own_props (heap (state_after run demo_state)) r
               = [("country", VStr "Australia"); ("postcode", VStr "2000");
                  ("state", VStr EmptyString); ("streetAddress", VStr EmptyString);
                  ("suburb", VStr EmptyString)].
Proof. eexists. by_running. Qed.

(* ----------------------------------------------------------------- *)
(** *** C1 *)

(** C1 (counterexample).  [Person.name] overrides its wire key with [title].
    The normalized tree [{name: "Bob"}] has nothing at [title] and has the
    value under the internal name; the instance gets the default [""] and
    not ["Bob"]: there is no fall back to the internal name. *)
Lemma deserialize_has_no_fallback_to_field_name :
  let s0 := state_after (new_object [("name", VStr "Bob")]) demo_state in
  let run := demo_deserialize 2 Person_id (VRef 1) in
  member (heap s0) (VRef 1) "title" = Some VUndefined
  /\ member (heap s0) (VRef 1) "name" = Some (VStr "Bob")
  /\ exists r, result_of run s0 = Some r
               /\ member (heap (state_after run s0)) r "name" = Some (VStr EmptyString)
               /\ member (heap (state_after run s0)) r "name" <> Some (VStr "Bob").
Proof.
  split; [vm_compute; reflexivity|]. split; [vm_compute; reflexivity|].
  eexists. split; [vm_compute; reflexivity|]. split; [vm_compute; reflexivity|].
  vm_compute. discriminate.
Qed.

Lemma deserialize_reads_at_wire_key_only_witness :
  let s := state_after (j <- new_object [("name", VStr "Bob")] ;; demo_getFieldDefs Person_id)
                       demo_state in
  deserialize_field demo_classes isEmpty_model isNone_model false
                    (demo_deserialize 1) (VRef 1) [] ("name", VRef 2) s
  = (v <- demo_coerce (VRef 2) VUndefined ;; ret (alist_set [] "name" v)) s.
Proof.
  intros s.
  apply (proj2 (deserialize_reads_at_wire_key_only
                  demo_classes isEmpty_model isNone_model false
                  (demo_deserialize 1) (VRef 1) [] "name" (VRef 2) s "title" CAttrFieldDef
                  ltac:(vm_compute; reflexivity) ltac:(vm_compute; reflexivity)
                  ltac:(discriminate)) eq_refl VUndefined ltac:(vm_compute; reflexivity)).
Defined.

(* ----------------------------------------------------------------- *)
(** *** C2 *)

Lemma isEqual_fails_on_every_instance_witness :
  let s := state_after (a <- demo_create Address_id VUndefined ;;
                        demo_create Address_id VUndefined) demo_state in
  isEqual demo_classes (VRef 13) (VRef 19) s = Throw (TypeError "not a function") s.
Proof.
  intros s.
  apply (isEqual_fails_on_every_instance demo_classes (VRef 13) (VRef 19) s 13 Address_id false
           [("country", VStr EmptyString); ("postcode", VStr EmptyString);
            ("state", VStr EmptyString); ("streetAddress", VStr EmptyString);
            ("suburb", VStr EmptyString)]);
    vm_compute; reflexivity.
Defined.

(* ----------------------------------------------------------------- *)
(** *** C3 *)

(** C3 (code bug).  [Dog] extends [Animal] and adds the field [legs].  Once
    the schema of [Animal] is cached, schema derivation for [Dog] finds that
    cache through the chain of classes: it returns the very object cached
    for [Animal], derives nothing, and the schema of [Dog] has no [legs].
    Asked in the other order, the two schemas are distinct and [Dog] has
    both fields. *)
Theorem getFieldDefs_inherits_the_superclass_cache :
  let s1 := state_after (demo_getFieldDefs Animal_id) demo_state in
  exists fd,
    result_of (demo_getFieldDefs Animal_id) demo_state = Some fd
    /\ demo_getFieldDefs Dog_id s1 = Ret fd s1
    /\ map fst (own_props (heap s1) fd) = ["name"]
    /\ (let t1 := state_after (demo_getFieldDefs Dog_id) demo_state in
        exists fd_dog fd_animal,
          result_of (demo_getFieldDefs Dog_id) demo_state = Some fd_dog
          /\ result_of (demo_getFieldDefs Animal_id) t1 = Some fd_animal
          /\ strict_equal fd_dog fd_animal = false
          /\ map fst (own_props (heap t1) fd_dog) = ["name"; "legs"]).
Proof.
  eexists. split; [vm_compute; reflexivity|]. split; [vm_compute; reflexivity|].
  split; [vm_compute; reflexivity|].
  eexists. eexists. by_running.
Qed.

(* ----------------------------------------------------------------- *)
(** *** C5 *)

Lemma enum_coercion_fails_on_standard_host_witness :
  let s := state_after (demo_getFieldDefs Place_id) demo_state in
  exists s',
    demo_coerce (VRef 1) (VStr "Australia") s
    = Throw (TypeError "this.values.contains is not a function") s'.
Proof.
  intros s.
  apply (enum_coercion_fails_on_standard_host
           demo_classes isEmpty_model isNone_model false eq_refl
           (VRef 1) (VStr "Australia") s 0 "Country" false
           [("Australia", VStr "Australia"); ("UnitedKingdom", VStr "UnitedKingdom")]);
    vm_compute; reflexivity.
Defined.

(** Scenario C of the specification, on a host with [contains]: ["Mars"] is
    refused with a message that names the enum and the value, and
    ["Australia"] passes through. *)
Example enum_coercion_on_extended_host_sample :
  let s := state_after (demo_getFieldDefs Place_id) demo_state in
  let coerce_x := getValueOrDefault demo_classes isEmpty_model isNone_model true in
  result_of (coerce_x (VRef 1) (VStr "Australia")) s = Some (VStr "Australia")
  /\ exists s', coerce_x (VRef 1) (VStr "Mars") s
                = Throw (ValidationError "Unknown Country enum value: Mars") s'.
Proof. split; [vm_compute; reflexivity | eexists; vm_compute; reflexivity]. Qed.

(* ----------------------------------------------------------------- *)
(** *** C6 *)

(** C6 (counterexample).  A [Customer] whose fragment-array field
    [otherAddresses] holds the string ["abc"], a value that is not an array:
    [serialize] writes ["abc"] itself under the wire key, not an empty
    sequence. *)
Lemma serialize_keeps_truthy_non_array :
  let build := p <- new_object [("otherAddresses", VStr "abc")] ;; demo_create Customer_id p in
  let s := state_after build demo_state in
  let run := demo_serialize 2 (VRef 8) VUndefined in
  result_of build demo_state = Some (VRef 8)
  /\ member (heap s) (VRef 8) "otherAddresses" = Some (VStr "abc")
  /\ is_array (heap s) (VStr "abc") = false
  /\ exists o, result_of run s = Some o
               /\ member (heap (state_after run s)) o "OtherAddresses" = Some (VStr "abc")
               /\ is_array (heap (state_after run s)) (VStr "abc") = false.
Proof.
  split; [vm_compute; reflexivity|]. split; [vm_compute; reflexivity|].
  split; [vm_compute; reflexivity|]. eexists. by_running.
Qed.

(** A [Customer] whose [otherAddresses] is an array of an [Address], of
    [null] and of a text: the reducer writes a new array of the serialized
    address, [null] and [null]. *)
Lemma serialize_fragment_array_field_witness :
  let build := a <- demo_create Address_id VUndefined ;;
               arr <- new_array [a; VNull; VStr "x"] ;;
               p <- new_object [("otherAddresses", arr)] ;;
               demo_create Customer_id p in
  let s := state_after build demo_state in
  let step := serialize_field demo_classes (fun v => demo_serialize 1 v VUndefined) (VRef 22) []
                              ("otherAddresses", VRef 17) in
  array_elems (heap s) (VRef 14) = Some [VRef 13; VNull; VStr "x"]
  /\ step s = Ret [("otherAddresses", VRef 26)] (state_after step s)
  /\ array_elems (heap (state_after step s)) (VRef 26) = Some [VRef 25; VNull; VNull]
  /\ nth_error (heap (state_after step s)) 25
     = Some (Obj CObject false
                 [("Country", VStr EmptyString); ("Postcode", VStr EmptyString);
                  ("State", VStr EmptyString); ("StreetAddress", VStr EmptyString);
                  ("Suburb", VStr EmptyString)]).
Proof.
  intros build s step.
  pose proof (serialize_fragment_array_field
                demo_classes (fun v => demo_serialize 1 v VUndefined)
                (VRef 22) [] "otherAddresses" (VRef 17) s "otherAddresses"
                VUndefined (VRef 14)
                ltac:(vm_compute; reflexivity) ltac:(vm_compute; reflexivity)
                ltac:(vm_compute; reflexivity) ltac:(vm_compute; reflexivity)
                ltac:(vm_compute; reflexivity)) as (A & _).
  split; [vm_compute; reflexivity|]. split.
  - unfold step at 1. rewrite (A [VRef 13; VNull; VStr "x"] ltac:(vm_compute; reflexivity)).
    vm_compute. reflexivity.
  - split; vm_compute; reflexivity.
Defined.

(* ----------------------------------------------------------------- *)
(** *** C7 *)

(** C7 (counterexample).  The raw value ["yes"] for a boolean-kind field is
    neither empty nor a producer; its coercion does not complete: the text
    is not JSON and [JSON.parse] fails with a [SyntaxError]. *)
Lemma boolean_coercion_fails_on_other_text :
  let s := state_after (demo_getFieldDefs Flag_id) demo_state in
  member (heap s) (VRef 1) "type" = Some (VStr "boolean")
  /\ isEmpty_model (heap s) (VStr "yes") = false
  /\ is_function (heap s) (VStr "yes") = false
  /\ demo_coerce (VRef 1) (VStr "yes") s = Throw SyntaxError s
  /\ ~ (exists b s', demo_coerce (VRef 1) (VStr "yes") s = Ret (VBool b) s').
Proof.
  conjs; try (vm_compute; reflexivity).
  intros (b & s' & H). vm_compute in H. discriminate.
Qed.

Lemma boolean_coercion_parses_JSON_witness :
  let s := state_after (demo_getFieldDefs Flag_id) demo_state in
  demo_coerce (VRef 1) (VStr "true") s = Ret (VBool true) s
  /\ demo_coerce (VRef 1) (VBool false) s = Ret (VBool false) s
  /\ demo_coerce (VRef 1) (VStr "1e-400") s = Ret (VBool false) s
  /\ demo_coerce (VRef 1) (VStr "0.5") s = Ret (VBool true) s.
Proof.
  intros s. split; [|split; [|split]].
  - apply (proj2 (boolean_coercion_parses_JSON
                    demo_classes isEmpty_model isNone_model false
                    (VRef 1) (VStr "true") s ltac:(vm_compute; reflexivity)
                    ltac:(vm_compute; reflexivity) ltac:(vm_compute; reflexivity)) true).
    right. reflexivity.
  - apply (proj2 (boolean_coercion_parses_JSON
                    demo_classes isEmpty_model isNone_model false
                    (VRef 1) (VBool false) s ltac:(vm_compute; reflexivity)
                    ltac:(vm_compute; reflexivity) ltac:(vm_compute; reflexivity)) false).
    left. reflexivity.
  - rewrite (proj1 (boolean_coercion_parses_JSON
                      demo_classes isEmpty_model isNone_model false
                      (VRef 1) (VStr "1e-400") s ltac:(vm_compute; reflexivity)
                      ltac:(vm_compute; reflexivity) ltac:(vm_compute; reflexivity))
                   "1e-400" ltac:(vm_compute; reflexivity)).
    vm_compute. reflexivity.
  - rewrite (proj1 (boolean_coercion_parses_JSON
                      demo_classes isEmpty_model isNone_model false
                      (VRef 1) (VStr "0.5") s ltac:(vm_compute; reflexivity)
                      ltac:(vm_compute; reflexivity) ltac:(vm_compute; reflexivity))
                   "0.5" ltac:(vm_compute; reflexivity)).
    vm_compute. reflexivity.
Defined.

(* ----------------------------------------------------------------- *)
(** *** C9 *)

(** C9 (failing input).  [Customer.create({})]: the call returns an instance
    on which the single fragment [address], with no value supplied and no
    default declared, is [undefined], while the fragment array
    [otherAddresses] is a new empty array. *)
Lemma create_resolves_absent_inputs_witness :
  let s := state_after (fd <- demo_getFieldDefs Customer_id ;; new_object []) demo_state in
  let s' := state_after (demo_create Customer_id (VRef 5)) s in
  demo_create Customer_id (VRef 5) s = Ret (VRef 9) s'
  /\ member (heap s') (VRef 9) "address" = Some VUndefined
  /\ exists l, member (heap s') (VRef 9) "otherAddresses" = Some (VRef l)
               /\ (List.length (heap s) <= l)%nat
               /\ nth_error (heap s') l = Some (Arr false []).
Proof.
  intros s s'.
  assert (A1 : schema_cached demo_classes s Customer_id 4
                             [("address", VRef 1); ("otherAddresses", VRef 2)]) by cached.
  assert (A2 : In ("address", VRef 1) [("address", VRef 1); ("otherAddresses", VRef 2)])
    by (left; reflexivity).
  assert (A3 : In ("otherAddresses", VRef 2)
                  [("address", VRef 1); ("otherAddresses", VRef 2)])
    by (right; left; reflexivity).
  assert (A4 : member (heap s) (VRef 1) "defaultValue" = Some VUndefined) by run.
  assert (A5 : member (heap s) (VRef 2) "defaultValue" = Some VUndefined) by run.
  assert (A6 : ~ In "address" (map fst (own_props (heap s) (VRef 5))))
    by (vm_compute; intros F; exact F).
  assert (A7 : ~ In "otherAddresses" (map fst (own_props (heap s) (VRef 5))))
    by (vm_compute; intros F; exact F).
  assert (A8 : demo_create Customer_id (VRef 5) s = Ret (VRef 9) s') by run.
  split; [exact A8|]. split.
  - apply (proj2 (proj2 (create_resolves_absent_inputs
                           demo_classes camelize_key classify_key isEmpty_model isNone_model
                           false (fun _ => eq_refl)
                           Customer_id (VRef 5) s (VRef 9) s' 4
                           [("address", VRef 1); ("otherAddresses", VRef 2)]
                           "address" (VRef 1) A1 A2 A4 A6 eq_refl A8))
                 ltac:(run) Address_id ltac:(run)).
  - apply (proj1 (proj2 (create_resolves_absent_inputs
                           demo_classes camelize_key classify_key isEmpty_model isNone_model
                           false (fun _ => eq_refl)
                           Customer_id (VRef 5) s (VRef 9) s' 4
                           [("address", VRef 1); ("otherAddresses", VRef 2)]
                           "otherAddresses" (VRef 2) A1 A3 A5 A7 eq_refl A8))
                 ltac:(run)).
Defined.

(* ----------------------------------------------------------------- *)
(** *** C10 *)

(** C10 (counterexample).  The caller's object holds an [Address] instance
    under [address]; [Customer.deserialize] hands the instance to
    [Address.deserialize], which freezes it: after the call an object
    nested in the input is frozen that was not frozen before. *)
Lemma deserialize_freezes_a_nested_instance :
  let s := state_after (a <- demo_create Address_id VUndefined ;;
                        new_object [("address", a)]) demo_state in
  let run := demo_deserialize 3 Customer_id (VRef 14) in
  nth_error (heap s) 14 = Some (Obj CObject false [("address", VRef 13)])
  /\ ctor_of (heap s) (VRef 13) = Some (CModel Address_id)
  /\ is_frozen (heap s) 13 = false
  /\ run s = Ret (VRef 31) (state_after run s)
  /\ is_frozen (heap (state_after run s)) 14 = true
  /\ is_frozen (heap (state_after run s)) 13 = true.
Proof. by_running. Qed.

(** The call on plain data returns; the caller's object is frozen and the
    object nested in it is as it was. *)
Lemma deserialize_freezes_its_argument_witness :
  let s := state_after (inner <- new_object [("country", VStr "UK")] ;;
                        new_object [("address", inner)]) demo_state in
  let run := demo_deserialize 3 Customer_id (VRef 2) in
  run s = Ret (VRef 28) (state_after run s)
  /\ input_frozen_only s 2 [("address", VRef 1)] (state_after run s)
  /\ is_frozen (heap s) 2 = false
  /\ is_frozen (heap (state_after run s)) 2 = true
  /\ is_frozen (heap (state_after run s)) 1 = false.
Proof.
  intros s run.
  assert (R : run s = Ret (VRef 28) (state_after run s)) by run.
  split; [exact R|]. split; [|by_running].
  apply (proj2 (proj2 (deserialize_freezes_its_argument
                         demo_classes camelize_key classify_key isEmpty_model isNone_model
                         false 2 Customer_id 2 false [("address", VRef 1)] s
                         ltac:(run))));
    [exists 2; vm_compute; repeat constructor | left; exists (VRef 28); exact R].
Defined.

(** The same call, run: it returns an instance, the caller's object is
    frozen and the object nested in it is not. *)
Example deserialize_freezes_the_top_level_only :
  let s := state_after (inner <- new_object [("country", VStr "UK")] ;;
                        new_object [("address", inner)]) demo_state in
  let run := demo_deserialize 3 Customer_id (VRef 2) in
  exists r, result_of run s = Some r
            /\ is_frozen (heap s) 2 = false
            /\ is_frozen (heap (state_after run s)) 2 = true
            /\ is_frozen (heap (state_after run s)) 1 = false.
Proof. eexists. by_running. Qed.

(* ================================================================= *)
(** ** Further properties, at sample inputs *)

Lemma helpers_model_as_specified : helpers_as_specified isEmpty_model isNone_model.
Proof.
  unfold helpers_as_specified. repeat split; intros; try reflexivity.
  simpl. apply String.eqb_neq. assumption.
Defined.

Lemma empty_value_takes_default_witness :
  demo_coerce (VRef 1) VNull sample_defs = Ret (VNum (dec 7 0)) sample_defs
  /\ demo_coerce (VRef 0) VUndefined sample_defs = Ret VNull sample_defs.
Proof.
  split.
  - apply (proj1 (empty_value_takes_default
                    demo_classes isEmpty_model isNone_model false
                    (VRef 1) VNull (VNum (dec 7 0)) sample_defs
                    ltac:(run) ltac:(run) ltac:(run))).
    discriminate.
  - apply (proj2 (empty_value_takes_default
                    demo_classes isEmpty_model isNone_model false
                    (VRef 0) VUndefined VUndefined sample_defs
                    ltac:(run) ltac:(run) ltac:(run))
                 eq_refl "number" ltac:(run)).
    left; reflexivity.
Defined.

Lemma empty_value_invokes_producer_witness :
  demo_coerce (VRef 7) VUndefined sample_defs = Ret (VStr "n/a") sample_defs
  /\ demo_coerce (VRef 3) VUndefined sample_defs
     = Ret (VRef 8) (grow sample_defs [Arr false []]).
Proof.
  split.
  - apply (proj1 (empty_value_invokes_producer
                    demo_classes isEmpty_model isNone_model false
                    (VRef 7) VUndefined 6 sample_defs ltac:(run) ltac:(run))
                 (VStr "n/a") ltac:(run)).
    discriminate.
  - apply (proj2 (empty_value_invokes_producer
                    demo_classes isEmpty_model isNone_model false
                    (VRef 3) VUndefined 2 sample_defs ltac:(run) ltac:(run))
                 [] ltac:(run)).
Defined.

Lemma array_coercion_shares_the_array_witness :
  demo_coerce (VRef 3) (VRef 4) sample_defs = Ret (VRef 4) sample_defs
  /\ demo_coerce (VRef 3) (VStr "a,b") sample_defs
     = Ret (VRef 8) (grow sample_defs [Arr false []]).
Proof.
  split.
  - apply (proj1 (array_coercion_shares_the_array
                    demo_classes isEmpty_model isNone_model false
                    (VRef 3) (VRef 4) sample_defs ltac:(run) ltac:(run) ltac:(run))).
    run.
  - apply (proj2 (array_coercion_shares_the_array
                    demo_classes isEmpty_model isNone_model false
                    (VRef 3) (VStr "a,b") sample_defs ltac:(run) ltac:(run) ltac:(run))).
    run.
Defined.

Lemma coercion_is_idempotent_for_string_and_boolean_witness :
  demo_coerce (VRef 5) (VBool true) sample_defs = Ret (VBool true) sample_defs.
Proof.
  apply (proj2 (coercion_is_idempotent_for_string_and_boolean
                  demo_classes isEmpty_model isNone_model false
                  helpers_model_as_specified
                  (VRef 5) (VStr "1") (VBool true) "boolean" sample_defs sample_defs
                  (or_intror eq_refl) ltac:(run) ltac:(run) ltac:(run) ltac:(run))).
Defined.

Lemma deserialize_of_malformed_text_fails_witness :
  demo_deserialize 1 Address_id (VStr "{country: Australia}") demo_state
  = Throw SyntaxError demo_state.
Proof.
  apply (deserialize_of_malformed_text_fails
           demo_classes camelize_key isEmpty_model isNone_model false
           0 Address_id "{country: Australia}" demo_state ltac:(run)).
Defined.

Lemma getFieldDefs_is_cached_witness :
  post (demo_getFieldDefs Dog_id demo_state)
       (fun fd s1 =>
          demo_getFieldDefs Dog_id s1 = Ret fd s1
          /\ (assoc_class (statics s1) Dog_id = Some fd ->
              forall fz s2, step_rel demo_classes fz s1 s2 ->
                            demo_getFieldDefs Dog_id s2 = Ret fd s2))
       (fun _ => True).
Proof.
  apply (getFieldDefs_is_cached demo_classes Dog_id demo_state).
  vm_compute. discriminate.
Defined.

Lemma every_field_equal_is_strict_equality_of_fields_witness :
  let s := state_after (p <- new_object [("tags", VRef 4)] ;;
                        q <- new_object [("tags", VRef 4)] ;;
                        new_object [("tags", VRef 8)]) sample_defs in
  every_field_equal demo_classes (VRef 8) (VRef 9) [VStr "tags"] s = Ret (VBool true) s
  /\ every_field_equal demo_classes (VRef 8) (VRef 10) [VStr "tags"] s = Ret (VBool false) s.
Proof.
  intros s. split.
  - apply (every_field_equal_is_strict_equality_of_fields
             demo_classes (VRef 8) (VRef 9) ["tags"] s ltac:(run) ltac:(run)).
  - apply (every_field_equal_is_strict_equality_of_fields
             demo_classes (VRef 8) (VRef 10) ["tags"] s ltac:(run) ltac:(run)).
Defined.

Lemma enum_coercion_on_extended_host_witness :
  let s := state_after (demo_getFieldDefs Place_id) demo_state in
  let s' := grow s [Arr false [VStr "Australia"; VStr "UnitedKingdom"]] in
  getValueOrDefault demo_classes isEmpty_model isNone_model true (VRef 1) (VStr "Mars") s
  = Throw (ValidationError "Unknown Country enum value: Mars") s'.
Proof.
  intros s s'.
  apply (enum_coercion_on_extended_host
           demo_classes isEmpty_model isNone_model true eq_refl
           (VRef 1) (VStr "Mars") s 0 "Country" false
           [("Australia", VStr "Australia"); ("UnitedKingdom", VStr "UnitedKingdom")] "Mars"
           ltac:(run) ltac:(run) ltac:(run) ltac:(run) ltac:(run) ltac:(run) ltac:(run)).
Defined.

(** The factory, the copy and the writer return at the samples, and what
    they return is new. *)
Lemma create_returns_a_new_instance_witness :
  let s' := state_after (demo_create Address_id VUndefined) demo_state in
  demo_create Address_id VUndefined demo_state = Ret (VRef 13) s'
  /\ exists l ps,
      VRef 13 = VRef l /\ (List.length (heap demo_state) <= l)%nat
      /\ nth_error (heap s') l = Some (Obj (CModel Address_id) false ps)
      /\ untouched demo_state s'.
Proof.
  intros s'.
  assert (R : demo_create Address_id VUndefined demo_state = Ret (VRef 13) s') by run.
  split; [exact R|].
  exact (proj1 (create_returns_a_new_instance
                  demo_classes camelize_key classify_key isEmpty_model isNone_model false
                  Address_id VUndefined demo_state) (VRef 13) s' R).
Defined.

Lemma clone_returns_a_new_instance_witness :
  let s := state_after (customer_with_address demo_create) demo_state in
  let s' := state_after (demo_clone 2 (VRef 22)) s in
  demo_clone 2 (VRef 22) s = Ret (VRef 34) s'
  /\ exists c l ps,
      member (heap s) (VRef 22) "constructor" = Some (VClass c)
      /\ VRef 34 = VRef l /\ (List.length (heap s) <= l)%nat
      /\ nth_error (heap s') l = Some (Obj (CModel c) false ps)
      /\ untouched s s'.
Proof.
  intros s s'.
  assert (R : demo_clone 2 (VRef 22) s = Ret (VRef 34) s') by run.
  split; [exact R|].
  exact (proj1 (clone_returns_a_new_instance
                  demo_classes camelize_key classify_key isEmpty_model isNone_model false
                  2 (VRef 22) s) (VRef 34) s' R).
Defined.

Lemma serialize_returns_a_new_object_witness :
  let s := state_after (customer_with_address demo_create) demo_state in
  let s' := state_after (demo_serialize 2 (VRef 22) VUndefined) s in
  demo_serialize 2 (VRef 22) VUndefined s = Ret (VRef 30) s'
  /\ own_props (heap s') (VRef 30) = [("Address", VRef 28); ("OtherAddresses", VRef 29)]
  /\ exists l qs,
      VRef 30 = VRef l /\ (List.length (heap s) <= l)%nat
      /\ nth_error (heap s') l = Some (Obj CObject false qs)
      /\ untouched s s'.
Proof.
  intros s s'.
  assert (R : demo_serialize 2 (VRef 22) VUndefined s = Ret (VRef 30) s') by run.
  split; [exact R|]. split; [run|].
  exact (proj1 (serialize_returns_a_new_object
                  demo_classes camelize_key classify_key
                  2 (VRef 22) VUndefined s) (VRef 30) s' R).
Defined.

(** An account whose [secret] is declared with [serialize: false] and whose
    [nick] goes over the wire as [nick_name]: the object written has the
    keys [Name] and [NickName], and each key is that of an included
    field. *)
Lemma serialize_writes_included_fields_only_witness :
  let s := state_after (account_of_ann (create account_classes isEmpty_model isNone_model
                                               false)) demo_state in
  let s' := state_after (serialize account_classes classify_key 1 (VRef 10) VUndefined) s in
  serialize account_classes classify_key 1 (VRef 10) VUndefined s = Ret (VRef 13) s'
  /\ own_props (heap s') (VRef 13) = [("Name", VStr "Ann"); ("NickName", VStr "an")]
  /\ exists l qs,
      VRef 13 = VRef l
      /\ nth_error (heap s') l = Some (Obj CObject false qs)
      /\ forall k, In k (map fst qs) ->
           exists key def ak ser a,
             In (key, def) [("name", VRef 2); ("secret", VRef 3); ("nick", VRef 4)]
             /\ member (heap s) def "apiKey" = Some ak
             /\ member (heap s) def "serialize" = Some ser
             /\ strict_equal ser (VBool false) = false
             /\ k = classify_key a
             /\ (forall t, wire_name account_classes ak key = Some t -> a = t).
Proof.
  intros s s'.
  assert (A1 : member (heap s) (VRef 10) "constructor" = Some (VClass Account_id)) by run.
  assert (A2 : schema_cached account_classes s Account_id 6
                             [("name", VRef 2); ("secret", VRef 3); ("nick", VRef 4)])
    by cached.
  assert (A3 : forall key def,
             In (key, def) [("name", VRef 2); ("secret", VRef 3); ("nick", VRef 4)] ->
             is_FieldDef (heap s) def = true).
  { intros key def [E | [E | [E | []]]]; inversion E; subst; run. }
  assert (R : serialize account_classes classify_key 1 (VRef 10) VUndefined s
              = Ret (VRef 13) s') by run.
  split; [exact R|]. split; [run|].
  exact (serialize_writes_included_fields_only
           account_classes camelize_key classify_key 1 (VRef 10) VUndefined s (VRef 13) s'
           Account_id 6 [("name", VRef 2); ("secret", VRef 3); ("nick", VRef 4)]
           A1 A2 A3 R).
Defined.

Lemma clone_copies_nested_instances_witness :
  let s := state_after (customer_with_address demo_create) demo_state in
  let s' := state_after (demo_clone 2 (VRef 22)) s in
  exists n' ps',
    member (heap s') (VRef 34) "address" = Some (VRef n')
    /\ n' <> 13
    /\ (List.length (heap s) <= n')%nat
    /\ nth_error (heap s') n' = Some (Obj (CModel Address_id) false ps')
    /\ nth_error (heap s') 13
       = Some (Obj (CModel Address_id) false
                   [("country", VStr EmptyString); ("postcode", VStr EmptyString);
                    ("state", VStr EmptyString); ("streetAddress", VStr EmptyString);
                    ("suburb", VStr EmptyString)]).
Proof.
  intros s s'.
  apply (clone_copies_nested_instances
           demo_classes camelize_key classify_key isEmpty_model isNone_model false
           (fun _ _ _ _ _ _ => eq_refl)
           1 22 s (VRef 34) s' Customer_id false
           [("address", VRef 13); ("otherAddresses", VRef 19)] 18
           [("address", VRef 15); ("otherAddresses", VRef 16)]
           "address" (VRef 15) Address_id 13 Address_id false
           [("country", VStr EmptyString); ("postcode", VStr EmptyString);
            ("state", VStr EmptyString); ("streetAddress", VStr EmptyString);
            ("suburb", VStr EmptyString)]
           ltac:(cached) ltac:(run) ltac:(run) ltac:(left; reflexivity)
           ltac:(run) ltac:(run) ltac:(run) ltac:(run) ltac:(run) ltac:(run) ltac:(run)).
Defined.

Lemma clone_shares_array_attributes_witness :
  let s := state_after (post_with_tags demo_create) demo_state in
  let s' := state_after (demo_clone 2 (VRef 24)) s in
  member (heap s) (VRef 24) "tags" = Some (VRef 14)
  /\ member (heap s') (VRef 36) "tags" = Some (VRef 14)
  /\ nth_error (heap s') 14 = Some (Arr false [VStr "x"]).
Proof.
  intros s s'. split; [run|].
  apply (clone_shares_array_attributes
           demo_classes camelize_key classify_key isEmpty_model isNone_model false
           1 24 s (VRef 36) s' Post_id false
           [("title", VStr EmptyString); ("tags", VRef 14); ("author", VRef 13)] 20
           [("title", VRef 16); ("tags", VRef 17); ("author", VRef 18)]
           "tags" (VRef 17) 14 false [VStr "x"]
           (fun _ _ => eq_refl)
           ltac:(cached) ltac:(run) ltac:(run) ltac:(right; left; reflexivity)
           ltac:(run) ltac:(run) ltac:(run) ltac:(run) ltac:(run)).
Defined.

Ltac plain := unfold plain_scalar; conjs; run.

Lemma flat_record_survives_the_wire_witness :
  let s := state_after (reading_five demo_create) demo_state in
  exists w s1 r s2,
    demo_serialize 1 (VRef 10) VUndefined s = Ret w s1
    /\ demo_deserialize 1 Reading_id w s1 = Ret r s2
    /\ r <> VRef 10
    /\ (forall key, In key ["label"; "value"; "ok"] ->
                    member (heap s2) r key = member (heap s) (VRef 10) key)
    /\ every_field_equal demo_classes r (VRef 10) [VStr "label"; VStr "value"; VStr "ok"] s2
       = Ret (VBool true) s2.
Proof.
  intros s.
  apply (flat_record_survives_the_wire
           demo_classes camelize_key classify_key isEmpty_model isNone_model false
           helpers_model_as_specified 0 0 VUndefined Reading_id 10 6
           [("label", VStr "t"); ("value", VNum (dec 5 0)); ("ok", VBool true)]
           [("label", VRef 2); ("value", VRef 3); ("ok", VRef 4)] s).
  - intros k [<- | [<- | [<- | []]]]; run.
  - cached.
  - split; [eexists; run|]. split; [run|].
    intros key def [E | [E | [E | []]]]; inversion E; subst.
    + exists "string", (VStr "t"). split; [plain|]. split; [run|].
      left. split; [reflexivity | eauto].
    + exists "number", (VNum (dec 5 0)). split; [plain|]. split; [run|].
      right; right. split; [reflexivity|]. right. exists (dec 5 0).
      split; [reflexivity|]. split; [run|]. split; run.
    + exists "boolean", (VBool true). split; [plain|]. split; [run|].
      right; left. split; [reflexivity | eauto].
Defined.


Lemma deserialize_sets_absent_fragment_to_null_witness :
  let s := state_after (fd <- demo_getFieldDefs Customer_id ;;
                        new_object [("name", VStr "x")]) demo_state in
  let s' := state_after (demo_deserialize 2 Customer_id (VRef 5)) s in
  member (heap s') (VRef 11) "address" = Some VNull.
Proof.
  intros s s'.
  apply (deserialize_sets_absent_fragment_to_null
           demo_classes camelize_key classify_key isEmpty_model isNone_model false
           (fun _ => eq_refl)
           0 Customer_id 5 s (VRef 11) s' false [("name", VStr "x")] 4
           [("address", VRef 1); ("otherAddresses", VRef 2)]
           "address" (VRef 1) Address_id
           ltac:(cached) ltac:(run) ltac:(left; reflexivity)
           ltac:(run) ltac:(run) ltac:(run) ltac:(run)).
  - intros k [<- | []]. vm_compute. discriminate.
  - run.
  - run.
Defined.

Lemma deserialize_sets_absent_fragment_array_to_empty_witness :
  let s := state_after (fd <- demo_getFieldDefs Customer_id ;;
                        new_object [("name", VStr "x")]) demo_state in
  let s' := state_after (demo_deserialize 2 Customer_id (VRef 5)) s in
  exists l fr,
    member (heap s') (VRef 11) "otherAddresses" = Some (VRef l)
    /\ (List.length (heap s) <= l)%nat
    /\ nth_error (heap s') l = Some (Arr fr []).
Proof.
  intros s s'.
  apply (deserialize_sets_absent_fragment_array_to_empty
           demo_classes camelize_key classify_key isEmpty_model isNone_model false
           1 Customer_id 5 s (VRef 11) s' false [("name", VStr "x")] 4
           [("address", VRef 1); ("otherAddresses", VRef 2)]
           "otherAddresses" (VRef 2)
           ltac:(cached) ltac:(run) ltac:(right; left; reflexivity)
           ltac:(run) ltac:(run)).
  - intros k [<- | []]. vm_compute. discriminate.
  - run.
Defined.


(** The fields of [Dog]: those of [Animal], then its own. *)
Example Dog_schema :
  map fst (descriptor_inits (all_fields demo_classes Dog_id)) = ["name"; "legs"].
Proof. run. Qed.




Lemma serialize_fragment_field_witness :
  let s := state_after (customer_with_text_address demo_create) demo_state in
  serialize_field demo_classes (fun v => demo_serialize 1 v VUndefined) (VRef 9) []
                  ("address", VRef 2) s
  = Ret [("address", VNull)]
        (mkState (heap s) (statics s)
                 (console s
                  ++ [cat ["Unable to to serialize "; "address"; " in ";
                           "<Customer:undefined>"; " with value "; "abc"]])).
Proof.
  intros s.
  apply (proj2 (proj2 (serialize_fragment_field
                         demo_classes (fun v => demo_serialize 1 v VUndefined)
                         (VRef 9) [] "address" (VRef 2) s "address" VUndefined (VStr "abc")
                         ltac:(run) ltac:(run) ltac:(run) ltac:(run) ltac:(run)))
               VUndefined (VClass Address_id) "<Customer:undefined>" "abc"
               ltac:(run) ltac:(run) ltac:(run) ltac:(run)
               (or_intror (ex_intro _ VUndefined (conj eq_refl eq_refl)))
               ltac:(run) ltac:(run)).
Defined.
(* ================================================================= *)
(** ** The round trip, at sample inputs *)



(* ================================================================= *)
(** ** The copy, at sample inputs *)



(** A [Customer] with an address and one other address, cloned: the clone
    holds another array, with another [Address] in it. *)
Example clone_of_a_fragment_array :
  let build := a <- demo_create Address_id VUndefined ;;
               b <- demo_create Address_id VUndefined ;;
               arr <- new_array [b] ;;
               p <- new_object [("address", a); ("otherAddresses", arr)] ;;
               demo_create Customer_id p in
  let s := state_after build demo_state in
  let s' := state_after (demo_clone 2 (VRef 28)) s in
  member (heap s) (VRef 28) "otherAddresses" = Some (VRef 20)
  /\ array_elems (heap s) (VRef 20) = Some [VRef 19]
  /\ demo_clone 2 (VRef 28) s = Ret (VRef 47) s'
  /\ member (heap s') (VRef 47) "otherAddresses" = Some (VRef 43)
  /\ array_elems (heap s') (VRef 43) = Some [VRef 42]
  /\ ctor_of (heap s') (VRef 42) = Some (CModel Address_id)
  /\ array_elems (heap s') (VRef 20) = Some [VRef 19].
Proof. by_running. Qed.
Example num_to_string_samples :
  map num_to_string [Fin 0 0; Fin 15 (-1); Fin (-2000) 0; Fin 1 21; Fin 1 (-7); Fin 123 (-8); dec 12 3]
  = ["0"; "1.5"; "-2000"; "1e+21"; "1e-7"; "0.00000123"; "12000"].
Proof. reflexivity. Qed.

Example parseFloat_samples :
  map parseFloat_text ["12"; " 3.50abc"; "-1e3"; "abc"; ".5"; "1e"; "Infinityx"]
  = [Fin 12 0; Fin 35 (-1); Fin (-1) 3; NaN; Fin 5 (-1); Fin 1 0; Infinity false].
Proof. vm_compute. reflexivity. Qed.

(** Texts that no double denotes exactly are rounded: beyond the largest
    double to an infinity, below the smallest to zero, in between to the
    nearest double, which prints with its shortest digits. *)
Example parseFloat_rounds :
  map parseFloat_text
    ["1e400"; "-1e400"; "1e-400"; "9007199254740993"; "0.1"; "0.1000000000000000055511151231257827";
     "0.30000000000000004"; "1.7976931348623157e308"; "1.7976931348623159e308"; "5e-324"; "2e-324"]
  = [Infinity false; Infinity true; Fin 0 0; Fin 9007199254740992 0; Fin 1 (-1); Fin 1 (-1);
     Fin 30000000000000004 (-17); Fin 17976931348623157 292; Infinity false; Fin 5 (-324); Fin 0 0].
Proof. vm_compute. reflexivity. Qed.

Example num_to_string_of_doubles :
  map (fun t => num_to_string (parseFloat_text t))
    ["1e23"; "123456789012345678901234567890"; "9007199254740993"; "1e-7"; "4.35"; "1e21"]
  = ["1e+23"; "1.2345678901234568e+29"; "9007199254740992"; "1e-7"; "4.35"; "1e+21"].
Proof. vm_compute. reflexivity. Qed.

Example isNaN_samples :
  map isNaN_text [EmptyString; "12"; "12px"; "0x1F"; "0xZ"; " 1. "; "abc"; "-Infinity"]
  = [false; false; true; false; true; false; true; false].
Proof. reflexivity. Qed.

Example JSON_parse_samples :
  map JSON_parse_text
    ["true"; " false "; "yes"; String.append "[1, {" (String.append (quoted "a") ": null}]"); "01"; "1.5e2";
     quoted "a\nb"; String.append "{" (String.append (quoted "a") ":1,}"); "[1,2"]
  = [Some (JBool true); Some (JBool false); None;
     Some (JArr [JNum (Fin 1 0); JObj [("a", JNull)]]); None; Some (JNum (Fin 15 1));
     Some (JStr (String "a" (String (ascii_of_nat 10) "b"))); None; None].
Proof. vm_compute. reflexivity. Qed.

Example JSON_parse_rounds :
  map JSON_parse_text ["1e-400"; "-1e-400"; "1e400"; "9007199254740993"; "0.5"]
  = [Some (JNum (Fin 0 0)); Some (JNum (Fin 0 0)); Some (JNum (Infinity false));
     Some (JNum (Fin 9007199254740992 0)); Some (JNum (Fin 5 (-1)))].
Proof. vm_compute. reflexivity. Qed.

